(** * Track-change extension: accept/reject engine and transaction interceptor

    A shallow embedding of [src/src/index.ts] and of its sibling variant
    [src/unnamed/part_000] (the two files agree on everything except the body
    of [appendTransaction]).

    The host editor (the ProseMirror document and transform, and the tiptap
    helpers [getMarksBetween], [isMarkActive], [getMarkRange]) is not part of
    the repository.  It is modelled here on the inline content of one
    textblock: a document is the sequence of its characters, each carrying
    its mark set, and a position is an offset into that sequence.  Text nodes
    are the maximal stretches of characters with equal mark sets, which is
    the normal form the host keeps its fragments in.  Block structure is out
    of the model. *)

From Stdlib Require Import Ascii String ZArith QArith Qround Lia.
From stdpp Require Import base option list sorting strings gmap.

Open Scope Z_scope.

(** ** Constants of the source *)

Definition MARK_DELETION : string := "deletion".
Definition MARK_INSERTION : string := "insertion".
Definition EXTENSION_NAME : string := "trackchange".

(** [TRACK_COMMAND_TYPE]: 'accept' | 'accept-all' | 'reject' | 'reject-all'. *)
Inductive TRACK_COMMAND_TYPE :=
| TRACK_COMMAND_ACCEPT
| TRACK_COMMAND_ACCEPT_ALL
| TRACK_COMMAND_REJECT
| TRACK_COMMAND_REJECT_ALL.

Global Instance TRACK_COMMAND_TYPE_eq_dec : EqDecision TRACK_COMMAND_TYPE.
Proof. solve_decision. Defined.

(** [IME_STATUS_TYPE]: 0 | 1 | 2 | 3. *)
Inductive IME_STATUS_TYPE :=
| IME_STATUS_NORMAL
| IME_STATUS_START
| IME_STATUS_CONTINUE
| IME_STATUS_FINISHED.

Global Instance IME_STATUS_TYPE_eq_dec : EqDecision IME_STATUS_TYPE.
Proof. solve_decision. Defined.

(** ** Host model: marks and documents *)

(** An attribute value: the source stores strings, and the number returned
    by [getMinuteTime] under 'data-op-date'. *)
Inductive AttrVal :=
| AStr (s : string)
| ANum (n : Z).

Global Instance AttrVal_eq_dec : EqDecision AttrVal.
Proof. solve_decision. Defined.

(** A mark: its type, named as in the schema, and its attributes in
    declaration order. *)
Record Mark := mkMark {
  mark_type : string;
  mark_attrs : list (string * AttrVal)
}.

Global Instance Mark_eq_dec : EqDecision Mark.
Proof. solve_decision. Defined.

(** One character of inline content with the marks of its text node. *)
Record Inline := mkInline {
  chr : ascii;
  marks : list Mark
}.

Global Instance Inline_eq_dec : EqDecision Inline.
Proof. solve_decision. Defined.

Definition Doc := list Inline.

(** [doc.content.size] *)
Definition doc_size (d : Doc) : Z := Z.of_nat (length d).

(** The text of a document, marks forgotten. *)
Definition text_of (d : Doc) : list ascii := map chr d.

(** [MarkRange] of tiptap: a mark with the extent of the node carrying it. *)
Record MarkRange := mkMarkRange {
  mr_mark : Mark;
  mr_from : Z;
  mr_to : Z
}.

(** [Range] of tiptap. *)
Record Range := mkRange {
  r_from : Z;
  r_to : Z
}.

(** A text node: its extent [[n_from, n_to)] and its marks. *)
Record Node := mkNode {
  n_from : Z;
  n_to : Z;
  n_marks : list Mark
}.

(** The text nodes of the content that starts at position [pos]. *)
Fixpoint nodes_from (pos : Z) (d : Doc) : list Node :=
  match d with
  | [] => []
  | c :: d' =>
      match nodes_from (pos + 1) d' with
      | n :: ns =>
          if decide (marks c = n_marks n)
          then mkNode pos (n_to n) (marks c) :: ns
          else mkNode pos (pos + 1) (marks c) :: n :: ns
      | [] => [mkNode pos (pos + 1) (marks c)]
      end
  end.

Definition nodes (d : Doc) : list Node := nodes_from 0 d.

(** ** [getMinuteTime]

    [Math.round(new Date().getTime() / 1000 / 60) * 1000 * 60], over exact
    rationals; [now] is the value of [new Date().getTime()].  The doubles of
    the source round the same way for the clock values of our era: a
    quotient is off by far less than the 1/60000 that separates two
    millisecond values, and a tie, at 30000 ms, is computed exactly. *)

(** [Math.round]: the nearest integer, a tie going towards +infinity. *)
Definition Math_round (x : Q) : Z := Qfloor (x + (1 # 2))%Q.

Definition getMinuteTime (now : Z) : Z :=
  Math_round (inject_Z now / 1000 / 60)%Q * 1000 * 60.


(** ** Host model: mark sets *)

(** Rank of a mark type in the schema.  [addExtensions] registers
    [InsertionMark] before [DeletionMark]; the other marks of the schema come
    after them. *)
Definition rank (type : string) : nat :=
  if decide (type = MARK_INSERTION) then 0%nat
  else if decide (type = MARK_DELETION) then 1%nat
  else 2%nat.

(** [mark.isInSet(set)] *)
Definition isInSet (m : Mark) (set : list Mark) : bool :=
  bool_decide (m ∈ set).

(** [type.isInSet(set)]: the first mark of that type. *)
Definition findType (type : string) (set : list Mark) : option Mark :=
  List.find (λ m, bool_decide (mark_type m = type)) set.

Definition hasType (type : string) (set : list Mark) : bool :=
  existsb (λ m, bool_decide (mark_type m = type)) set.

(** [mark.removeFromSet(set)] *)
Definition removeFromSet (m : Mark) (set : list Mark) : list Mark :=
  List.filter (λ o, negb (bool_decide (m = o))) set.

(** All marks of a type taken out of a set: what [removeMark] with a mark
    type leaves behind. *)
Definition removeType (type : string) (set : list Mark) : list Mark :=
  List.filter (λ o, negb (bool_decide (mark_type o = type))) set.

(** The loop of [mark.addToSet(set)]: a mark type excludes itself only. *)
Fixpoint addToSet_go (m : Mark) (set : list Mark) (placed : bool) : list Mark :=
  match set with
  | [] => if placed then [] else [m]
  | other :: rest =>
      if bool_decide (mark_type m = mark_type other)
      then addToSet_go m rest placed
      else if negb placed && (rank (mark_type m) <? rank (mark_type other))%nat
           then m :: other :: addToSet_go m rest true
           else other :: addToSet_go m rest placed
  end.

(** [mark.addToSet(set)] *)
Definition addToSet (m : Mark) (set : list Mark) : list Mark :=
  if isInSet m set then set else addToSet_go m set false.

(** ** Host model: reading a document *)

(** [f] applied to the characters at positions [[from, to)] of the content
    that starts at [pos]. *)
Fixpoint map_range_from (pos : Z) (f : Inline → Inline) (from to : Z) (d : Doc) : Doc :=
  match d with
  | [] => []
  | c :: d' =>
      (if bool_decide (from ≤ pos) && bool_decide (pos < to) then f c else c)
        :: map_range_from (pos + 1) f from to d'
  end.

Definition map_range (f : Inline → Inline) (from to : Z) (d : Doc) : Doc :=
  map_range_from 0 f from to d.

(** [doc.slice(from, to).content] *)
Definition slice (d : Doc) (from to : Z) : Doc :=
  take (Z.to_nat (to - from)) (drop (Z.to_nat from) d).

(** Whether a position can be resolved in a document. *)
Definition in_doc (d : Doc) (pos : Z) : bool :=
  bool_decide (0 ≤ pos) && bool_decide (pos ≤ doc_size d).

(** The character that decides the marks at a position: the one to its left,
    or the first one at the start of the content. *)
Definition probe (d : Doc) (pos : Z) : option Inline :=
  if bool_decide (pos ≤ 0) then d !! 0%nat else d !! Z.to_nat (pos - 1).

(** [$pos.marks()]; every mark is inclusive. *)
Definition marks_at (d : Doc) (pos : Z) : list Mark :=
  match probe d pos with
  | Some c => marks c
  | None => []
  end.

(** Length of the longest prefix all of whose elements satisfy [p]. *)
Fixpoint count_while {A} (p : A → bool) (l : list A) : nat :=
  match l with
  | [] => 0%nat
  | x :: l' => if p x then S (count_while p l') else 0%nat
  end.

(** [getMarkRange($pos, type)] of tiptap, with no attributes given.  The
    start node is the one [probe] looks at; it has to carry a mark of the
    type.  The range grows to the left over the nodes that carry that very
    mark and to the right over the nodes that carry a mark of the type. *)
Definition getMarkRange (d : Doc) (pos : Z) (type : string) : option Range :=
  match probe d pos with
  | None => None
  | Some c =>
      match findType type (marks c) with
      | None => None
      | Some m =>
          let start := Z.to_nat (if bool_decide (pos ≤ 0) then 0 else pos - 1) in
          let before := count_while (λ x, isInSet m (marks x)) (reverse (take start d)) in
          let after := count_while (λ x, hasType type (marks x)) (drop (S start) d) in
          Some (mkRange (Z.of_nat start - Z.of_nat before)
                        (Z.of_nat start + 1 + Z.of_nat after))
      end
  end.

(** The mark ranges of one text node. *)
Definition node_ranges (n : Node) : list MarkRange :=
  map (λ m, mkMarkRange m (n_from n) (n_to n)) (n_marks n).

(** [getMarksBetween(from, to, doc)] of tiptap.  On an empty range it lists
    the marks at the position, each with its mark range; otherwise
    [doc.nodesBetween] visits the text nodes that overlap the range, and each
    mark of a node is listed with the full extent of that node. *)
Definition getMarksBetween (from to : Z) (d : Doc) : list MarkRange :=
  if bool_decide (from = to)
  then
    omap (λ m, match getMarkRange d from (mark_type m) with
               | Some r => Some (mkMarkRange m (r_from r) (r_to r))
               | None => None
               end) (marks_at d from)
  else
    flat_map node_ranges
      (List.filter (λ n, bool_decide (n_from n < to) && bool_decide (from < n_to n))
                   (nodes d)).

(** ** Host model: steps and transactions *)

(** A step of the transform.  Only these three kinds touch inline content. *)
Inductive Step :=
| ReplaceStep (from to : Z) (slice : Doc)
| AddMarkStep (from to : Z) (mark : Mark)
| RemoveMarkStep (from to : Z) (mark : Mark).

(** A value stored with [setMeta]: a flag, or the object that the
    collaboration plugin stores under 'y-sync$'. *)
Inductive MetaVal :=
| MBool (b : bool)
| MSync (isChangeOrigin : bool).

(** Truthiness of [tr.getMeta(key)]. *)
Definition truthy (v : option MetaVal) : bool :=
  match v with
  | Some (MBool b) => b
  | Some (MSync _) => true
  | None => false
  end.

(** [v && v.isChangeOrigin], as a boolean. *)
Definition isChangeOrigin (v : option MetaVal) : bool :=
  match v with
  | Some (MSync b) => b
  | _ => false
  end.

Record Selection := mkSelection {
  sel_anchor : Z;
  sel_head : Z
}.

Definition sel_from (s : Selection) : Z := Z.min (sel_anchor s) (sel_head s).
Definition sel_to (s : Selection) : Z := Z.max (sel_anchor s) (sel_head s).

Record EditorState := mkEditorState {
  es_doc : Doc;
  es_selection : Selection;
  es_storedMarks : option (list Mark)
}.

(** A transaction: the current document, the steps applied so far, the
    document before each of them, the metadata and the selection. *)
Record Transaction := mkTr {
  tr_doc : Doc;
  tr_steps : list Step;
  tr_docs : list Doc;
  tr_meta : gmap string MetaVal;
  tr_selection : Selection
}.

(** [state.tr] *)
Definition state_tr (s : EditorState) : Transaction :=
  mkTr (es_doc s) [] [] ∅ (es_selection s).

(** [tr.docChanged] *)
Definition docChanged (tr : Transaction) : bool :=
  negb (bool_decide (tr_steps tr = [])).

(** [tr.getMeta(key)] *)
Definition getMeta (tr : Transaction) (key : string) : option MetaVal :=
  tr_meta tr !! key.

(** [tr.setMeta(key, value)] *)
Definition setMeta (tr : Transaction) (key : string) (v : MetaVal) : Transaction :=
  mkTr (tr_doc tr) (tr_steps tr) (tr_docs tr) (<[key := v]> (tr_meta tr)) (tr_selection tr).

(** [tr.setSelection(selection)] *)
Definition setSelection (tr : Transaction) (s : Selection) : Transaction :=
  mkTr (tr_doc tr) (tr_steps tr) (tr_docs tr) (tr_meta tr) s.

Definition in_range (d : Doc) (from to : Z) : bool :=
  bool_decide (0 ≤ from) && bool_decide (from ≤ to) && bool_decide (to ≤ doc_size d).

Definition set_marks (f : list Mark → list Mark) (c : Inline) : Inline :=
  mkInline (chr c) (f (marks c)).

(** [step.apply(doc)]; [None] when the step does not fit the document. *)
Definition step_apply (s : Step) (d : Doc) : option Doc :=
  match s with
  | ReplaceStep from to sl =>
      if in_range d from to
      then Some (take (Z.to_nat from) d ++ sl ++ drop (Z.to_nat to) d)
      else None
  | AddMarkStep from to m =>
      if in_range d from to
      then Some (map_range (set_marks (addToSet m)) from to d)
      else None
  | RemoveMarkStep from to m =>
      if in_range d from to
      then Some (map_range (set_marks (removeFromSet m)) from to d)
      else None
  end.

(** [tr.step(step)]: a step that does not apply throws. *)
Definition tr_step (tr : Transaction) (s : Step) : option Transaction :=
  d' ← step_apply s (tr_doc tr);
  Some (mkTr d' (tr_steps tr ++ [s]) (tr_docs tr ++ [tr_doc tr]) (tr_meta tr)
             (tr_selection tr)).

Definition tr_steps_all (tr : Transaction) (ss : list Step) : option Transaction :=
  foldl (λ acc s, tr' ← acc; tr_step tr' s) (Some tr) ss.

(** The stretch that ends at [pos] with the mark [style] reaches [end_]; the
    last such stretch is the one extended. *)
Fixpoint extend_last (pos end_ : Z) (style : Mark) (matched : list MarkRange)
  : option (list MarkRange) :=
  match matched with
  | [] => None
  | m :: rest =>
      match extend_last pos end_ style rest with
      | Some rest' => Some (m :: rest')
      | None =>
          if bool_decide (mr_to m = pos) && bool_decide (mr_mark m = style)
          then Some (mkMarkRange style (mr_from m) end_ :: rest)
          else None
      end
  end.

(** One mark found at position [pos]: it continues a stretch of the same
    mark that ended there, or opens a new one. *)
Definition note_style (pos : Z) (matched : list MarkRange) (style : Mark) : list MarkRange :=
  match extend_last pos (pos + 1) style matched with
  | Some matched' => matched'
  | None => matched ++ [mkMarkRange style pos (pos + 1)]
  end.

(** The stretches of [[from, to)] found by the scan of a transform helper;
    [pick] gives the marks it collects at a character. *)
Fixpoint stretches_from (pos : Z) (pick : list Mark → list Mark) (from to : Z)
    (d : Doc) (matched : list MarkRange) : list MarkRange :=
  match d with
  | [] => matched
  | c :: d' =>
      stretches_from (pos + 1) pick from to d'
        (if bool_decide (from ≤ pos) && bool_decide (pos < to)
         then foldl (note_style pos) matched (pick (marks c))
         else matched)
  end.

Definition stretches (pick : list Mark → list Mark) (from to : Z) (d : Doc) : list MarkRange :=
  stretches_from 0 pick from to d [].

(** The marks of a type in a set, in the order [removeMark] finds them. *)
Definition ofType (type : string) (set : list Mark) : list Mark :=
  List.filter (λ o, bool_decide (mark_type o = type)) set.

(** [tr.removeMark(from, to, markType)]: one [RemoveMarkStep] for each
    stretch of a mark of the type.  The scan of the document runs off its
    end, and throws, when [to] lies behind it. *)
Definition removeMark (tr : Transaction) (from to : Z) (type : string) : option Transaction :=
  if bool_decide (to ≤ doc_size (tr_doc tr))
  then tr_steps_all tr
         (map (λ m, RemoveMarkStep (mr_from m) (mr_to m) (mr_mark m))
              (stretches (ofType type) from to (tr_doc tr)))
  else None.

(** The marks that [mark.addToSet] drops from a set. *)
Definition dropped (m : Mark) (set : list Mark) : list Mark :=
  if isInSet m set then []
  else List.filter (λ o, negb (isInSet o (addToSet m set))) set.

(** [tr.addMark(from, to, mark)]: the steps that remove the marks the new one
    excludes, then one [AddMarkStep] for each stretch that lacks the mark. *)
Definition addMark (tr : Transaction) (from to : Z) (mark : Mark) : option Transaction :=
  if bool_decide (to ≤ doc_size (tr_doc tr))
  then
    let removed := stretches (dropped mark) from to (tr_doc tr) in
    let added := stretches (λ set, if isInSet mark set then [] else [mark]) from to (tr_doc tr) in
    tr_steps_all tr
      (map (λ m, RemoveMarkStep (mr_from m) (mr_to m) (mr_mark m)) removed
       ++ map (λ m, AddMarkStep (mr_from m) (mr_to m) (mr_mark m)) added)
  else None.

(** [tr.deleteRange(from, to)]: both ends are resolved first, which throws
    outside the document; an empty range adds no step. *)
Definition deleteRange (tr : Transaction) (from to : Z) : option Transaction :=
  if in_doc (tr_doc tr) from && in_doc (tr_doc tr) to && bool_decide (from ≤ to)
  then if bool_decide (from = to) then Some tr else tr_step tr (ReplaceStep from to [])
  else None.

(** [tr.insert(pos, content)]: empty content adds no step. *)
Definition insert (tr : Transaction) (pos : Z) (content : Doc) : option Transaction :=
  match content with
  | [] => Some tr
  | _ => tr_step tr (ReplaceStep pos pos content)
  end.

(** [step.invert(doc)] of a replace step, as its position and the content it
    puts back; slicing outside the document throws. *)
Definition invert (from to : Z) (sl : Doc) (d : Doc) : option (Z * Doc) :=
  if in_range d from to then Some (from, slice d from to) else None.

(** [step.getMap()] of a replace step: start, old size, new size. *)
Definition getMap (from to : Z) (sl : Doc) : Z * Z * Z :=
  (from, to - from, doc_size sl).

(** [stepMap.map(pos, assoc)] for the map of one replace step. *)
Definition stepMap_map (sm : Z * Z * Z) (pos assoc : Z) : Z :=
  let '(start, oldSize, newSize) := sm in
  if bool_decide (pos < start) then pos
  else if bool_decide (pos ≤ start + oldSize)
       then
         let side := if bool_decide (oldSize = 0) then assoc
                     else if bool_decide (pos = start) then -1
                     else if bool_decide (pos = start + oldSize) then 1
                     else assoc in
         start + (if bool_decide (side < 0) then 0 else newSize)
       else pos + (newSize - oldSize).

(** [Selection.map] through the maps of a list of steps (association 1);
    mark steps have empty maps. *)
Definition step_map_pos (pos : Z) (s : Step) : Z :=
  match s with
  | ReplaceStep from to sl => stepMap_map (getMap from to sl) pos 1
  | _ => pos
  end.

Definition mapping_map (steps : list Step) (pos : Z) : Z :=
  foldl step_map_pos pos steps.

(** [isMarkActive(state, name)] of tiptap on an empty selection, the only case
    in which the source calls it: the stored marks, or else the marks at the
    cursor, hold a mark of that type. *)
Definition isMarkActive (state : EditorState) (name : string) : bool :=
  hasType name
    (match es_storedMarks state with
     | Some sm => sm
     | None => marks_at (es_doc state) (sel_from (es_selection state))
     end).

(** [schema.marks.<type>.create(attrs)]: the three attributes in declaration
    order, an attribute left undefined taking its default. *)
Definition create (type : string) (id nickname : option string) (date : option Z) : Mark :=
  mkMark type
    [("data-op-user-id", AStr (default "" id));
     ("data-op-user-nickname", AStr (default "" nickname));
     ("data-op-date", match date with Some n => ANum n | None => AStr "" end)].

(** ** The extension: options, editor, module-level variables *)

(** The options of [TrackChangeExtension].  [onStatusChange] tells whether a
    callback is installed; its calls are logged in the editor. *)
Record Options := mkOptions {
  enabled : bool;
  onStatusChange : bool;
  dataOpUserId : option string;
  dataOpUserNickname : option string
}.

(** An entry of [editor.extensionManager.extensions]. *)
Record ExtensionEntry := mkExtension {
  ext_type : string;
  ext_name : string;
  ext_options : Options
}.

Record Editor := mkEditor {
  ed_state : EditorState;
  ed_extensions : list ExtensionEntry;
  ed_statusLog : list bool
}.

Record CommandProps := mkCommandProps {
  editor : Editor;
  tr : Transaction
}.

(** The module-level variables [composingStatus] and [isStartChineseInput]. *)
Record Globals := mkGlobals {
  composingStatus : IME_STATUS_TYPE;
  isStartChineseInput : bool
}.

Definition initial_globals : Globals := mkGlobals IME_STATUS_NORMAL false.

Definition is_self (item : ExtensionEntry) : bool :=
  bool_decide (ext_type item = "extension") && bool_decide (ext_name item = EXTENSION_NAME).

(** [getSelfExt(editor)] *)
Definition getSelfExt (ed : Editor) : option ExtensionEntry :=
  List.find is_self (ed_extensions ed).

(** An assignment to a field of [getSelfExt(editor).options]: it changes the
    entry that [find] returned, in place. *)
Fixpoint update_self (f : Options → Options) (exts : list ExtensionEntry)
  : option (list ExtensionEntry) :=
  match exts with
  | [] => None
  | item :: rest =>
      if is_self item
      then Some (mkExtension (ext_type item) (ext_name item) (f (ext_options item)) :: rest)
      else rest' ← update_self f rest; Some (item :: rest')
  end.

(** ** [changeTrack] *)

Definition is_track (markRange : MarkRange) : bool :=
  bool_decide (mark_type (mr_mark markRange) = MARK_DELETION)
  || bool_decide (mark_type (mr_mark markRange) = MARK_INSERTION).

(** The first part of [changeTrack]: the ranges to deal with, and the
    operation, 'accept-all' and 'reject-all' turned into 'accept' and
    'reject'. *)
Definition gather (opType : TRACK_COMMAND_TYPE) (state : EditorState)
  : TRACK_COMMAND_TYPE * list MarkRange :=
  let from := sel_from (es_selection state) in
  let to := sel_to (es_selection state) in
  if (bool_decide (opType = TRACK_COMMAND_ACCEPT) || bool_decide (opType = TRACK_COMMAND_REJECT))
     && bool_decide (from = to)
  then
    let isInsertBeforeCursor := isMarkActive state MARK_INSERTION in
    let isDeleteBeforeCursor := isMarkActive state MARK_DELETION in
    let leftRange :=
      if isInsertBeforeCursor then getMarkRange (es_doc state) from MARK_INSERTION
      else if isDeleteBeforeCursor then getMarkRange (es_doc state) from MARK_DELETION
      else None in
    (opType,
     match leftRange with
     | Some r => getMarksBetween (r_from r) (r_to r) (es_doc state)
     | None => []
     end)
  else if bool_decide (opType = TRACK_COMMAND_ACCEPT_ALL)
          || bool_decide (opType = TRACK_COMMAND_REJECT_ALL)
  then
    (if bool_decide (opType = TRACK_COMMAND_ACCEPT_ALL)
     then TRACK_COMMAND_ACCEPT else TRACK_COMMAND_REJECT,
     getMarksBetween 0 (doc_size (es_doc state)) (es_doc state))
  else (opType, getMarksBetween from to (es_doc state)).

(** Cases 1 and 4 of the source: the mark is removed. *)
Definition removes_mark (opType : TRACK_COMMAND_TYPE) (markRange : MarkRange) : bool :=
  let isAcceptInsert :=
    bool_decide (opType = TRACK_COMMAND_ACCEPT)
    && bool_decide (mark_type (mr_mark markRange) = MARK_INSERTION) in
  let isRejectDelete :=
    bool_decide (opType = TRACK_COMMAND_REJECT)
    && bool_decide (mark_type (mr_mark markRange) = MARK_DELETION) in
  isAcceptInsert || isRejectDelete.

(** The body of [markRanges.forEach]: the running offset and the transaction
    before and after one range. *)
Definition changeTrack_each (opType : TRACK_COMMAND_TYPE) (acc : Z * Transaction)
    (markRange : MarkRange) : option (Z * Transaction) :=
  let '(offset, currentTr) := acc in
  if removes_mark opType markRange
  then
    tr1 ← removeMark currentTr (mr_from markRange - offset) (mr_to markRange - offset)
                     MARK_INSERTION;
    tr2 ← removeMark tr1 (mr_from markRange - offset) (mr_to markRange - offset)
                     MARK_DELETION;
    Some (offset, tr2)
  else
    tr1 ← deleteRange currentTr (mr_from markRange - offset) (mr_to markRange - offset);
    Some (offset + (mr_to markRange - mr_from markRange), tr1).

Fixpoint changeTrack_loop (opType : TRACK_COMMAND_TYPE) (acc : Z * Transaction)
    (markRanges : list MarkRange) : option (Z * Transaction) :=
  match markRanges with
  | [] => Some acc
  | markRange :: rest =>
      acc' ← changeTrack_each opType acc markRange;
      changeTrack_loop opType acc' rest
  end.

(** [changeTrack(opType, param)]: the value returned and [param.tr] after the
    call; [None] when a call into the host throws. *)
Definition changeTrack (opType : TRACK_COMMAND_TYPE) (param : CommandProps)
  : option (bool * Transaction) :=
  let '(opType, markRanges) := gather opType (ed_state (editor param)) in
  let markRanges := List.filter is_track markRanges in
  if bool_decide (length markRanges = 0%nat) then Some (false, tr param)
  else
    '(_, currentTr) ← changeTrack_loop opType (0, tr param) markRanges;
    Some (true,
          if bool_decide (length (tr_steps currentTr) = 0%nat) then currentTr
          else setMeta currentTr "trackManualChanged" (MBool true)).

(** ** The commands *)

(** What a command leaves behind: the value it returns, the editor and the
    transaction. *)
Definition CommandResult : Type := option (bool * CommandProps).

Definition notify (ed : Editor) : option Editor :=
  thisExtension ← getSelfExt ed;
  Some (if onStatusChange (ext_options thisExtension)
        then mkEditor (ed_state ed) (ed_extensions ed)
                      (ed_statusLog ed ++ [enabled (ext_options thisExtension)])
        else ed).

Definition set_enabled (f : bool → bool) (o : Options) : Options :=
  mkOptions (f (enabled o)) (onStatusChange o) (dataOpUserId o) (dataOpUserNickname o).

Definition setTrackChangeStatus (enabled : bool) (param : CommandProps) : CommandResult :=
  exts ← update_self (set_enabled (λ _, enabled)) (ed_extensions (editor param));
  ed ← notify (mkEditor (ed_state (editor param)) exts (ed_statusLog (editor param)));
  Some (false, mkCommandProps ed (tr param)).

Definition toggleTrackChangeStatus (param : CommandProps) : CommandResult :=
  exts ← update_self (set_enabled negb) (ed_extensions (editor param));
  ed ← notify (mkEditor (ed_state (editor param)) exts (ed_statusLog (editor param)));
  Some (false, mkCommandProps ed (tr param)).

Definition getTrackChangeStatus (param : CommandProps) : CommandResult :=
  thisExtension ← getSelfExt (editor param);
  Some (enabled (ext_options thisExtension), param).

Definition acceptChange (param : CommandProps) : CommandResult :=
  '(_, tr') ← changeTrack TRACK_COMMAND_ACCEPT param;
  Some (false, mkCommandProps (editor param) tr').

Definition acceptAllChanges (param : CommandProps) : CommandResult :=
  '(_, tr') ← changeTrack TRACK_COMMAND_ACCEPT_ALL param;
  Some (false, mkCommandProps (editor param) tr').

Definition rejectChange (param : CommandProps) : CommandResult :=
  '(_, tr') ← changeTrack TRACK_COMMAND_REJECT param;
  Some (false, mkCommandProps (editor param) tr').

Definition rejectAllChanges (param : CommandProps) : CommandResult :=
  '(_, tr') ← changeTrack TRACK_COMMAND_REJECT_ALL param;
  Some (false, mkCommandProps (editor param) tr').

Definition updateOpUserOption (opUserId opUserNickname : string) (param : CommandProps)
  : CommandResult :=
  exts ← update_self
           (λ o, mkOptions (enabled o) (onStatusChange o) (Some opUserId) (Some opUserNickname))
           (ed_extensions (editor param));
  Some (false,
        mkCommandProps (mkEditor (ed_state (editor param)) exts (ed_statusLog (editor param)))
                       (tr param)).

(** [onCreate]: the callback, when there is one, is told the status the
    extension starts with; [this] is the extension. *)
Definition onCreate (this : ExtensionEntry) (ed : Editor) : Editor :=
  if onStatusChange (ext_options this)
  then mkEditor (ed_state ed) (ed_extensions ed)
                (ed_statusLog ed ++ [enabled (ext_options this)])
  else ed.

(** ** The composition handlers *)

(** [compositionstart] *)
Definition compositionstart (g : Globals) : Globals :=
  mkGlobals (composingStatus g) true.

(** [compositionupdate] *)
Definition compositionupdate (g : Globals) : Globals :=
  mkGlobals IME_STATUS_CONTINUE (isStartChineseInput g).

(** [onSelectionUpdate]: of the two handlers of that name in the object
    literal the second one is in effect. *)
Definition onSelectionUpdate (g : Globals) : Globals :=
  mkGlobals IME_STATUS_NORMAL false.

(** ** [appendTransaction]

    The result is [None] when a call into the host throws, [Some None] for
    the [null] that leaves the incoming change as it is, and
    [Some (Some tr)] for a corrective transaction. *)

(** Events the plugin reacts to. *)
Inductive Event :=
| Compositionstart
| Compositionupdate
| SelectionUpdate
| AppendTransaction (transactions : list Transaction) (oldState newState : EditorState).

(** The variant of [src/src/index.ts]. *)
Module Index.

(** The predicate of [transactions.filter]. *)
Definition relevant (tr : Transaction) : bool :=
  if negb (docChanged tr) then false
  else if truthy (getMeta tr "trackManualChanged") then false
  else if truthy (getMeta tr "history$") then false
  else if truthy (getMeta tr "y-sync$") && isChangeOrigin (getMeta tr "y-sync$") then false
  else bool_decide (0 < length (tr_steps tr))%nat.

(** The body of [transaction.steps.forEach]. *)
Definition each_step (options : Options) (now : Z) (transaction : Transaction)
    (acc : Transaction * bool) (index : nat) (step : Step)
  : option (Transaction * bool) :=
  let '(tr, modified) := acc in
  match step with
  | ReplaceStep step_from step_to step_slice =>
      acc1 ←
        (if bool_decide (0 < doc_size step_slice)
         then
           let insertionMark :=
             create MARK_INSERTION (dataOpUserId options) (dataOpUserNickname options)
                    (Some (getMinuteTime now)) in
           let deletionMark := create MARK_DELETION None None None in
           let from := step_from in
           let to := step_from + doc_size step_slice in
           tr1 ← (if enabled options
                  then addMark tr from to insertionMark
                  else removeMark tr from to (mark_type insertionMark));
           tr2 ← removeMark tr1 from to (mark_type deletionMark);
           Some (tr2, true)
         else Some (tr, modified));
      let '(tr, modified) := acc1 in
      if negb (bool_decide (step_from = step_to)) && enabled options
      then
        oldDoc ← tr_docs transaction !! index;
        '(inverted_from, inverted_content) ← invert step_from step_to step_slice oldDoc;
        if bool_decide (0 < doc_size inverted_content)
        then
          let deletionMark :=
            create MARK_DELETION (dataOpUserId options) (dataOpUserNickname options)
                   (Some (getMinuteTime now)) in
          tr1 ← insert tr inverted_from inverted_content;
          tr2 ← addMark tr1 inverted_from (inverted_from + doc_size inverted_content)
                        deletionMark;
          Some (tr2, true)
        else Some (tr, modified)
      else Some (tr, modified)
  | _ => Some acc
  end.

Fixpoint each_steps (options : Options) (now : Z) (transaction : Transaction)
    (acc : Transaction * bool) (index : nat) (steps : list Step)
  : option (Transaction * bool) :=
  match steps with
  | [] => Some acc
  | step :: rest =>
      acc' ← each_step options now transaction acc index step;
      each_steps options now transaction acc' (S index) rest
  end.

Fixpoint each_transaction (options : Options) (now : Z) (acc : Transaction * bool)
    (transactions : list Transaction) : option (Transaction * bool) :=
  match transactions with
  | [] => Some acc
  | transaction :: rest =>
      acc' ← each_steps options now transaction acc 0 (tr_steps transaction);
      each_transaction options now acc' rest
  end.

(** [extensionThis.editor] may be unset; [now] is the clock. *)
Definition appendTransaction (editor : option Editor) (now : Z)
    (transactions : list Transaction) (oldState newState : EditorState)
  : option (option Transaction) :=
  match editor with
  | None => Some None
  | Some editor =>
      thisExtension ← getSelfExt editor;
      let relevantTransactions := List.filter relevant transactions in
      if bool_decide (length relevantTransactions = 0%nat) then Some None
      else
        '(tr, modified) ←
          each_transaction (ext_options thisExtension) now (state_tr newState, false)
                           relevantTransactions;
        if (modified : bool)
        then Some (Some (setMeta tr "trackManualChanged" (MBool true)))
        else Some None
  end.

(** The plugin as a machine: the module-level variables before and after
    an event, and what [appendTransaction] returns. *)
Definition handle (editor : option Editor) (now : Z) (g : Globals) (ev : Event)
  : Globals * option (option Transaction) :=
  match ev with
  | Compositionstart => (compositionstart g, Some None)
  | Compositionupdate => (compositionupdate g, Some None)
  | SelectionUpdate => (onSelectionUpdate g, Some None)
  | AppendTransaction transactions oldState newState =>
      (g, appendTransaction editor now transactions oldState newState)
  end.

End Index.

(** The variant of [src/unnamed/part_000]. *)
Module Part000.

(** [a || b] on an option that may be unset or empty. *)
Definition or_else (a : option string) (b : string) : string :=
  match a with
  | Some s => if bool_decide (s = "") then b else s
  | None => b
  end.

(** The test in the first loop over the transactions. *)
Definition relevant (transaction : Transaction) : bool :=
  docChanged transaction
  && negb (truthy (getMeta transaction "trackManualChanged"))
  && negb (truthy (getMeta transaction "history$"))
  && (negb (truthy (getMeta transaction "y-sync$"))
      || negb (isChangeOrigin (getMeta transaction "y-sync$"))).

Definition hasRelevantChanges (transactions : list Transaction) : bool :=
  existsb relevant transactions.

(** The check on the deleted slice: some node of it carries an insertion
    mark. *)
Definition hasInsertionMark (content : Doc) : bool :=
  existsb (λ node, existsb (λ m, bool_decide (mark_type m = MARK_INSERTION)) (marks node))
          content.

(** The body of the loop over the steps of one transaction. *)
Definition each_step (trackChangeEnabled : bool) (insertionMark deletionMark : Mark)
    (transaction : Transaction) (acc : Transaction * bool) (i : nat) (step : Step)
  : option (Transaction * bool) :=
  let '(tr, modified) := acc in
  match step with
  | ReplaceStep step_from step_to step_slice =>
      let stepMap := getMap step_from step_to step_slice in
      acc1 ←
        (if bool_decide (0 < doc_size step_slice)
         then
           let from := stepMap_map stepMap step_from (-1) in
           let to := from + doc_size step_slice in
           tr1 ← (if trackChangeEnabled then addMark tr from to insertionMark else Some tr);
           Some (tr1, true)
         else Some (tr, modified));
      let '(tr, modified) := acc1 in
      if negb (bool_decide (step_from = step_to)) && trackChangeEnabled
      then
        oldDoc ← tr_docs transaction !! i;
        deletedSlice ← (if in_range oldDoc step_from step_to
                        then Some (slice oldDoc step_from step_to) else None);
        if negb (hasInsertionMark deletedSlice) && bool_decide (0 < doc_size deletedSlice)
        then
          let insertPos := stepMap_map stepMap step_from (-1) in
          tr1 ← insert tr insertPos deletedSlice;
          tr2 ← addMark tr1 insertPos (insertPos + doc_size deletedSlice) deletionMark;
          Some (tr2, true)
        else Some (tr, modified)
      else Some (tr, modified)
  | _ => Some acc
  end.

Fixpoint each_steps (trackChangeEnabled : bool) (insertionMark deletionMark : Mark)
    (transaction : Transaction) (acc : Transaction * bool) (i : nat) (steps : list Step)
  : option (Transaction * bool) :=
  match steps with
  | [] => Some acc
  | step :: rest =>
      acc' ← each_step trackChangeEnabled insertionMark deletionMark transaction acc i step;
      each_steps trackChangeEnabled insertionMark deletionMark transaction acc' (S i) rest
  end.

(** The second loop over the transactions: only the two flags of the
    [continue] are looked at. *)
Fixpoint each_transaction (trackChangeEnabled : bool) (insertionMark deletionMark : Mark)
    (acc : Transaction * bool) (transactions : list Transaction)
  : option (Transaction * bool) :=
  match transactions with
  | [] => Some acc
  | transaction :: rest =>
      if truthy (getMeta transaction "trackManualChanged")
         || truthy (getMeta transaction "history$")
      then each_transaction trackChangeEnabled insertionMark deletionMark acc rest
      else
        acc' ← each_steps trackChangeEnabled insertionMark deletionMark transaction acc 0
                          (tr_steps transaction);
        each_transaction trackChangeEnabled insertionMark deletionMark acc' rest
  end.

Section Host.

(** The answer of the host to [currentSelection.map(tr.mapping)].  The
    source passes the mapping where [Selection.map] takes the document,
    so the selection that comes back, or the exception, is the host's
    business: it is left open here. *)
Variable selection_map : Selection → list Step → option Selection.

(** [options] is [extensionThis.options]; [now] is the clock. *)
Definition appendTransaction (options : Options) (now : Z)
    (transactions : list Transaction) (oldState newState : EditorState)
  : option (option Transaction) :=
  let trackChangeEnabled := enabled options in
  if negb (hasRelevantChanges transactions) then Some None
  else
    let insertionMark :=
      create MARK_INSERTION (Some (or_else (dataOpUserId options) "user"))
             (Some (or_else (dataOpUserNickname options) "User"))
             (Some (getMinuteTime now)) in
    let deletionMark :=
      create MARK_DELETION (Some (or_else (dataOpUserId options) "user"))
             (Some (or_else (dataOpUserNickname options) "User"))
             (Some (getMinuteTime now)) in
    '(tr, modified) ←
      each_transaction trackChangeEnabled insertionMark deletionMark
                       (state_tr newState, false) transactions;
    if (modified : bool)
    then
      let tr := setMeta tr "trackManualChanged" (MBool true) in
      let currentSelection := es_selection newState in
      newSelection ← selection_map currentSelection (tr_steps tr);
      Some (Some (setSelection tr newSelection))
    else Some None.

Definition handle (options : Options) (now : Z) (g : Globals) (ev : Event)
  : Globals * option (option Transaction) :=
  match ev with
  | Compositionstart => (compositionstart g, Some None)
  | Compositionupdate => (compositionupdate g, Some None)
  | SelectionUpdate => (onSelectionUpdate g, Some None)
  | AppendTransaction transactions oldState newState =>
      (g, appendTransaction options now transactions oldState newState)
  end.

End Host.

(** The selection mapped through the steps, which is what the comment in
    the source asks for. *)
Definition map_through (s : Selection) (steps : list Step) : option Selection :=
  Some (mkSelection (mapping_map steps (sel_anchor s)) (mapping_map steps (sel_head s))).

End Part000.

(** * Vocabulary of the statements *)

(** The mark [o] is listed for position [i]. *)
Definition covered (M : list MarkRange) (o : Mark) (i : Z) : Prop :=
  ∃ m, m ∈ M ∧ mr_mark m = o ∧ mr_from m ≤ i < mr_to m.

(** Every stretch lies within [[lo, hi]] and is not empty. *)
Definition within (lo hi : Z) (M : list MarkRange) : Prop :=
  Forall (λ m, lo ≤ mr_from m ∧ mr_from m < mr_to m ∧ mr_to m ≤ hi) M.

(** The stretch [m] covers position [i]. *)
Definition coversb (m : MarkRange) (i : Z) : bool :=
  bool_decide (mr_from m ≤ i) && bool_decide (i < mr_to m).

(** [covered], as a boolean. *)
Definition listed (M : list MarkRange) (o : Mark) (i : Z) : bool :=
  existsb (λ m, coversb m i && bool_decide (mr_mark m = o)) M.

(** What the [RemoveMarkStep] of a stretch does to a document. *)
Definition remove_stretch (d : Doc) (m : MarkRange) : Doc :=
  map_range (set_marks (removeFromSet (mr_mark m))) (mr_from m) (mr_to m) d.

(** [ns] cuts the content [d], which starts at [p], into consecutive pieces
    that are not empty and have one mark set each. *)
Inductive Segs : Z → Doc → list Node → Prop :=
| Segs_nil p : Segs p [] []
| Segs_cons p b r ms ns :
    b ≠ [] →
    Forall (λ c, marks c = ms) b →
    Segs (p + Z.of_nat (length b)) r ns →
    Segs p (b ++ r) (mkNode p (p + Z.of_nat (length b)) ms :: ns).

(** Both track marks taken out of a mark set. *)
Definition strip_marks (ms : list Mark) : list Mark :=
  removeType MARK_DELETION (removeType MARK_INSERTION ms).

(** A character rid of its track marks. *)
Definition strip : Inline → Inline := set_marks strip_marks.

(** The second transaction continues the first one: more steps, the same
    metadata and selection. *)
Definition continues (tr tr' : Transaction) : Prop :=
  tr_meta tr' = tr_meta tr ∧ tr_selection tr' = tr_selection tr
  ∧ ∃ ss, tr_steps tr' = tr_steps tr ++ ss.

(** The test of [is_track], on the mark. *)
Definition is_track_mark (m : Mark) : bool :=
  bool_decide (mark_type m = MARK_DELETION) || bool_decide (mark_type m = MARK_INSERTION).

(** The kind of mark whose content an operation discards. *)
Definition doomed_type (opType : TRACK_COMMAND_TYPE) : string :=
  match opType with
  | TRACK_COMMAND_ACCEPT | TRACK_COMMAND_ACCEPT_ALL => MARK_DELETION
  | TRACK_COMMAND_REJECT | TRACK_COMMAND_REJECT_ALL => MARK_INSERTION
  end.

(** The operation is one of the two the loop knows. *)
Definition single (opType : TRACK_COMMAND_TYPE) : Prop :=
  opType = TRACK_COMMAND_ACCEPT ∨ opType = TRACK_COMMAND_REJECT.

(** The track ranges of a node, as [changeTrack] keeps them. *)
Definition track_ranges (n : Node) : list MarkRange :=
  map (λ m, mkMarkRange m (n_from n) (n_to n)) (List.filter is_track_mark (n_marks n)).

(** A mark set of the host has one mark of a type at most. *)
Definition wf_marks (ms : list Mark) : Prop := NoDup (map mark_type ms).

(** A document of the host: every mark set is one. *)
Definition wf_doc (d : Doc) : Prop := Forall (λ c, wf_marks (marks c)) d.

(** The document after 'accept-all' or 'reject-all': the content that carries
    a mark of the doomed kind is gone, the rest carries no track mark. *)
Definition resolve (opType : TRACK_COMMAND_TYPE) (d : Doc) : Doc :=
  map strip (List.filter (λ c, negb (hasType (doomed_type opType) (marks c))) d).

(** Unmarked text. *)
Definition plain (s : string) : Doc := map (λ a, mkInline a []) (list_ascii_of_string s).

(** Text whose characters all carry the marks [ms]. *)
Definition marked (ms : list Mark) (s : string) : Doc :=
  map (λ a, mkInline a ms) (list_ascii_of_string s).

(** "hello world" with "world" under the mark [m]. *)
Definition hello_world (m : Mark) : Doc := plain "hello " ++ marked [m] "world".

(** The ranges come in ascending order of their start. *)
Definition ascending (l : list MarkRange) : Prop :=
  StronglySorted (λ r1 r2, mr_from r1 ≤ mr_from r2) l.

(** The total length of the ranges of [l] whose content the operation
    deletes. *)
Definition deleted_length (opType : TRACK_COMMAND_TYPE) (l : list MarkRange) : Z :=
  foldr (λ r acc, (if removes_mark opType r then 0 else mr_to r - mr_from r) + acc) 0 l.

(** The commands of C9, with their arguments. *)
Definition commands (enabled : bool) (opUserId opUserNickname : string)
  : list (CommandProps → CommandResult) :=
  [setTrackChangeStatus enabled; toggleTrackChangeStatus; acceptChange; acceptAllChanges;
   rejectChange; rejectAllChanges; updateOpUserOption opUserId opUserNickname].

(** The setting in which a command runs: the extension is registered in the
    editor, the document is one of the host, and the transaction is the one
    of the current state. *)
Definition command_ready (param : CommandProps) : Prop :=
  is_Some (getSelfExt (editor param))
  ∧ wf_doc (es_doc (ed_state (editor param)))
  ∧ tr_doc (tr param) = es_doc (ed_state (editor param)).


(** A transaction carries one of the three flags that exempt it. *)
Definition flagged (transaction : Transaction) : bool :=
  truthy (getMeta transaction "trackManualChanged")
  || truthy (getMeta transaction "history$")
  || isChangeOrigin (getMeta transaction "y-sync$").

(** The document of the corrective transaction, if there is one. *)
Definition doc_of (r : option (option Transaction)) : option (option Doc) :=
  (λ o : option Transaction, tr_doc <$> o) <$> r.

(** Tracking is on, the author is Alice. *)
Definition alice : Options := mkOptions true false (Some "u1") (Some "Alice").

(** An editor in that state with the extension registered and no callback
    call logged. *)
Definition editor_of (options : Options) (state : EditorState) : Editor :=
  mkEditor state [mkExtension "extension" EXTENSION_NAME options] [].

(** The marks Alice's edits get at time 0. *)
Definition alice_insertion : Mark := create MARK_INSERTION (Some "u1") (Some "Alice") (Some 0).
Definition alice_deletion : Mark := create MARK_DELETION (Some "u1") (Some "Alice") (Some 0).

(** "cat", typed by Alice with tracking on and not accepted yet; then "a" is
    deleted: one step that replaces [[1, 2)] by nothing. *)
Definition cat_before : EditorState :=
  mkEditorState (marked [alice_insertion] "cat") (mkSelection 1 2) None.
Definition cat_after : EditorState :=
  mkEditorState (marked [alice_insertion] "ct") (mkSelection 1 1) None.
Definition delete_a : Transaction :=
  mkTr (es_doc cat_after) [ReplaceStep 1 2 []] [es_doc cat_before] ∅ (mkSelection 1 1).

(** A batch of two changes on an empty document: the "b" of a remote peer
    arrives through the collaboration plugin, flagged 'y-sync$' with
    [isChangeOrigin], and another plugin appends an "a" behind it. *)
Definition empty_state : EditorState := mkEditorState [] (mkSelection 0 0) None.

(** Alice types "n" while a composition is going on. *)
Definition n_state : EditorState := mkEditorState (plain "n") (mkSelection 1 1) None.
Definition typed_n : Transaction :=
  mkTr (plain "n") [ReplaceStep 0 0 (plain "n")] [[]] ∅ (mkSelection 1 1).

(** "hello world" after Alice deleted "world" with tracking on. *)
Definition world_deleted : EditorState :=
  mkEditorState (hello_world alice_deletion) (mkSelection 8 8) None.

(** A command called on a state, with the transaction of that state. *)
Definition props_of (state : EditorState) : CommandProps :=
  mkCommandProps (editor_of alice state) (state_tr state).

(** "abXYcdZe" with "XY" and "Z" deleted by Alice. *)
Definition two_stretches : EditorState :=
  mkEditorState (plain "ab" ++ marked [alice_deletion] "XY" ++ plain "cd"
                 ++ marked [alice_deletion] "Z" ++ plain "e")
                (mkSelection 0 0) None.

(** Nothing is tracked in "abc". *)
Definition untracked : EditorState := mkEditorState (plain "abc") (mkSelection 0 3) None.

(** "hello world", plain; then "world" is selected and deleted. *)
Definition hello_before : EditorState :=
  mkEditorState (plain "hello world") (mkSelection 6 11) None.
Definition hello_after : EditorState :=
  mkEditorState (plain "hello ") (mkSelection 6 6) None.
Definition delete_world : Transaction :=
  mkTr (es_doc hello_after) [ReplaceStep 6 11 []] [es_doc hello_before] ∅ (mkSelection 6 6).

(** What the [AddMarkStep] of a stretch does to a document. *)
Definition add_stretch (d : Doc) (m : MarkRange) : Doc :=
  map_range (set_marks (addToSet (mr_mark m))) (mr_from m) (mr_to m) d.

(** The module-level variables after a run of events. *)
Definition run (handle : Globals → Event → Globals * option (option Transaction))
    (g : Globals) (events : list Event) : Globals :=
  foldl (λ g ev, (handle g ev).1) g events.

(** The commands that deal with the options, and a run of them, each on
    what the one before left behind. *)
Inductive OptionCommand :=
| SetStatus (enabled : bool)
| ToggleStatus
| UpdateOpUser (opUserId opUserNickname : string).

Definition option_command (c : OptionCommand) : CommandProps → CommandResult :=
  match c with
  | SetStatus enabled => setTrackChangeStatus enabled
  | ToggleStatus => toggleTrackChangeStatus
  | UpdateOpUser opUserId opUserNickname => updateOpUserOption opUserId opUserNickname
  end.

Fixpoint run_commands (cs : list OptionCommand) (param : CommandProps)
  : option CommandProps :=
  match cs with
  | [] => Some param
  | c :: cs' => r ← option_command c param; run_commands cs' r.2
  end.

(** The status commands of a run. *)
Definition tells (c : OptionCommand) : bool :=
  match c with
  | UpdateOpUser _ _ => false
  | _ => true
  end.

(** The character [c'] is [c] with some of its track marks taken off: the
    same text, of the marks of [c] some, in their order, and all that are
    not track marks. *)
Definition lighter (c' c : Inline) : Prop :=
  chr c' = chr c
  ∧ sublist (marks c') (marks c)
  ∧ List.filter (λ m, negb (is_track_mark m)) (marks c')
    = List.filter (λ m, negb (is_track_mark m)) (marks c).

(** The second document is the first one with some characters taken out and
    some track marks taken off the others. *)
Inductive shrinks : Doc → Doc → Prop :=
| shrinks_nil : shrinks [] []
| shrinks_drop c d d' : shrinks d d' → shrinks (c :: d) d'
| shrinks_keep c c' d d' : lighter c' c → shrinks d d' → shrinks (c :: d) (c' :: d').

(** The character carries no track mark. *)
Definition untracked_char (c : Inline) : Prop :=
  List.filter is_track_mark (marks c) = [].

(** One edit: the transaction [t] has one step, which replaces [Dl] by [sl]
    between [P] and [S], and carries none of the flags that exempt it. *)
Definition edits (t : Transaction) (P Dl sl S : Doc) : Prop :=
  tr_steps t = [ReplaceStep (doc_size P) (doc_size P + doc_size Dl) sl]
  ∧ tr_docs t = [P ++ Dl ++ S]
  ∧ flagged t = false.

(** The marks of the interceptor of index.ts. *)
Definition index_insertion (options : Options) (now : Z) : Mark :=
  create MARK_INSERTION (dataOpUserId options) (dataOpUserNickname options)
         (Some (getMinuteTime now)).
Definition index_deletion (options : Options) (now : Z) : Mark :=
  create MARK_DELETION (dataOpUserId options) (dataOpUserNickname options)
         (Some (getMinuteTime now)).


(** A step that neither inserts nor deletes: a mark step, or a replace step
    of nothing by nothing. *)
Definition inert (s : Step) : bool :=
  match s with
  | ReplaceStep from to sl => bool_decide (from = to) && bool_decide (doc_size sl = 0)
  | _ => true
  end.

(** Alice with a callback installed, and Alice with tracking off. *)
Definition alice_told : Options := mkOptions true true (Some "u1") (Some "Alice").
Definition alice_off : Options := mkOptions false false (Some "u1") (Some "Alice").

(** "hello world", plain; then "world" is replaced by "there". *)
Definition there_after : EditorState :=
  mkEditorState (plain "hello there") (mkSelection 11 11) None.
Definition world_to_there : Transaction :=
  mkTr (es_doc there_after) [ReplaceStep 6 11 (plain "there")] [es_doc hello_before] ∅
       (mkSelection 11 11).

(** "hello world" with "world" deleted by Alice, and "or" selected. *)
Definition or_selected : EditorState :=
  mkEditorState (hello_world alice_deletion) (mkSelection 7 9) None.

(** "abc" set in bold: a change of one mark step. *)
Definition bold : Mark := mkMark "bold" [].
Definition bolded : Transaction :=
  mkTr (marked [bold] "abc") [AddMarkStep 0 3 bold] [plain "abc"] ∅ (mkSelection 0 3).

(** An editor that does not have the extension. *)
Definition bare : CommandProps :=
  mkCommandProps (mkEditor untracked [] []) (state_tr untracked).


(** * Properties *)

(** ** The host model: ranges of a document *)

Lemma map_range_from_length pos f from to d :
  length (map_range_from pos f from to d) = length d.
Proof. revert pos. induction d as [|c d IH]; intros pos; simpl; [done|]. by rewrite IH. Qed.

Lemma map_range_length f from to d : length (map_range f from to d) = length d.
Proof. apply map_range_from_length. Qed.

Lemma map_range_from_lookup pos f from to d (i : nat) :
  map_range_from pos f from to d !! i
  = (λ c, if bool_decide (from ≤ pos + Z.of_nat i) && bool_decide (pos + Z.of_nat i < to)
          then f c else c) <$> d !! i.
Proof.
  revert pos i. induction d as [|c d IH]; intros pos i; simpl; [done|].
  destruct i as [|i]; simpl.
  - by rewrite Z.add_0_r.
  - rewrite IH. by replace (pos + 1 + Z.of_nat i) with (pos + Z.of_nat (S i)) by lia.
Qed.

Lemma map_range_lookup f from to d (i : nat) :
  map_range f from to d !! i
  = (λ c, if bool_decide (from ≤ Z.of_nat i) && bool_decide (Z.of_nat i < to)
          then f c else c) <$> d !! i.
Proof. unfold map_range. by rewrite map_range_from_lookup. Qed.

Lemma map_range_text f from to d :
  (∀ c, chr (f c) = chr c) → text_of (map_range f from to d) = text_of d.
Proof.
  intros Hf. unfold map_range. generalize 0. unfold text_of.
  induction d as [|c d IH]; intros pos; simpl; [done|].
  rewrite IH. f_equal. by destruct (_ && _).
Qed.

Lemma map_range_from_app pos f from to d1 d2 :
  map_range_from pos f from to (d1 ++ d2)
  = map_range_from pos f from to d1
    ++ map_range_from (pos + Z.of_nat (length d1)) f from to d2.
Proof.
  revert pos. induction d1 as [|c d1 IH]; intros pos; simpl.
  - by rewrite Z.add_0_r.
  - rewrite IH. do 3 f_equal. lia.
Qed.

Lemma map_range_from_outside pos f from to d :
  to ≤ pos ∨ pos + Z.of_nat (length d) ≤ from → map_range_from pos f from to d = d.
Proof.
  revert pos. induction d as [|c d IH]; intros pos H; simpl; [done|].
  simpl in H. rewrite IH by lia. f_equal.
  destruct (bool_decide (from ≤ pos)) eqn:E1, (bool_decide (pos < to)) eqn:E2; simpl; try done.
  apply bool_decide_eq_true in E1, E2. lia.
Qed.

Lemma map_range_from_inside pos f from to d :
  from ≤ pos → pos + Z.of_nat (length d) ≤ to → map_range_from pos f from to d = map f d.
Proof.
  revert pos. induction d as [|c d IH]; intros pos H1 H2; simpl; [done|].
  simpl in H2. rewrite IH by lia. f_equal.
  rewrite !bool_decide_eq_true_2; [done | lia | lia].
Qed.

(** A function applied to the middle part of a document. *)
Lemma map_range_middle f (d1 d2 d3 : Doc) :
  map_range f (Z.of_nat (length d1)) (Z.of_nat (length d1 + length d2)) (d1 ++ d2 ++ d3)
  = d1 ++ map f d2 ++ d3.
Proof.
  unfold map_range. rewrite !map_range_from_app.
  rewrite (map_range_from_outside 0) by lia.
  rewrite map_range_from_inside by lia.
  by rewrite map_range_from_outside by lia.
Qed.

(** ** The host model: the stretches of a scan *)

Lemma within_weaken lo hi hi' M : hi ≤ hi' → within lo hi M → within lo hi' M.
Proof. intros Hle H. eapply Forall_impl; [done|]. simpl. intros m. lia. Qed.

Lemma covered_nil o i : ¬ covered [] o i.
Proof. intros (m & Hm & _). by apply elem_of_nil in Hm. Qed.

Lemma covered_cons m M o i :
  covered (m :: M) o i ↔ (mr_mark m = o ∧ mr_from m ≤ i < mr_to m) ∨ covered M o i.
Proof.
  split.
  - intros (m' & Hm & H). apply elem_of_cons in Hm as [->|Hm]; [by left|].
    right. by exists m'.
  - intros [H|(m' & Hm & H)].
    + exists m. split; [left|done].
    + exists m'. split; [by right|done].
Qed.

Lemma covered_app M1 M2 o i : covered (M1 ++ M2) o i ↔ covered M1 o i ∨ covered M2 o i.
Proof.
  induction M1 as [|m M1 IH]; simpl.
  - split; [by right|]. intros [H|H]; [by apply covered_nil in H|done].
  - rewrite !covered_cons, IH. tauto.
Qed.

Lemma extend_last_spec pos style lo M M' :
  extend_last pos (pos + 1) style M = Some M' →
  within lo (pos + 1) M →
  within lo (pos + 1) M'
  ∧ ∀ o i, covered M' o i ↔ covered M o i ∨ (o = style ∧ i = pos).
Proof.
  revert M'. induction M as [|m M IH]; intros M' Hext Hw; simpl in Hext; [done|].
  apply Forall_cons in Hw as [Hm Hw].
  destruct (extend_last pos (pos + 1) style M) as [rest'|] eqn:E.
  - injection Hext as <-. destruct (IH rest' eq_refl Hw) as [Hw' Hc].
    split.
    + apply Forall_cons. split; [lia | done].
    + intros o i. rewrite !covered_cons, Hc. tauto.
  - destruct (bool_decide (mr_to m = pos)) eqn:E1; simpl in Hext; [|done].
    destruct (bool_decide (mr_mark m = style)) eqn:E2; simpl in Hext; [|done].
    apply bool_decide_eq_true in E1, E2. injection Hext as <-.
    split.
    + apply Forall_cons. split; [simpl; lia | done].
    + intros o i. rewrite !covered_cons. simpl. subst style.
      split.
      * intros [[-> Hi]|H]; [|tauto].
        destruct (decide (i = pos)) as [->|Hne]; [tauto|].
        left. left. split; [done | lia].
      * intros [[[-> Hi]|H]|[-> ->]]; [left | tauto | left]; split; try done; lia.
Qed.

Lemma note_style_spec pos style lo M :
  lo ≤ pos →
  within lo (pos + 1) M →
  within lo (pos + 1) (note_style pos M style)
  ∧ ∀ o i, covered (note_style pos M style) o i ↔ covered M o i ∨ (o = style ∧ i = pos).
Proof.
  intros Hlo Hw. unfold note_style.
  destruct (extend_last pos (pos + 1) style M) as [M'|] eqn:E.
  - by eapply extend_last_spec.
  - split.
    + apply Forall_app. split; [done|]. apply Forall_singleton. simpl. lia.
    + intros o i. rewrite covered_app, covered_cons. simpl.
      split.
      * intros [H|[[<- Hi]|H]]; [tauto | right; split; [done|lia] | by apply covered_nil in H].
      * intros [H|[-> ->]]; [tauto|]. right. left. split; [done|lia].
Qed.

Lemma note_styles_spec pos styles lo M :
  lo ≤ pos →
  within lo (pos + 1) M →
  within lo (pos + 1) (foldl (note_style pos) M styles)
  ∧ ∀ o i, covered (foldl (note_style pos) M styles) o i
           ↔ covered M o i ∨ (o ∈ styles ∧ i = pos).
Proof.
  intros Hlo. revert M. induction styles as [|s styles IH]; intros M Hw; simpl.
  - split; [done|]. intros o i. split; [tauto|].
    intros [H|[H _]]; [done|]. by apply elem_of_nil in H.
  - destruct (note_style_spec pos s lo M Hlo Hw) as [Hw' Hc].
    destruct (IH _ Hw') as [Hw'' Hc'].
    split; [done|]. intros o i. rewrite Hc', Hc, elem_of_cons. tauto.
Qed.

Lemma stretches_from_spec pick from to lo d pos M :
  lo ≤ pos →
  within lo pos M →
  within lo (pos + Z.of_nat (length d)) (stretches_from pos pick from to d M)
  ∧ ∀ o i, covered (stretches_from pos pick from to d M) o i
           ↔ covered M o i
             ∨ (from ≤ i < to ∧ pos ≤ i
                ∧ ∃ c, d !! Z.to_nat (i - pos) = Some c ∧ o ∈ pick (marks c)).
Proof.
  revert pos M. induction d as [|c d IH]; intros pos M Hlo Hw; simpl.
  - rewrite Z.add_0_r. split; [done|]. intros o i. split; [tauto|].
    intros [H|(_ & _ & c & Hc & _)]; done.
  - set (M1 := if bool_decide (from ≤ pos) && bool_decide (pos < to)
               then foldl (note_style pos) M (pick (marks c)) else M).
    assert (within lo (pos + 1) M1
            ∧ ∀ o i, covered M1 o i
                     ↔ covered M o i ∨ (from ≤ i < to ∧ i = pos ∧ o ∈ pick (marks c)))
      as [Hw1 Hc1].
    { subst M1. destruct (bool_decide (from ≤ pos)) eqn:E1;
        [destruct (bool_decide (pos < to)) eqn:E2|]; simpl.
      - apply bool_decide_eq_true in E1, E2.
        destruct (note_styles_spec pos (pick (marks c)) lo M Hlo) as [Hw' Hc'].
        { eapply within_weaken; [|done]. lia. }
        split; [done|]. intros o i. rewrite Hc'. split; [|tauto].
        intros [H|[H ->]]; [tauto|]. right. repeat split; try done; lia.
      - apply bool_decide_eq_false in E2.
        split; [eapply within_weaken; [|done]; lia|].
        intros o i. split; [tauto|]. intros [H|(Hi & -> & _)]; [done|lia].
      - apply bool_decide_eq_false in E1.
        split; [eapply within_weaken; [|done]; lia|].
        intros o i. split; [tauto|]. intros [H|(Hi & -> & _)]; [done|lia]. }
    destruct (IH (pos + 1) M1 ltac:(lia) Hw1) as [Hw2 Hc2].
    split.
    + by replace (pos + Z.of_nat (S (length d))) with (pos + 1 + Z.of_nat (length d)) by lia.
    + intros o i. rewrite Hc2, Hc1. split.
      * intros [[H|(Hi & -> & Ho)]|(Hi & Hp & c' & Hc' & Ho)]; [tauto | |].
        -- right. repeat split; try done; try lia. exists c.
           by rewrite Z.sub_diag.
        -- right. repeat split; try done; try lia. exists c'. split; [|done].
           replace (Z.to_nat (i - pos)) with (S (Z.to_nat (i - (pos + 1)))) by lia.
           done.
      * intros [H|(Hi & Hp & c' & Hc' & Ho)]; [tauto|].
        destruct (decide (i = pos)) as [->|Hne].
        -- rewrite Z.sub_diag in Hc'. simpl in Hc'. injection Hc' as <-.
           left. right. done.
        -- right. repeat split; try done; try lia. exists c'. split; [|done].
           replace (Z.to_nat (i - pos)) with (S (Z.to_nat (i - (pos + 1)))) in Hc' by lia.
           done.
Qed.

Lemma listed_covered M o i : listed M o i = true ↔ covered M o i.
Proof.
  unfold listed, covered, coversb. rewrite existsb_exists. split.
  - intros (m & Hin & H). apply andb_true_iff in H as [H1 H3].
    apply andb_true_iff in H1 as [H1 H2].
    apply bool_decide_eq_true in H1, H2, H3.
    exists m. rewrite list_elem_of_In. repeat split; done.
  - intros (m & Hin & H1 & H2 & H3). exists m. rewrite <- list_elem_of_In.
    split; [done|]. rewrite !andb_true_iff, !bool_decide_eq_true. done.
Qed.

Lemma filter_filter {A} (p q : A → bool) (l : list A) :
  List.filter p (List.filter q l) = List.filter (λ x, q x && p x) l.
Proof.
  induction l as [|x l IH]; simpl; [done|].
  destruct (q x); simpl; [destruct (p x)|]; by rewrite IH.
Qed.

Lemma filter_ext_elem {A} (p q : A → bool) (l : list A) :
  (∀ x, x ∈ l → p x = q x) → List.filter p l = List.filter q l.
Proof.
  induction l as [|x l IH]; intros H; simpl; [done|].
  rewrite (H x) by left. rewrite IH; [done|]. intros y Hy. apply H. by right.
Qed.

Lemma filter_all {A} (p : A → bool) (l : list A) :
  (∀ x, x ∈ l → p x = true) → List.filter p l = l.
Proof.
  induction l as [|x l IH]; intros H; simpl; [done|].
  rewrite (H x) by left. rewrite IH; [done|]. intros y Hy. apply H. by right.
Qed.

(** Removing the listed marks one stretch after the other. *)
Lemma remove_listed M i (ms : list Mark) :
  foldl (λ ms m, if coversb m i then removeFromSet (mr_mark m) ms else ms) ms M
  = List.filter (λ o, negb (listed M o i)) ms.
Proof.
  revert ms. induction M as [|m M IH]; intros ms; simpl.
  - symmetry. by apply filter_all.
  - rewrite IH. destruct (coversb m i); simpl.
    + unfold removeFromSet. rewrite filter_filter. apply filter_ext_elem.
      intros o _. by destruct (bool_decide (mr_mark m = o)), (listed M o i).
    + done.
Qed.

Lemma remove_stretches_length M d : length (foldl remove_stretch d M) = length d.
Proof.
  revert d. induction M as [|m M IH]; intros d; simpl; [done|].
  rewrite IH. apply map_range_length.
Qed.

Lemma remove_stretches_lookup M d (i : nat) :
  foldl remove_stretch d M !! i
  = set_marks (λ ms, List.filter (λ o, negb (listed M o (Z.of_nat i))) ms) <$> d !! i.
Proof.
  transitivity
    (set_marks (λ ms, foldl (λ ms m, if coversb m (Z.of_nat i)
                                     then removeFromSet (mr_mark m) ms else ms) ms M)
     <$> d !! i).
  - revert d. induction M as [|m M IH]; intros d; simpl.
    + destruct (d !! i) as [[a ms]|]; done.
    + rewrite IH. unfold remove_stretch. rewrite map_range_lookup.
      destruct (d !! i) as [[a ms]|]; simpl; [|done].
      unfold coversb. by destruct (_ && _).
  - destruct (d !! i) as [c|]; simpl; [|done]. unfold set_marks. f_equal. f_equal.
    apply remove_listed.
Qed.

(** The steps of a scan apply, one after the other. *)
Lemma tr_steps_all_remove M tr :
  within 0 (doc_size (tr_doc tr)) M →
  tr_steps_all tr (map (λ m, RemoveMarkStep (mr_from m) (mr_to m) (mr_mark m)) M)
  = Some (mkTr (foldl remove_stretch (tr_doc tr) M)
               (tr_steps tr ++ map (λ m, RemoveMarkStep (mr_from m) (mr_to m) (mr_mark m)) M)
               (tr_docs tr ++ map (λ k, foldl remove_stretch (tr_doc tr) (take k M))
                                  (seq 0 (length M)))
               (tr_meta tr) (tr_selection tr)).
Proof.
  unfold tr_steps_all. revert tr. induction M as [|m M IH]; intros tr Hw; simpl.
  - rewrite !app_nil_r. by destruct tr.
  - apply Forall_cons in Hw as [Hm Hw].
    unfold tr_step at 2. simpl. unfold in_range.
    rewrite !bool_decide_eq_true_2 by lia. simpl.
    rewrite IH; simpl.
    + f_equal. unfold remove_stretch at 2 4. f_equal.
      * by rewrite <- app_assoc.
      * rewrite <- app_assoc. simpl. do 2 f_equal.
        rewrite <- seq_shift, map_map. done.
    + unfold doc_size. rewrite map_range_length. done.
Qed.

Lemma elem_of_ofType type o (ms : list Mark) :
  o ∈ ofType type ms ↔ o ∈ ms ∧ mark_type o = type.
Proof.
  unfold ofType. rewrite !list_elem_of_In, filter_In, bool_decide_eq_true. done.
Qed.

(** What [removeMark] does to the document: the marks of the type are gone
    from the positions of the range, and nothing else changes. *)
Lemma removeMark_spec tr from to type :
  to ≤ doc_size (tr_doc tr) →
  ∃ tr', removeMark tr from to type = Some tr'
         ∧ tr_doc tr' = map_range (set_marks (removeType type)) from to (tr_doc tr)
         ∧ tr_meta tr' = tr_meta tr
         ∧ tr_selection tr' = tr_selection tr
         ∧ ∃ ss, tr_steps tr' = tr_steps tr ++ ss.
Proof.
  intros Hto. unfold removeMark. rewrite bool_decide_eq_true_2 by done.
  destruct (stretches_from_spec (ofType type) from to 0 (tr_doc tr) 0 [])
    as [Hw Hc]; [lia | by apply Forall_nil |].
  fold (stretches (ofType type) from to (tr_doc tr)) in Hw, Hc.
  rewrite tr_steps_all_remove by done.
  eexists. split; [done|]. simpl. repeat split; [|by eexists].
  apply list_eq. intros i.
  rewrite remove_stretches_lookup, map_range_lookup.
  destruct (tr_doc tr !! i) as [[a ms]|] eqn:Ei; simpl; [|done].
  f_equal. unfold set_marks. simpl.
  destruct (bool_decide (from ≤ Z.of_nat i) && bool_decide (Z.of_nat i < to)) eqn:E.
  - f_equal. apply filter_ext_elem. intros o Ho. f_equal.
    apply andb_true_iff in E as [E1 E2]. apply bool_decide_eq_true in E1, E2.
    apply eq_true_iff_eq. rewrite listed_covered, Hc, bool_decide_eq_true.
    split.
    + intros [H|(_ & _ & c & Hc' & Ho')]; [by apply covered_nil in H|].
      apply elem_of_ofType in Ho'. tauto.
    + intros Ht. right. repeat split; [lia..|]. exists (mkInline a ms).
      rewrite Z.sub_0_r, Nat2Z.id. split; [done|]. by apply elem_of_ofType.
  - f_equal. apply filter_all. intros o Ho. apply negb_true_iff.
    apply not_true_is_false. rewrite listed_covered, Hc.
    intros [H|(Hi & _)]; [by apply covered_nil in H|].
    apply andb_false_iff in E as [E|E]; apply bool_decide_eq_false in E; lia.
Qed.

(** What [deleteRange] does to the document. *)
Lemma deleteRange_spec tr from to :
  0 ≤ from → from < to → to ≤ doc_size (tr_doc tr) →
  deleteRange tr from to
  = Some (mkTr (take (Z.to_nat from) (tr_doc tr) ++ drop (Z.to_nat to) (tr_doc tr))
               (tr_steps tr ++ [ReplaceStep from to []])
               (tr_docs tr ++ [tr_doc tr]) (tr_meta tr) (tr_selection tr)).
Proof.
  intros H1 H2 H3. unfold deleteRange, in_doc, tr_step. simpl. unfold in_range.
  rewrite !bool_decide_eq_true_2 by lia. simpl.
  rewrite bool_decide_eq_false_2 by lia. done.
Qed.

(** ** [getMinuteTime] *)

Lemma Math_round_minutes (now : Z) :
  Math_round (inject_Z now / 1000 / 60)%Q = (now + 30000) / 60000.
Proof.
  unfold Math_round, Qfloor, Qplus, Qdiv, Qmult, Qinv, inject_Z. simpl.
  change (Z.pos (1 * 1000 * 60 * 2)) with (2 * 60000).
  change (Z.pos (1 * 1000 * 60)) with 60000.
  replace (now * 1 * 1 * 2 + 1 * 60000) with (2 * (now + 30000)) by lia.
  rewrite Z.div_mul_cancel_l by lia. done.
Qed.

Lemma getMinuteTime_eq (now : Z) : getMinuteTime now = (now + 30000) / 60000 * 60000.
Proof. unfold getMinuteTime. rewrite Math_round_minutes. lia. Qed.

(** C8, as stated, fails: half a minute past the epoch the stamp is the next
    minute, not the minute that began. *)
Lemma getMinuteTime_not_truncation :
  ¬ (∀ t : Z, getMinuteTime t = t - t mod 60000).
Proof. intros H. specialize (H 30000). rewrite getMinuteTime_eq in H. vm_compute in H. done. Qed.

(** C8, amended: the stamp is the whole minute nearest to the current time, a
    time exactly half way between two minutes going to the later one.  It
    is the start of the current minute in the first half of a minute and the
    start of the next minute from 30000 ms on. *)
Theorem getMinuteTime_nearest_minute (t : Z) :
  getMinuteTime t mod 60000 = 0
  ∧ t - 30000 < getMinuteTime t ≤ t + 30000
  ∧ getMinuteTime t
    = if bool_decide (t mod 60000 < 30000) then t - t mod 60000
      else t - t mod 60000 + 60000.
Proof.
  rewrite getMinuteTime_eq.
  pose proof (Z.div_mod (t + 30000) 60000 ltac:(lia)) as Hdm.
  pose proof (Z.mod_pos_bound (t + 30000) 60000 ltac:(lia)) as Hb.
  pose proof (Z.div_mod t 60000 ltac:(lia)) as Hdm'.
  pose proof (Z.mod_pos_bound t 60000 ltac:(lia)) as Hb'.
  split; [by rewrite Z.mod_mul by lia|].
  split; [lia|].
  case_bool_decide as Hlt.
  - assert ((t + 30000) / 60000 = t / 60000) as ->; [|lia].
    symmetry. apply (Z.div_unique _ _ _ (t mod 60000 + 30000)); lia.
  - assert ((t + 30000) / 60000 = t / 60000 + 1) as ->; [|lia].
    symmetry. apply (Z.div_unique _ _ _ (t mod 60000 - 30000)); lia.
Qed.

(** ** Text nodes *)

Lemma nodes_from_Segs p d : Segs p d (nodes_from p d).
Proof.
  revert p. induction d as [|c d IH]; intros p; simpl; [constructor|].
  specialize (IH (p + 1)).
  destruct (nodes_from (p + 1) d) as [|n ns] eqn:E.
  - inversion IH as [? Hd|]; subst.
    apply (Segs_cons p [c] [] (marks c) []); [done | by apply Forall_singleton | constructor].
  - case_decide as Heq.
    + inversion IH as [|? b r ms ns' Hb Hall Hrest]; subst. simpl in Heq.
      replace (p + 1 + Z.of_nat (length b)) with (p + Z.of_nat (length (c :: b)))
        in * by (simpl; lia).
      rewrite Heq. apply (Segs_cons p (c :: b) r ms ns); [done | | done].
      by apply Forall_cons.
    + apply (Segs_cons p [c] d (marks c) (n :: ns)); [done | by apply Forall_singleton | done].
Qed.

Lemma Segs_bounds p d ns :
  Segs p d ns →
  Forall (λ n, p ≤ n_from n ∧ n_from n < n_to n ∧ n_to n ≤ p + Z.of_nat (length d)) ns.
Proof.
  induction 1 as [|p b r ms ns Hb Hall Hrest IH]; [constructor|].
  assert (0 < length b)%nat by (destruct b; [done | simpl; lia]).
  rewrite length_app. apply Forall_cons. split; [simpl; lia|].
  eapply Forall_impl; [done|]. simpl. intros n. lia.
Qed.

(** ** The loop of [changeTrack] *)

Lemma continues_refl tr : continues tr tr.
Proof. repeat split. exists []. by rewrite app_nil_r. Qed.

Lemma continues_trans tr1 tr2 tr3 : continues tr1 tr2 → continues tr2 tr3 → continues tr1 tr3.
Proof.
  intros (Hm & Hs & ss & Hss) (Hm' & Hs' & ss' & Hss').
  repeat split; [congruence..|]. exists (ss ++ ss'). rewrite Hss', Hss. by rewrite app_assoc.
Qed.

Lemma map_range_from_compose pos f g from to d :
  map_range_from pos f from to (map_range_from pos g from to d)
  = map_range_from pos (f ∘ g) from to d.
Proof.
  revert pos. induction d as [|c d IH]; intros pos; simpl; [done|].
  rewrite IH. f_equal. by destruct (_ && _).
Qed.

(** Cases 1 and 4: both kinds of track mark leave the range. *)
Lemma changeTrack_each_strip opType offset currentTr markRange :
  removes_mark opType markRange = true →
  mr_to markRange - offset ≤ doc_size (tr_doc currentTr) →
  ∃ tr', changeTrack_each opType (offset, currentTr) markRange = Some (offset, tr')
         ∧ tr_doc tr' = map_range strip (mr_from markRange - offset)
                                  (mr_to markRange - offset) (tr_doc currentTr)
         ∧ continues currentTr tr'.
Proof.
  intros Hrm Hto. unfold changeTrack_each. rewrite Hrm.
  destruct (removeMark_spec currentTr (mr_from markRange - offset) (mr_to markRange - offset)
              MARK_INSERTION Hto) as (tr1 & -> & Hd1 & Hm1 & Hs1 & Hss1).
  simpl.
  destruct (removeMark_spec tr1 (mr_from markRange - offset) (mr_to markRange - offset)
              MARK_DELETION) as (tr2 & -> & Hd2 & Hm2 & Hs2 & Hss2).
  { rewrite Hd1. unfold doc_size in *. by rewrite map_range_length. }
  simpl. exists tr2. split; [done|]. split.
  - rewrite Hd2, Hd1. apply map_range_from_compose.
  - apply (continues_trans _ tr1); by repeat split.
Qed.

(** Cases 2 and 3: the content of the range leaves the document and the
    offset grows by its length. *)
Lemma changeTrack_each_delete opType offset currentTr markRange :
  removes_mark opType markRange = false →
  0 ≤ mr_from markRange - offset →
  mr_from markRange < mr_to markRange →
  mr_to markRange - offset ≤ doc_size (tr_doc currentTr) →
  ∃ tr', changeTrack_each opType (offset, currentTr) markRange
         = Some (offset + (mr_to markRange - mr_from markRange), tr')
         ∧ tr_doc tr' = take (Z.to_nat (mr_from markRange - offset)) (tr_doc currentTr)
                        ++ drop (Z.to_nat (mr_to markRange - offset)) (tr_doc currentTr)
         ∧ continues currentTr tr'.
Proof.
  intros Hrm H1 H2 H3. unfold changeTrack_each. rewrite Hrm.
  rewrite deleteRange_spec by lia. simpl. eexists. split; [done|]. split; [done|].
  repeat split. by eexists.
Qed.

Lemma changeTrack_loop_app opType acc l1 l2 :
  changeTrack_loop opType acc (l1 ++ l2)
  = acc' ← changeTrack_loop opType acc l1; changeTrack_loop opType acc' l2.
Proof.
  revert acc. induction l1 as [|r l1 IH]; intros acc; simpl; [done|].
  destruct (changeTrack_each opType acc r) as [acc'|]; simpl; [apply IH | done].
Qed.

Lemma filter_track_node_ranges n : List.filter is_track (node_ranges n) = track_ranges n.
Proof.
  unfold node_ranges, track_ranges. induction (n_marks n) as [|m ms IH]; simpl; [done|].
  unfold is_track at 1, is_track_mark at 1. simpl.
  destruct (_ || _); simpl; by rewrite IH.
Qed.

Lemma filter_flat_map {A B} (p : B → bool) (f : A → list B) (l : list A) :
  List.filter p (flat_map f l) = flat_map (λ x, List.filter p (f x)) l.
Proof.
  induction l as [|x l IH]; simpl; [done|]. by rewrite List.filter_app, IH.
Qed.

Lemma filter_track_ranges (ns : list Node) :
  List.filter is_track (flat_map node_ranges ns) = flat_map track_ranges ns.
Proof.
  rewrite filter_flat_map. induction ns as [|n ns IH]; simpl; [done|].
  by rewrite filter_track_node_ranges, IH.
Qed.

Lemma NoDup_map_filter {A B} (f : A → B) (p : A → bool) (l : list A) :
  NoDup (map f l) → NoDup (map f (List.filter p l)).
Proof.
  induction l as [|x l IH]; simpl; [done|].
  intros [Hx Hl]%NoDup_cons. destruct (p x); simpl; [|by apply IH].
  apply NoDup_cons. split; [|by apply IH].
  intros Hin. apply Hx. apply list_elem_of_In in Hin. apply list_elem_of_In.
  apply in_map_iff in Hin as (y & Hy & Hin). apply in_map_iff. exists y.
  split; [done|]. by apply filter_In in Hin as [Hin _].
Qed.

(** Among track marks, what is not stripped has the doomed type. *)
Lemma removes_mark_false opType m from to :
  single opType → is_track_mark m = true →
  removes_mark opType (mkMarkRange m from to) = false →
  mark_type m = doomed_type opType.
Proof.
  unfold removes_mark, is_track_mark. simpl. intros [-> | ->] Ht Hr; simpl in *.
  - destruct (bool_decide (mark_type m = MARK_INSERTION)) eqn:E; [done|].
    rewrite orb_false_r in Ht. by apply bool_decide_eq_true in Ht.
  - destruct (bool_decide (mark_type m = MARK_DELETION)) eqn:E; [done|].
    simpl in Ht. by apply bool_decide_eq_true in Ht.
Qed.

Lemma removes_mark_true opType m from to :
  single opType → removes_mark opType (mkMarkRange m from to) = true →
  mark_type m ≠ doomed_type opType.
Proof.
  unfold removes_mark. simpl. intros [-> | ->] Hr; simpl in *.
  - rewrite orb_false_r in Hr. apply bool_decide_eq_true in Hr. by rewrite Hr.
  - apply bool_decide_eq_true in Hr. by rewrite Hr.
Qed.

(** After the doomed mark of a node, its other track marks are stripped. *)
Lemma rest_is_stripped opType m tms from to :
  single opType →
  Forall (λ m, is_track_mark m = true) (m :: tms) →
  NoDup (map mark_type (m :: tms)) →
  removes_mark opType (mkMarkRange m from to) = false →
  Forall (λ m', removes_mark opType (mkMarkRange m' from to) = true) tms.
Proof.
  intros Hop [Hm Ht]%Forall_cons [Hnin _]%NoDup_cons Hrm.
  apply Forall_forall. intros m' Hin.
  destruct (removes_mark opType (mkMarkRange m' from to)) eqn:E; [done|].
  exfalso. apply Hnin. simpl.
  rewrite (removes_mark_false opType m from to Hop Hm Hrm).
  rewrite <- (removes_mark_false opType m' from to Hop); [|by eapply Forall_forall in Ht|done].
  by apply list_elem_of_fmap_2.
Qed.

(** *** The loop never throws *)

Section total.
Variable opType : TRACK_COMMAND_TYPE.
Hypothesis Hop : single opType.
Variables p e N : Z.
Hypothesis Hpe : 0 ≤ p ∧ p < e ∧ e ≤ N.

Lemma node_total_strip tms :
  Forall (λ m, removes_mark opType (mkMarkRange m p e) = true) tms →
  ∀ off tr, 0 ≤ off → doc_size (tr_doc tr) = N - off →
  ∃ tr', changeTrack_loop opType (off, tr) (map (λ m, mkMarkRange m p e) tms)
         = Some (off, tr')
         ∧ doc_size (tr_doc tr') = N - off ∧ continues tr tr'.
Proof.
  induction tms as [|m tms IH]; intros Hall off tr Hoff Hsize; cbn [map changeTrack_loop].
  - exists tr. split; [done|]. split; [done | apply continues_refl].
  - apply Forall_cons in Hall as [Hm Hall].
    destruct (changeTrack_each_strip opType off tr (mkMarkRange m p e) Hm)
      as (tr1 & -> & Hd & Hc); [simpl; lia|]. simpl.
    destruct (IH Hall off tr1 Hoff) as (tr2 & -> & Hs2 & Hc2).
    { rewrite Hd. unfold doc_size in *. by rewrite map_range_length. }
    exists tr2. split; [done|]. split; [done|]. by eapply continues_trans.
Qed.

Lemma node_total tms :
  Forall (λ m, is_track_mark m = true) tms →
  NoDup (map mark_type tms) →
  ∀ off tr, 0 ≤ off ∧ off ≤ p → doc_size (tr_doc tr) = N - off →
  ∃ off' tr', changeTrack_loop opType (off, tr) (map (λ m, mkMarkRange m p e) tms)
              = Some (off', tr')
              ∧ 0 ≤ off' ∧ off' ≤ e
              ∧ doc_size (tr_doc tr') = N - off' ∧ continues tr tr'.
Proof.
  induction tms as [|m tms IH]; intros Ht Hnd off tr Hoff Hsize; cbn [map changeTrack_loop].
  - exists off, tr. split_and!; [done|lia..|done|apply continues_refl].
  - destruct (removes_mark opType (mkMarkRange m p e)) eqn:Hrm.
    + destruct (changeTrack_each_strip opType off tr (mkMarkRange m p e) Hrm)
        as (tr1 & -> & Hd & Hc); [simpl; lia|]. simpl.
      apply Forall_cons in Ht as [_ Ht]. apply NoDup_cons in Hnd as [_ Hnd].
      destruct (IH Ht Hnd off tr1 Hoff) as (off' & tr2 & -> & H1 & H2 & H3 & H4).
      { rewrite Hd. unfold doc_size in *. by rewrite map_range_length. }
      exists off', tr2. split_and!; try done. by eapply continues_trans.
    + pose proof (rest_is_stripped opType m tms p e Hop Ht Hnd Hrm) as Hrest.
      destruct (changeTrack_each_delete opType off tr (mkMarkRange m p e) Hrm)
        as (tr1 & -> & Hd & Hc); [simpl; lia..|]. simpl.
      destruct (node_total_strip tms Hrest (off + (e - p)) tr1) as (tr2 & -> & Hs2 & Hc2);
        [lia | |].
      { rewrite Hd. unfold doc_size in *. simpl.
        rewrite length_app, length_take, length_drop. lia. }
      exists (off + (e - p)), tr2. split_and!; [done|lia..|done|by eapply continues_trans].
Qed.
End total.

Lemma wf_doc_app d1 d2 : wf_doc (d1 ++ d2) ↔ wf_doc d1 ∧ wf_doc d2.
Proof. apply Forall_app. Qed.

Lemma uniform_wf b ms :
  b ≠ [] → Forall (λ c, marks c = ms) b → wf_doc b → wf_marks ms.
Proof.
  destruct b as [|c b]; [done|]. intros _ [Hc _]%Forall_cons [Hw _]%Forall_cons.
  by rewrite <- Hc.
Qed.

Lemma track_marks_wf ms :
  wf_marks ms →
  Forall (λ m, is_track_mark m = true) (List.filter is_track_mark ms)
  ∧ NoDup (map mark_type (List.filter is_track_mark ms)).
Proof.
  intros Hw. split; [|by apply NoDup_map_filter].
  apply Forall_forall. intros m Hin. apply list_elem_of_In, filter_In in Hin. tauto.
Qed.

(** Whatever nodes are picked, the loop runs to its end. *)
Lemma loop_total opType (q : Node → bool) N p d ns :
  single opType →
  Segs p d ns → wf_doc d → 0 ≤ p → p + Z.of_nat (length d) ≤ N →
  ∀ off tr, 0 ≤ off ∧ off ≤ p → doc_size (tr_doc tr) = N - off →
  ∃ off' tr', changeTrack_loop opType (off, tr) (flat_map track_ranges (List.filter q ns))
              = Some (off', tr')
              ∧ 0 ≤ off' ∧ doc_size (tr_doc tr') = N - off' ∧ continues tr tr'.
Proof.
  intros Hop HS. induction HS as [p|p b r ms ns Hb Hall Hrest IH];
    intros Hwf Hp HN off tr Hoff Hsize.
  - exists off, tr. split_and!; [done|lia|done|apply continues_refl].
  - apply wf_doc_app in Hwf as [Hwb Hwr]. rewrite length_app in HN.
    assert (0 < length b)%nat by (destruct b; [done | simpl; lia]).
    cbn [List.filter]. destruct (q _).
    + cbn [flat_map]. rewrite changeTrack_loop_app.
      destruct (track_marks_wf ms (uniform_wf b ms Hb Hall Hwb)) as [Ht Hnd].
      destruct (node_total opType Hop p (p + Z.of_nat (length b)) N ltac:(lia) _ Ht Hnd
                  off tr Hoff Hsize) as (off1 & tr1 & H1 & Ho1 & Ho1' & Hs1 & Hc1).
      change (map _ (List.filter is_track_mark ms))
        with (track_ranges (mkNode p (p + Z.of_nat (length b)) ms)) in H1.
      rewrite H1. simpl.
      destruct (IH Hwr ltac:(lia) ltac:(lia) off1 tr1 ltac:(lia) Hs1)
        as (off2 & tr2 & -> & Ho2 & Hs2 & Hc2).
      exists off2, tr2. split_and!; try done. by eapply continues_trans.
    + apply IH; try done; lia.
Qed.

Lemma getMarkRange_nonempty d pos type r :
  getMarkRange d pos type = Some r → r_from r < r_to r.
Proof.
  unfold getMarkRange. destruct (probe d pos); [|done].
  destruct (findType type (marks i)); [|done].
  intros [= <-]. simpl. lia.
Qed.

Lemma getMarksBetween_nodes from to d :
  from ≠ to →
  List.filter is_track (getMarksBetween from to d)
  = flat_map track_ranges
      (List.filter (λ n, bool_decide (n_from n < to) && bool_decide (from < n_to n)) (nodes d)).
Proof.
  intros Hne. unfold getMarksBetween. rewrite bool_decide_eq_false_2 by done.
  apply filter_track_ranges.
Qed.

(** The ranges [changeTrack] works on are the track ranges of some of the
    text nodes, in document order; the operation is 'accept' or 'reject'. *)
Lemma gather_shape opType state :
  single (gather opType state).1
  ∧ ∃ q, List.filter is_track (gather opType state).2
         = flat_map track_ranges (List.filter q (nodes (es_doc state))).
Proof.
  assert (∀ d, [] = flat_map track_ranges (List.filter (λ _, false) (nodes d))) as Hnone.
  { intros d. induction (nodes d); simpl; done. }
  unfold gather.
  destruct (bool_decide (opType = TRACK_COMMAND_ACCEPT) || bool_decide (opType = TRACK_COMMAND_REJECT))
    eqn:Es.
  - assert (single opType) as Hs.
    { apply orb_true_iff in Es as [E|E]; apply bool_decide_eq_true in E; [by left | by right]. }
    destruct (bool_decide (sel_from (es_selection state) = sel_to (es_selection state))) eqn:Ee;
      simpl.
    + split; [done|].
      destruct (if isMarkActive state MARK_INSERTION
                then getMarkRange (es_doc state) (sel_from (es_selection state)) MARK_INSERTION
                else if isMarkActive state MARK_DELETION
                     then getMarkRange (es_doc state) (sel_from (es_selection state))
                                       MARK_DELETION
                     else None) as [r|] eqn:Er.
      * assert (r_from r < r_to r) as Hr.
        { destruct (isMarkActive state MARK_INSERTION);
            [by eapply getMarkRange_nonempty|].
          destruct (isMarkActive state MARK_DELETION); [by eapply getMarkRange_nonempty|done]. }
        eexists. apply getMarksBetween_nodes. lia.
      * eexists. apply Hnone.
    + apply bool_decide_eq_false in Ee.
      assert (bool_decide (opType = TRACK_COMMAND_ACCEPT_ALL)
              || bool_decide (opType = TRACK_COMMAND_REJECT_ALL) = false) as ->.
      { destruct Hs as [-> | ->]; done. }
      simpl. split; [done|]. eexists. by apply getMarksBetween_nodes.
  - simpl.
    destruct (bool_decide (opType = TRACK_COMMAND_ACCEPT_ALL)
              || bool_decide (opType = TRACK_COMMAND_REJECT_ALL)) eqn:Ea.
    + simpl. split; [case_bool_decide; [by left | by right]|].
      destruct (es_doc state) as [|c d] eqn:Ed.
      * exists (λ _, true). done.
      * eexists. apply getMarksBetween_nodes. unfold doc_size. simpl. lia.
    + destruct opType; done.
Qed.

(** [changeTrack] returns, on a document of the host and on the transaction
    of the current state. *)
Lemma changeTrack_total opType param :
  wf_doc (es_doc (ed_state (editor param))) →
  tr_doc (tr param) = es_doc (ed_state (editor param)) →
  ∃ b tr', changeTrack opType param = Some (b, tr').
Proof.
  intros Hwf Hdoc. unfold changeTrack.
  destruct (gather_shape opType (ed_state (editor param))) as [Hs [q Hq]].
  destruct (gather opType (ed_state (editor param))) as [op' ranges]. simpl in Hs, Hq.
  case_bool_decide; [by eexists _, _|].
  destruct (loop_total op' q (doc_size (es_doc (ed_state (editor param)))) 0
              (es_doc (ed_state (editor param))) _ Hs
              (nodes_from_Segs 0 _) Hwf ltac:(lia) ltac:(unfold doc_size; lia)
              0 (tr param) ltac:(lia))
    as (off' & tr' & Hloop & _); [rewrite Hdoc; lia|].
  rewrite Hq. fold (nodes (es_doc (ed_state (editor param)))) in Hloop.
  rewrite Hloop. simpl. by eexists _, _.
Qed.

(** *** What the loop leaves of a whole document *)

Lemma removeType_idem type ms : removeType type (removeType type ms) = removeType type ms.
Proof.
  unfold removeType. rewrite filter_filter. apply filter_ext_elem. intros o _.
  by destruct (bool_decide _).
Qed.

Lemma removeType_comm t1 t2 ms :
  removeType t1 (removeType t2 ms) = removeType t2 (removeType t1 ms).
Proof.
  unfold removeType. rewrite !filter_filter. apply filter_ext_elem. intros o _.
  apply andb_comm.
Qed.

Lemma strip_idem c : strip (strip c) = strip c.
Proof.
  unfold strip, set_marks, strip_marks. simpl. f_equal.
  rewrite (removeType_comm MARK_INSERTION MARK_DELETION (removeType _ _)).
  by rewrite !removeType_idem.
Qed.

Lemma strip_no_track c : List.filter is_track_mark (marks c) = [] → strip c = c.
Proof.
  intros H. destruct c as [a ms]. unfold strip, set_marks, strip_marks, removeType. simpl in *.
  f_equal. rewrite filter_filter. apply filter_all. intros o Ho.
  destruct (is_track_mark o) eqn:E.
  - assert (o ∈ List.filter is_track_mark ms) as Hin
      by (apply list_elem_of_In, filter_In; by rewrite <- list_elem_of_In).
    rewrite H in Hin. by apply elem_of_nil in Hin.
  - unfold is_track_mark in E. apply orb_false_iff in E as [-> ->]. done.
Qed.

Lemma map_range_from_fixed pos f from to (l : Doc) :
  Forall (λ c, f c = c) l → map_range_from pos f from to l = l.
Proof.
  revert pos. induction l as [|c l IH]; intros pos Hl; simpl; [done|].
  apply Forall_cons in Hl as [Hc Hl]. rewrite IH by done. rewrite Hc. by destruct (_ && _).
Qed.

Lemma hasType_filter_track opType ms :
  hasType (doomed_type opType) (List.filter is_track_mark ms)
  = hasType (doomed_type opType) ms.
Proof.
  unfold hasType. induction ms as [|m ms IH]; simpl; [done|].
  destruct (is_track_mark m) eqn:E; simpl; rewrite IH; [done|].
  unfold is_track_mark in E. apply orb_false_iff in E as [E1 E2].
  apply bool_decide_eq_false in E1, E2.
  rewrite bool_decide_eq_false_2; [done|]. destruct opType; simpl; done.
Qed.

Section resolve.
Variable opType : TRACK_COMMAND_TYPE.
Hypothesis Hop : single opType.

(** The node is gone: stripping acts on what precedes it, which carries no
    track mark any more. *)
Lemma node_strip_gone p e tms :
  p ≤ e →
  Forall (λ m, removes_mark opType (mkMarkRange m p e) = true) tms →
  ∀ pre' r tr off,
    tr_doc tr = pre' ++ r → off = e - Z.of_nat (length pre') →
    Forall (λ c, strip c = c) pre' →
    ∃ tr', changeTrack_loop opType (off, tr) (map (λ m, mkMarkRange m p e) tms)
           = Some (off, tr')
           ∧ tr_doc tr' = pre' ++ r ∧ continues tr tr'.
Proof.
  intros Hpe. induction tms as [|m tms IH]; intros Hall pre' r tr off Hdoc Hoff Hfree;
    cbn [map changeTrack_loop].
  - exists tr. split; [done|]. split; [done | apply continues_refl].
  - apply Forall_cons in Hall as [Hm Hall].
    destruct (changeTrack_each_strip opType off tr _ Hm) as (tr1 & -> & Hd & Hc).
    { simpl. rewrite Hdoc. unfold doc_size. rewrite !length_app. lia. }
    simpl in Hd. rewrite Hdoc in Hd. unfold map_range in Hd.
    rewrite map_range_from_app, map_range_from_fixed in Hd by done.
    rewrite map_range_from_outside in Hd by lia. simpl.
    destruct (IH Hall pre' r tr1 off Hd Hoff Hfree) as (tr2 & -> & Hd2 & Hc2).
    exists tr2. split; [done|]. split; [done|]. by eapply continues_trans.
Qed.

(** All the track ranges of one node. *)
Lemma node_resolve p tms :
  Forall (λ m, is_track_mark m = true) tms →
  NoDup (map mark_type tms) →
  ∀ b' pre' r tr off,
    b' ≠ [] → tr_doc tr = pre' ++ b' ++ r → off = p - Z.of_nat (length pre') →
    Forall (λ c, strip c = c) pre' →
    ∃ off' tr', changeTrack_loop opType (off, tr)
                  (map (λ m, mkMarkRange m p (p + Z.of_nat (length b'))) tms)
                = Some (off', tr')
                ∧ continues tr tr'
                ∧ if hasType (doomed_type opType) tms
                  then off' = off + Z.of_nat (length b') ∧ tr_doc tr' = pre' ++ r
                  else off' = off
                       ∧ tr_doc tr'
                         = pre' ++ (match tms with [] => b' | _ => map strip b' end) ++ r.
Proof.
  induction tms as [|m tms IH]; intros Ht Hnd b' pre' r tr off Hb Hdoc Hoff Hfree.
  - exists off, tr. split; [done|]. split; [apply continues_refl | done].
  - assert (0 < length b')%nat as Hlen by (destruct b'; [done | simpl; lia]).
    destruct (removes_mark opType (mkMarkRange m p (p + Z.of_nat (length b')))) eqn:Hrm.
    + pose proof (removes_mark_true _ _ _ _ Hop Hrm) as Hty.
      cbn [map changeTrack_loop].
      destruct (changeTrack_each_strip opType off tr _ Hrm) as (tr1 & -> & Hd & Hc).
      { simpl. rewrite Hdoc. unfold doc_size. rewrite !length_app. lia. }
      simpl in Hd. rewrite Hdoc in Hd.
      replace (p - off) with (Z.of_nat (length pre')) in Hd by lia.
      replace (p + Z.of_nat (length b') - off)
        with (Z.of_nat (length pre' + length b')) in Hd by lia.
      rewrite map_range_middle in Hd. simpl.
      apply Forall_cons in Ht as [_ Ht]. apply NoDup_cons in Hnd as [_ Hnd].
      destruct (IH Ht Hnd (map strip b') pre' r tr1 off) as (off' & tr2 & H2 & Hc2 & Hres);
        [by destruct b' | done..|].
      rewrite length_map in H2, Hres. rewrite H2.
      exists off', tr2. split; [done|]. split; [by eapply continues_trans|].
      unfold hasType in *. cbn [existsb]. rewrite bool_decide_eq_false_2 by done.
      simpl. destruct (existsb _ tms); [done|].
      destruct Hres as [-> ->]. split; [done|]. destruct tms; [done|].
      do 2 f_equal. rewrite map_map. apply map_ext. apply strip_idem.
    + pose proof (rest_is_stripped opType m tms _ _ Hop Ht Hnd Hrm) as Hrest.
      apply Forall_cons in Ht as [Hm Ht].
      pose proof (removes_mark_false _ _ _ _ Hop Hm Hrm) as Hty.
      cbn [map changeTrack_loop].
      destruct (changeTrack_each_delete opType off tr _ Hrm) as (tr1 & -> & Hd & Hc).
      { simpl. lia. }
      { simpl. lia. }
      { simpl. rewrite Hdoc. unfold doc_size. rewrite !length_app. lia. }
      simpl in Hd. rewrite Hdoc in Hd.
      replace (Z.to_nat (p - off)) with (length pre') in Hd by lia.
      replace (Z.to_nat (p + Z.of_nat (length b') - off))
        with (length pre' + length b')%nat in Hd by lia.
      rewrite take_app_length, drop_app_add, drop_app_length in Hd.
      simpl.
      destruct (node_strip_gone p (p + Z.of_nat (length b')) tms ltac:(lia) Hrest
                  pre' r tr1 (off + (p + Z.of_nat (length b') - p)) Hd ltac:(lia) Hfree)
        as (tr2 & -> & Hd2 & Hc2).
      exists (off + (p + Z.of_nat (length b') - p)), tr2.
      split; [done|]. split; [by eapply continues_trans|].
      unfold hasType. cbn [existsb]. rewrite bool_decide_eq_true_2 by done. simpl.
      split; [lia | done].
Qed.
End resolve.

Lemma resolve_app opType d1 d2 : resolve opType (d1 ++ d2) = resolve opType d1 ++ resolve opType d2.
Proof. unfold resolve. by rewrite List.filter_app, map_app. Qed.

Lemma resolve_uniform opType b ms :
  Forall (λ c, marks c = ms) b →
  resolve opType b = if hasType (doomed_type opType) ms then [] else map strip b.
Proof.
  intros Hall. unfold resolve. induction Hall as [|c b Hc Hall IH]; simpl.
  - by destruct (hasType _ _).
  - rewrite Hc. destruct (hasType (doomed_type opType) ms); simpl; by rewrite IH.
Qed.

Lemma resolve_fixed opType d : Forall (λ c, strip c = c) (resolve opType d).
Proof.
  unfold resolve. apply Forall_forall. intros c Hin.
  apply list_elem_of_fmap in Hin as (c' & -> & _).
  apply strip_idem.
Qed.

(** The loop over the track ranges of all the nodes of a content. *)
Lemma loop_resolve opType p d ns :
  single opType →
  Segs p d ns → wf_doc d →
  ∀ pre' tr off,
    tr_doc tr = pre' ++ d → off = p - Z.of_nat (length pre') →
    Forall (λ c, strip c = c) pre' →
    ∃ off' tr', changeTrack_loop opType (off, tr) (flat_map track_ranges ns) = Some (off', tr')
                ∧ tr_doc tr' = pre' ++ resolve opType d
                ∧ off' = p + Z.of_nat (length d)
                         - Z.of_nat (length (pre' ++ resolve opType d))
                ∧ continues tr tr'.
Proof.
  intros Hop HS. induction HS as [p|p b r ms ns Hb Hall Hrest IH];
    intros Hwf pre' tr off Hdoc Hoff Hfree.
  - exists off, tr. split; [done|]. split; [done|].
    split; [simpl; rewrite app_nil_r; lia | apply continues_refl].
  - apply wf_doc_app in Hwf as [Hwb Hwr].
    destruct (track_marks_wf ms (uniform_wf b ms Hb Hall Hwb)) as [Ht Hnd].
    cbn [flat_map]. rewrite changeTrack_loop_app.
    destruct (node_resolve opType Hop p _ Ht Hnd b pre' r tr off Hb Hdoc Hoff Hfree)
      as (off1 & tr1 & H1 & Hc1 & Hres).
    change (map _ (List.filter is_track_mark ms))
      with (track_ranges (mkNode p (p + Z.of_nat (length b)) ms)) in H1.
    rewrite H1. simpl.
    rewrite hasType_filter_track in Hres.
    rewrite resolve_app, (resolve_uniform opType b ms Hall).
    destruct (hasType (doomed_type opType) ms).
    + destruct Hres as [-> Hd1].
      destruct (IH Hwr pre' tr1 (off + Z.of_nat (length b)) Hd1 ltac:(lia) Hfree)
        as (off2 & tr2 & -> & Hd2 & Ho2 & Hc2).
      exists off2, tr2. split; [done|]. split; [done|].
      split; [rewrite length_app; simpl; lia | by eapply continues_trans].
    + destruct Hres as [-> Hd1].
      assert (match List.filter is_track_mark ms with [] => b | _ => map strip b end
              = map strip b) as Hb'.
      { destruct (List.filter is_track_mark ms) eqn:E; [|done].
        symmetry. erewrite map_ext_in; [apply map_id|].
        intros c Hin. simpl. apply strip_no_track.
        eapply Forall_forall in Hall; [|by apply list_elem_of_In]. by rewrite Hall. }
      rewrite Hb', app_assoc in Hd1.
      destruct (IH Hwr (pre' ++ map strip b) tr1 off Hd1) as (off2 & tr2 & -> & Hd2 & Ho2 & Hc2).
      { rewrite length_app, length_map. lia. }
      { apply Forall_app. split; [done|]. apply Forall_forall. intros c Hin.
        apply list_elem_of_fmap in Hin as (c' & -> & _). apply strip_idem. }
      exists off2, tr2. split; [done|]. rewrite <- !app_assoc in *.
      split; [done|]. split; [rewrite !length_app in *; lia | by eapply continues_trans].
Qed.

Lemma no_track_ranges p d ns :
  Segs p d ns → flat_map track_ranges ns = [] →
  Forall (λ c, List.filter is_track_mark (marks c) = []) d.
Proof.
  induction 1 as [|p b r ms ns Hb Hall Hrest IH]; [constructor|].
  cbn [flat_map]. intros [Hn Hns]%app_eq_nil. apply Forall_app. split; [|by apply IH].
  unfold track_ranges in Hn. simpl in Hn. apply map_eq_nil in Hn.
  eapply Forall_impl; [done|]. simpl. by intros c ->.
Qed.

(** 'accept-all' and 'reject-all' on a whole document.  The value returned
    is [false] only when no character carries a track mark. *)
Lemma changeTrack_all opType param :
  opType = TRACK_COMMAND_ACCEPT_ALL ∨ opType = TRACK_COMMAND_REJECT_ALL →
  wf_doc (es_doc (ed_state (editor param))) →
  tr_doc (tr param) = es_doc (ed_state (editor param)) →
  ∃ b tr', changeTrack opType param = Some (b, tr')
           ∧ tr_doc tr' = resolve opType (es_doc (ed_state (editor param)))
           ∧ (b = false →
              Forall (λ c, List.filter is_track_mark (marks c) = [])
                     (es_doc (ed_state (editor param)))).
Proof.
  intros Hall Hwf Hdoc. set (d := es_doc (ed_state (editor param))) in *.
  set (op' := if bool_decide (opType = TRACK_COMMAND_ACCEPT_ALL)
              then TRACK_COMMAND_ACCEPT else TRACK_COMMAND_REJECT).
  assert (single op') as Hs by (subst op'; case_bool_decide; [by left | by right]).
  assert (resolve op' d = resolve opType d) as Hres.
  { subst op'. by destruct Hall as [-> | ->]. }
  assert (gather opType (ed_state (editor param)) = (op', getMarksBetween 0 (doc_size d) d))
    as Hg.
  { unfold gather. by destruct Hall as [-> | ->]. }
  assert (List.filter is_track (getMarksBetween 0 (doc_size d) d)
          = flat_map track_ranges (nodes d)) as Hr.
  { destruct d as [|c d'] eqn:Ed; [done|].
    rewrite getMarksBetween_nodes by (unfold doc_size; simpl; lia).
    f_equal. apply filter_all. intros n Hin.
    pose proof (Segs_bounds 0 _ _ (nodes_from_Segs 0 (c :: d'))) as Hbd.
    eapply Forall_forall in Hbd; [|done].
    rewrite andb_true_iff, !bool_decide_eq_true. unfold doc_size. lia. }
  destruct (loop_resolve op' 0 d (nodes d) Hs (nodes_from_Segs 0 d) Hwf [] (tr param) 0
              Hdoc ltac:(done) ltac:(done)) as (off' & tr' & Hloop & Hd' & _ & _).
  unfold changeTrack. rewrite Hg, Hr. simpl in Hd'. rewrite Hres in Hd'.
  case_bool_decide as Hlen.
  - exists false, (tr param). apply length_zero_iff_nil in Hlen. split; [done|]. split.
    + rewrite Hlen in Hloop. simpl in Hloop. by injection Hloop as _ <-.
    + intros _. by eapply no_track_ranges; [apply nodes_from_Segs|].
  - rewrite Hloop. simpl. eexists _, _. split; [done|]. split; [by case_bool_decide|done].
Qed.

(** With no track range gathered the transaction comes back untouched. *)
Lemma changeTrack_no_ranges opType param :
  List.filter is_track (gather opType (ed_state (editor param))).2 = [] →
  changeTrack opType param = Some (false, tr param).
Proof.
  intros H. unfold changeTrack.
  destruct (gather opType (ed_state (editor param))) as [op' ranges].
  simpl in H. by rewrite H.
Qed.

(** ** C1: the four-way policy *)

Lemma strip_text c : chr (strip c) = chr c.
Proof. done. Qed.

Lemma wf_marked ms s : wf_marks ms → wf_doc (marked ms s).
Proof.
  intros Hw. unfold wf_doc, marked. apply Forall_forall. intros c Hin.
  apply list_elem_of_fmap in Hin as (a & -> & _). done.
Qed.

Lemma wf_plain s : wf_doc (plain s).
Proof. apply (wf_marked [] s). constructor. Qed.

Lemma wf_marks_singleton m : wf_marks [m].
Proof. apply NoDup_singleton. Qed.

Lemma hasType_removeType type ms : hasType type (removeType type ms) = false.
Proof.
  unfold hasType, removeType. induction ms as [|m ms IH]; simpl; [done|].
  destruct (bool_decide (mark_type m = type)) eqn:E; simpl; [done|]. by rewrite E.
Qed.

Lemma hasType_removeType_other type type' ms :
  hasType type ms = false → hasType type (removeType type' ms) = false.
Proof.
  unfold hasType, removeType. induction ms as [|m ms IH]; simpl; [done|].
  intros [H1 H2]%orb_false_iff. destruct (negb _); simpl; [rewrite H1|]; by apply IH.
Qed.

Lemma strip_marks_no_track type ms :
  type = MARK_INSERTION ∨ type = MARK_DELETION → hasType type (strip_marks ms) = false.
Proof.
  unfold strip_marks. intros [-> | ->].
  - apply hasType_removeType_other, hasType_removeType.
  - apply hasType_removeType.
Qed.

(** C1.  Every track range is dealt with by the table of the four cases:
    'accept' on an insertion and 'reject' on a deletion take both track marks
    off the range and keep its text; 'accept' on a deletion and 'reject' on
    an insertion delete the content of the range, and the running offset
    grows by its length.  The range is addressed at its recorded ends less
    the running offset.  On "hello world" with "world" under a deletion mark,
    'accept-all' leaves "hello " and 'reject-all' leaves "hello world"
    without marks. *)
Theorem changeTrack_four_way_policy opType markRange offset currentTr :
  single opType →
  is_track markRange = true →
  mr_to markRange - offset ≤ doc_size (tr_doc currentTr) →
  let kind := mark_type (mr_mark markRange) in
  let a := mr_from markRange - offset in
  let b := mr_to markRange - offset in
  let keeps :=
    ∃ tr', changeTrack_each opType (offset, currentTr) markRange = Some (offset, tr')
           ∧ tr_doc tr' = map_range strip a b (tr_doc currentTr)
           ∧ text_of (tr_doc tr') = text_of (tr_doc currentTr) in
  let discards :=
    0 ≤ a → a < b →
    ∃ tr', changeTrack_each opType (offset, currentTr) markRange
           = Some (offset + (mr_to markRange - mr_from markRange), tr')
           ∧ tr_doc tr' = take (Z.to_nat a) (tr_doc currentTr)
                          ++ drop (Z.to_nat b) (tr_doc currentTr) in
  (opType = TRACK_COMMAND_ACCEPT → kind = MARK_INSERTION → keeps)
  ∧ (opType = TRACK_COMMAND_ACCEPT → kind = MARK_DELETION → discards)
  ∧ (opType = TRACK_COMMAND_REJECT → kind = MARK_INSERTION → discards)
  ∧ (opType = TRACK_COMMAND_REJECT → kind = MARK_DELETION → keeps)
  ∧ ∀ m param,
      mark_type m = MARK_DELETION →
      es_doc (ed_state (editor param)) = hello_world m →
      tr_doc (tr param) = hello_world m →
      (∃ tr', changeTrack TRACK_COMMAND_ACCEPT_ALL param = Some (true, tr')
              ∧ tr_doc tr' = plain "hello ")
      ∧ (∃ tr', changeTrack TRACK_COMMAND_REJECT_ALL param = Some (true, tr')
                ∧ tr_doc tr' = plain "hello world").
Proof.
  intros Hop Htrack Hb kind a b keeps discards.
  assert (removes_mark opType markRange = true → keeps) as Hkeep.
  { intros Hrm. destruct (changeTrack_each_strip opType offset currentTr markRange Hrm Hb)
      as (tr' & H1 & H2 & _).
    exists tr'. split; [done|]. split; [done|]. rewrite H2. by apply map_range_text. }
  assert (removes_mark opType markRange = false → discards) as Hdisc.
  { intros Hrm Ha Hlt.
    destruct (changeTrack_each_delete opType offset currentTr markRange Hrm Ha
                ltac:(subst a b; lia) Hb) as (tr' & H1 & H2 & _).
    by exists tr'. }
  split_and!.
  - intros -> Hk. apply Hkeep. unfold removes_mark. fold kind. rewrite Hk. done.
  - intros -> Hk. apply Hdisc. unfold removes_mark. fold kind. rewrite Hk. done.
  - intros -> Hk. apply Hdisc. unfold removes_mark. fold kind. rewrite Hk. done.
  - intros -> Hk. apply Hkeep. unfold removes_mark. fold kind. rewrite Hk. done.
  - intros m param Hm Hdoc Htr.
    assert (wf_doc (hello_world m)) as Hwf.
    { apply wf_doc_app. split; [apply wf_plain | apply wf_marked, wf_marks_singleton]. }
    assert (∀ op, op = TRACK_COMMAND_ACCEPT_ALL ∨ op = TRACK_COMMAND_REJECT_ALL →
                  ∃ tr', changeTrack op param = Some (true, tr')
                         ∧ tr_doc tr' = resolve op (hello_world m)) as Hall.
    { intros op Hop'. rewrite <- Hdoc in Hwf, Htr.
      destruct (changeTrack_all op param Hop' Hwf Htr) as (r & tr' & H1 & H2 & H3).
      destruct r; [exists tr'; by rewrite <- Hdoc|].
      specialize (H3 eq_refl). rewrite Hdoc in H3.
      unfold hello_world in H3. apply Forall_app in H3 as [_ H3].
      apply Forall_cons in H3 as [H3 _]. simpl in H3.
      unfold is_track_mark in H3. rewrite Hm in H3. done. }
    split.
    + destruct (Hall TRACK_COMMAND_ACCEPT_ALL ltac:(by left)) as (tr' & H1 & H2).
      exists tr'. split; [done|]. rewrite H2.
      unfold resolve, hello_world, plain, marked, hasType. simpl. by rewrite Hm.
    + destruct (Hall TRACK_COMMAND_REJECT_ALL ltac:(by right)) as (tr' & H1 & H2).
      exists tr'. split; [done|]. rewrite H2.
      unfold resolve, hello_world, plain, marked, hasType. simpl. rewrite Hm. simpl.
      unfold strip, set_marks, strip_marks, removeType. simpl.
      rewrite Hm. simpl. by rewrite Hm.
Qed.

(** ** C2: the running offset *)

Lemma track_ranges_from n : Forall (λ r, mr_from r = n_from n) (track_ranges n).
Proof.
  unfold track_ranges. apply Forall_forall. intros r Hin.
  by apply list_elem_of_fmap in Hin as (m & -> & _).
Qed.

Lemma ascending_nodes (q : Node → bool) p d ns :
  Segs p d ns →
  Forall (λ r, p ≤ mr_from r) (flat_map track_ranges (List.filter q ns))
  ∧ ascending (flat_map track_ranges (List.filter q ns)).
Proof.
  induction 1 as [|p b r ms ns Hb Hall Hrest [IH1 IH2]]; [split; constructor|].
  assert (Forall (λ r, p ≤ mr_from r) (flat_map track_ranges (List.filter q ns))) as Hge.
  { eapply Forall_impl; [done|]. simpl. intros x. lia. }
  cbn [List.filter]. destruct (q _); [|done].
  cbn [flat_map].
  pose proof (track_ranges_from (mkNode p (p + Z.of_nat (length b)) ms)) as Hfrom.
  simpl in Hfrom. split.
  - apply Forall_app. split; [|done]. eapply Forall_impl; [done|]. simpl. intros x. lia.
  - induction Hfrom as [|x l Hx Hl IHl]; simpl; [done|].
    constructor; [done|]. apply Forall_app. split.
    + eapply Forall_impl; [exact Hl|]. simpl. intros y. lia.
    + eapply Forall_impl; [exact Hge|]. simpl. intros y. lia.
Qed.

Lemma loop_offset opType l :
  ∀ offset tr offset' tr',
    changeTrack_loop opType (offset, tr) l = Some (offset', tr') →
    offset' = offset + deleted_length opType l.
Proof.
  induction l as [|r l IH]; intros offset tr offset' tr' H; simpl in *.
  - injection H as <- _. lia.
  - destruct (removes_mark opType r) eqn:Hrm.
    + destruct (removeMark tr _ _ MARK_INSERTION) as [tr1|]; [|done]. simpl in H.
      destruct (removeMark tr1 _ _ MARK_DELETION) as [tr2|]; [|done]. simpl in H.
      apply IH in H. lia.
    + destruct (deleteRange tr _ _) as [tr1|]; [|done]. simpl in H.
      apply IH in H. lia.
Qed.

(** Each range is dealt with at the offset that the ranges before it have
    built up. *)
Lemma loop_split opType l1 r l2 tr res :
  changeTrack_loop opType (0, tr) (l1 ++ r :: l2) = Some res →
  ∃ tr1 acc2,
    changeTrack_loop opType (0, tr) l1 = Some (deleted_length opType l1, tr1)
    ∧ changeTrack_each opType (deleted_length opType l1, tr1) r = Some acc2
    ∧ changeTrack_loop opType acc2 l2 = Some res.
Proof.
  rewrite changeTrack_loop_app. intros H.
  destruct (changeTrack_loop opType (0, tr) l1) as [[off1 tr1]|] eqn:E1; [|done].
  cbn [mbind option_bind changeTrack_loop] in H.
  apply loop_offset in E1 as Hoff. rewrite Z.add_0_l in Hoff. subst off1.
  destruct (changeTrack_each opType (deleted_length opType l1, tr1) r) as [acc2|] eqn:E2;
    [|done].
  cbn [mbind option_bind] in H. by exists tr1, acc2.
Qed.

Lemma filter_none {A} (p : A → bool) (l : list A) :
  Forall (λ x, p x = false) l → List.filter p l = [].
Proof. induction 1 as [|x l Hx Hl IH]; simpl; [done|]. by rewrite Hx. Qed.

Lemma filter_keep {A} (p : A → bool) (l : list A) :
  Forall (λ x, p x = true) l → List.filter p l = l.
Proof. intros H. apply filter_all. intros x Hx. by eapply Forall_forall in H. Qed.

(** C2.  The ranges are dealt with in ascending document order, each one at
    its recorded ends less the total length of the ranges deleted before it
    in the same call.  So, on a document with two stretches of deleted text
    [D1] and [D2], 'accept-all' removes exactly the two stretches: what is
    left is the rest of the document in its order, rid of its track marks,
    and the size has gone down by the two lengths. *)
Theorem changeTrack_offset_correctness (A D1 B D2 C : Doc) (param : CommandProps) :
  let d := A ++ D1 ++ B ++ D2 ++ C in
  wf_doc d →
  Forall (λ c, hasType MARK_DELETION (marks c) = false) (A ++ B ++ C) →
  Forall (λ c, hasType MARK_DELETION (marks c) = true) (D1 ++ D2) →
  D1 ≠ [] → D2 ≠ [] →
  es_doc (ed_state (editor param)) = d →
  tr_doc (tr param) = d →
  (∃ tr', changeTrack TRACK_COMMAND_ACCEPT_ALL param = Some (true, tr')
          ∧ tr_doc tr' = map strip (A ++ B ++ C)
          ∧ text_of (tr_doc tr') = text_of A ++ text_of B ++ text_of C
          ∧ doc_size (tr_doc tr') = doc_size d - doc_size D1 - doc_size D2)
  ∧ (∀ opType state, ascending (List.filter is_track (gather opType state).2))
  ∧ (∀ opType l1 r l2 tr res,
       changeTrack_loop opType (0, tr) (l1 ++ r :: l2) = Some res →
       ∃ tr1 acc2,
         changeTrack_loop opType (0, tr) l1 = Some (deleted_length opType l1, tr1)
         ∧ changeTrack_each opType (deleted_length opType l1, tr1) r = Some acc2
         ∧ changeTrack_loop opType acc2 l2 = Some res).
Proof.
  intros d Hwf Hkeep Hdel HD1 HD2 Hdoc Htr. split_and!.
  - rewrite <- Hdoc in Hwf, Htr.
    destruct (changeTrack_all TRACK_COMMAND_ACCEPT_ALL param ltac:(by left) Hwf Htr)
      as (b & tr' & H1 & H2 & H3).
    rewrite Hdoc in H2, H3.
    assert (b = true) as ->.
    { destruct b; [done|]. specialize (H3 eq_refl). subst d.
      apply Forall_app in H3 as [_ H3]. apply Forall_app in H3 as [H3 _].
      apply Forall_app in Hdel as [Hdel _].
      destruct D1 as [|c D1]; [done|].
      apply Forall_cons in H3 as [H3 _]. apply Forall_cons in Hdel as [Hc _].
      pose proof (hasType_filter_track TRACK_COMMAND_ACCEPT (marks c)) as Hf.
      rewrite H3 in Hf. simpl in Hf. rewrite Hc in Hf. done. }
    assert (resolve TRACK_COMMAND_ACCEPT_ALL d = map strip (A ++ B ++ C)) as Hres.
    { apply Forall_app in Hkeep as [HA Hkeep]. apply Forall_app in Hkeep as [HB HC].
      apply Forall_app in Hdel as [Hd1 Hd2].
      subst d. unfold resolve. rewrite !List.filter_app. simpl.
      rewrite (filter_keep _ A), (filter_keep _ B), (filter_keep _ C),
        (filter_none _ D1), (filter_none _ D2); [done|..];
        (eapply Forall_impl; [eassumption|]); simpl; by intros c ->. }
    exists tr'. rewrite H2, Hres. split_and!; [done..| |].
    + unfold text_of. rewrite map_map, !map_app. done.
    + subst d. unfold doc_size. rewrite length_map, !length_app. lia.
  - intros opType state. destruct (gather_shape opType state) as [_ [q ->]].
    apply (ascending_nodes q 0 (es_doc state)). apply nodes_from_Segs.
  - intros opType l1 r l2 tr0 res. apply loop_split.
Qed.

(** ** C5: nothing to do *)

Lemma no_track_no_ranges (q : Node → bool) p d ns :
  Segs p d ns →
  Forall (λ c, List.filter is_track_mark (marks c) = []) d →
  flat_map track_ranges (List.filter q ns) = [].
Proof.
  induction 1 as [|p b r ms ns Hb Hall Hrest IH]; [done|].
  intros [Hfb Hfr]%Forall_app. cbn [List.filter]. destruct (q _); [|by apply IH].
  cbn [flat_map]. rewrite IH by done. rewrite app_nil_r.
  unfold track_ranges. simpl. destruct b as [|c b]; [done|].
  apply Forall_cons in Hall as [<- _]. apply Forall_cons in Hfb as [-> _]. done.
Qed.

(** C5.  When the scope holds no range of an insertion or deletion mark,
    [changeTrack] returns [false] and hands the transaction back as it was:
    no step, no metadata, the same document; it does not throw.  This is so
    for every operation and selection on a document without track marks. *)
Theorem changeTrack_noop opType param :
  (List.filter is_track (gather opType (ed_state (editor param))).2 = [] →
   changeTrack opType param = Some (false, tr param))
  ∧ (Forall (λ c, List.filter is_track_mark (marks c) = [])
            (es_doc (ed_state (editor param))) →
     changeTrack opType param = Some (false, tr param)).
Proof.
  split; [apply changeTrack_no_ranges|].
  intros Hfree. apply changeTrack_no_ranges.
  destruct (gather_shape opType (ed_state (editor param))) as [_ [q ->]].
  eapply no_track_no_ranges; [apply nodes_from_Segs | done].
Qed.

(** ** C10: both mark types leave a stripped range *)

(** C10.  In the two cases that strip a mark, the same pass calls
    [removeMark] for the insertion type and for the deletion type on the
    range: afterwards no position of the range carries a mark of either
    type, whatever it carried before, and the text has not changed.  After
    'accept-all' or 'reject-all' no character of the document carries a
    track mark of either type. *)
Theorem strip_removes_both_types opType markRange offset currentTr :
  removes_mark opType markRange = true →
  mr_to markRange - offset ≤ doc_size (tr_doc currentTr) →
  (∃ tr1 tr',
     removeMark currentTr (mr_from markRange - offset) (mr_to markRange - offset)
                MARK_INSERTION = Some tr1
     ∧ removeMark tr1 (mr_from markRange - offset) (mr_to markRange - offset)
                  MARK_DELETION = Some tr'
     ∧ changeTrack_each opType (offset, currentTr) markRange = Some (offset, tr')
     ∧ text_of (tr_doc tr') = text_of (tr_doc currentTr)
     ∧ ∀ (i : nat) c,
         mr_from markRange - offset ≤ Z.of_nat i < mr_to markRange - offset →
         tr_doc tr' !! i = Some c →
         hasType MARK_INSERTION (marks c) = false ∧ hasType MARK_DELETION (marks c) = false)
  ∧ ∀ op param,
      op = TRACK_COMMAND_ACCEPT_ALL ∨ op = TRACK_COMMAND_REJECT_ALL →
      wf_doc (es_doc (ed_state (editor param))) →
      tr_doc (tr param) = es_doc (ed_state (editor param)) →
      ∃ b tr', changeTrack op param = Some (b, tr')
               ∧ Forall (λ c, hasType MARK_INSERTION (marks c) = false
                              ∧ hasType MARK_DELETION (marks c) = false) (tr_doc tr').
Proof.
  intros Hrm Hto. split.
  - destruct (changeTrack_each_strip opType offset currentTr markRange Hrm Hto)
      as (tr' & Heach & Hd & _).
    unfold changeTrack_each in Heach. rewrite Hrm in Heach.
    destruct (removeMark currentTr _ _ MARK_INSERTION) as [tr1|] eqn:E1; [|done].
    simpl in Heach.
    destruct (removeMark tr1 _ _ MARK_DELETION) as [tr2|] eqn:E2; [|done].
    simpl in Heach. injection Heach as <-.
    exists tr1, tr2. split_and!; [done..| | |].
    + unfold changeTrack_each. rewrite Hrm, E1. simpl. by rewrite E2.
    + rewrite Hd. by apply map_range_text.
    + intros i c Hi Hc. rewrite Hd, map_range_lookup in Hc.
      destruct (tr_doc currentTr !! i) as [c0|]; [|done]. simpl in Hc.
      rewrite !bool_decide_eq_true_2 in Hc by lia. simpl in Hc. injection Hc as <-.
      split; apply strip_marks_no_track; [by left | by right].
  - intros op param Hop Hwf Htr.
    destruct (changeTrack_all op param Hop Hwf Htr) as (b & tr' & H1 & H2 & _).
    exists b, tr'. split; [done|]. rewrite H2. unfold resolve.
    apply Forall_forall. intros c Hin. apply list_elem_of_fmap in Hin as (c' & -> & _).
    split; apply strip_marks_no_track; [by left | by right].
Qed.

(** ** C9: the value the commands return *)

Lemma update_self_Some f exts :
  is_Some (List.find is_self exts) →
  ∃ exts', update_self f exts = Some exts' ∧ is_Some (List.find is_self exts').
Proof.
  induction exts as [|item exts IH]; simpl; [by intros [? ?]|].
  destruct (is_self item) eqn:E.
  - intros _. eexists. split; [done|]. simpl.
    unfold is_self in *. simpl. by rewrite E.
  - intros H. destruct (IH H) as (exts' & -> & H'). simpl. eexists. split; [done|].
    simpl. by rewrite E.
Qed.

(** C9.  Each of the seven commands returns [false]: whenever it returns,
    the value is [false], and in the setting of a command it does return. *)
Theorem commands_return_false flag opUserId opUserNickname cmd param :
  cmd ∈ commands flag opUserId opUserNickname →
  (∀ r, cmd param = Some r → r.1 = false)
  ∧ (command_ready param → ∃ param', cmd param = Some (false, param')).
Proof.
  intros Hcmd. split.
  - intros [b param'] Hr. unfold commands in Hcmd.
    repeat (apply elem_of_cons in Hcmd as [-> | Hcmd]); [..|by apply elem_of_nil in Hcmd];
      unfold setTrackChangeStatus, toggleTrackChangeStatus, acceptChange, acceptAllChanges,
        rejectChange, rejectAllChanges, updateOpUserOption in Hr;
      repeat match type of Hr with
             | context [update_self ?f ?e] => destruct (update_self f e); simpl in Hr
             | context [notify ?e] => destruct (notify e); simpl in Hr
             | context [changeTrack ?o ?p] => destruct (changeTrack o p) as [[? ?]|]; simpl in Hr
             end;
      try done; by injection Hr as <- _.
  - intros (Hreg & Hwf & Htr). unfold commands in Hcmd.
    repeat (apply elem_of_cons in Hcmd as [-> | Hcmd]); [..|by apply elem_of_nil in Hcmd].
    + unfold setTrackChangeStatus.
      destruct (update_self_Some (set_enabled (λ _, flag)) _ Hreg)
        as (exts' & -> & [item Hitem]).
      simpl. unfold notify, getSelfExt. simpl. rewrite Hitem. simpl. by eexists.
    + unfold toggleTrackChangeStatus.
      destruct (update_self_Some (set_enabled negb) _ Hreg) as (exts' & -> & [item Hitem]).
      simpl. unfold notify, getSelfExt. simpl. rewrite Hitem. simpl. by eexists.
    + unfold acceptChange.
      destruct (changeTrack_total TRACK_COMMAND_ACCEPT param Hwf Htr) as (b & tr' & ->).
      simpl. by eexists.
    + unfold acceptAllChanges.
      destruct (changeTrack_total TRACK_COMMAND_ACCEPT_ALL param Hwf Htr) as (b & tr' & ->).
      simpl. by eexists.
    + unfold rejectChange.
      destruct (changeTrack_total TRACK_COMMAND_REJECT param Hwf Htr) as (b & tr' & ->).
      simpl. by eexists.
    + unfold rejectAllChanges.
      destruct (changeTrack_total TRACK_COMMAND_REJECT_ALL param Hwf Htr) as (b & tr' & ->).
      simpl. by eexists.
    + unfold updateOpUserOption.
      destruct (update_self_Some
                  (λ o, mkOptions (enabled o) (onStatusChange o) (Some opUserId)
                                  (Some opUserNickname)) _ Hreg) as (exts' & -> & _).
      simpl. by eexists.
Qed.

(** ** C6: a collapsed selection *)





Lemma hasType_elem type ms m : m ∈ ms → mark_type m = type → hasType type ms = true.
Proof.
  intros Hin Ht. unfold hasType. apply existsb_exists. exists m.
  rewrite <- list_elem_of_In, bool_decide_eq_true. done.
Qed.


(** The characters of a text node have the marks of the node. *)
Lemma Segs_uniform p d ns n :
  Segs p d ns → n ∈ ns →
  p ≤ n_from n ∧ n_from n < n_to n ∧ n_to n ≤ p + Z.of_nat (length d)
  ∧ ∀ (i : nat) c, n_from n ≤ p + Z.of_nat i < n_to n → d !! i = Some c →
                   marks c = n_marks n.
Proof.
  induction 1 as [|p b r ms ns Hb Hall Hrest IH]; [by intros ?%elem_of_nil|].
  assert (0 < length b)%nat by (destruct b; [done | simpl; lia]).
  rewrite length_app. intros [->|Hin]%elem_of_cons; cbn [n_from n_to n_marks].
  - split_and!; [lia..|]. intros i c Hi Hc. unfold Doc in *.
    rewrite lookup_app_l in Hc by lia.
    eapply Forall_forall in Hall; [done|]. by eapply list_elem_of_lookup_2.
  - destruct (IH Hin) as (H1 & H2 & H3 & H4). split_and!; [lia..|].
    intros i c Hi Hc. unfold Doc in *. rewrite lookup_app_r in Hc by lia.
    apply (H4 (i - length b)%nat c); [lia | done].
Qed.



(** ** The interceptor: which transactions it looks at *)

Lemma isChangeOrigin_truthy v : isChangeOrigin v = true → truthy v = true.
Proof. destruct v as [[b|b]|]; simpl; done. Qed.

Lemma index_relevant_flagged transaction :
  flagged transaction = true → Index.relevant transaction = false.
Proof.
  unfold flagged, Index.relevant. intros H.
  destruct (docChanged transaction); [|done]. simpl.
  destruct (truthy (getMeta transaction "trackManualChanged")); [done|].
  destruct (truthy (getMeta transaction "history$")); [done|].
  simpl in H. by rewrite (isChangeOrigin_truthy _ H), H.
Qed.

Lemma part000_relevant_flagged transaction :
  flagged transaction = true → Part000.relevant transaction = false.
Proof.
  unfold flagged, Part000.relevant. intros H.
  destruct (docChanged transaction); [|done]. simpl.
  destruct (truthy (getMeta transaction "trackManualChanged")); [done|].
  destruct (truthy (getMeta transaction "history$")); [done|].
  simpl in H. by rewrite (isChangeOrigin_truthy _ H), H.
Qed.

(** Self-suppression, variant of index.ts: when every incoming transaction is
    flagged, there is no corrective change. *)
Lemma index_all_flagged_null ed now transactions oldState newState :
  is_Some (getSelfExt ed) →
  Forall (λ t, flagged t = true) transactions →
  Index.appendTransaction (Some ed) now transactions oldState newState = Some None.
Proof.
  intros [item Hitem] Hall. unfold Index.appendTransaction. rewrite Hitem. simpl.
  rewrite filter_none; [done|].
  eapply Forall_impl; [done|]. apply index_relevant_flagged.
Qed.

(** Self-suppression, variant of part_000. *)
Lemma part000_all_flagged_null selection_map options now transactions oldState newState :
  Forall (λ t, flagged t = true) transactions →
  Part000.appendTransaction selection_map options now transactions oldState newState
  = Some None.
Proof.
  intros Hall. unfold Part000.appendTransaction, Part000.hasRelevantChanges.
  assert (existsb Part000.relevant transactions = false) as ->; [|done].
  induction Hall as [|t ts Ht Hts IH]; simpl; [done|].
  by rewrite (part000_relevant_flagged t Ht), IH.
Qed.

(** In index.ts a flagged transaction is dropped from the batch before any
    step is looked at. *)
Lemma index_ignores_flagged editor now transactions oldState newState :
  Index.appendTransaction editor now transactions oldState newState
  = Index.appendTransaction editor now
      (List.filter (λ t, negb (flagged t)) transactions) oldState newState.
Proof.
  unfold Index.appendTransaction. destruct editor as [ed|]; [|done].
  destruct (getSelfExt ed) as [item|]; [|done]. simpl.
  assert (List.filter Index.relevant (List.filter (λ t, negb (flagged t)) transactions)
          = List.filter Index.relevant transactions) as ->; [|done].
  rewrite filter_filter. apply filter_ext_elem. intros t _.
  destruct (flagged t) eqn:E; simpl; [|done].
  symmetry. by apply index_relevant_flagged.
Qed.

(** Every corrective transaction carries the flag. *)
Lemma index_emitted_flagged editor now transactions oldState newState tr :
  Index.appendTransaction editor now transactions oldState newState = Some (Some tr) →
  flagged tr = true.
Proof.
  unfold Index.appendTransaction. destruct editor as [ed|]; [|done].
  destruct (getSelfExt ed) as [item|]; [|done]. simpl.
  case_bool_decide; [done|].
  destruct (Index.each_transaction _ _ _ _) as [[tr' modified]|]; [|done]. simpl.
  destruct modified; [|done]. intros [= <-].
  unfold flagged, getMeta, setMeta. simpl. by rewrite lookup_insert_eq.
Qed.

Lemma part000_emitted_flagged selection_map options now transactions oldState newState tr :
  Part000.appendTransaction selection_map options now transactions oldState newState
  = Some (Some tr) →
  flagged tr = true.
Proof.
  unfold Part000.appendTransaction. destruct (negb _); [done|].
  destruct (Part000.each_transaction _ _ _ _ _) as [[tr' modified]|]; [|done]. simpl.
  destruct modified; [|done].
  destruct (selection_map _ _) as [sel|]; [|done]. simpl. intros [= <-].
  unfold flagged, getMeta, setSelection, setMeta. simpl. by rewrite lookup_insert_eq.
Qed.

(** The transaction of an accept or reject that did something carries the
    flag as soon as it holds a step. *)
Lemma changeTrack_flagged opType param tr' :
  changeTrack opType param = Some (true, tr') →
  tr_steps tr' ≠ [] →
  flagged tr' = true.
Proof.
  unfold changeTrack. destruct (gather _ _) as [op' ranges].
  case_bool_decide; [done|].
  destruct (changeTrack_loop _ _ _) as [[off currentTr]|]; [|done]. simpl.
  intros [= <-] Hsteps. case_bool_decide as Hlen.
  - apply length_zero_iff_nil in Hlen. done.
  - unfold flagged, getMeta, setMeta. simpl. by rewrite lookup_insert_eq.
Qed.

(** ** The interceptor on concrete changes *)

(** C3 fails in index.ts.  Deleting the "a" of an insertion of "cat" that was
    never accepted gives a corrective transaction: the "a" is put back and
    carries a deletion mark on top of its insertion mark.  The variant of
    part_000 looks for the insertion mark and lets the removal stand. *)
Theorem index_remarks_deleted_insertion :
  doc_of (Index.appendTransaction (Some (editor_of alice cat_after)) 0 [delete_a]
            cat_before cat_after)
  = Some (Some [mkInline "c" [alice_insertion];
                mkInline "a" [alice_insertion; alice_deletion];
                mkInline "t" [alice_insertion]])
  ∧ ∀ selection_map,
      Part000.appendTransaction selection_map alice 0 [delete_a] cat_before cat_after
      = Some None.
Proof. split; [by vm_compute | intros selection_map; by vm_compute]. Qed.

(** Deleting plain text with tracking on: both variants put "world" back
    under Alice's deletion mark. *)
Lemma deleted_world_is_marked :
  doc_of (Index.appendTransaction (Some (editor_of alice hello_after)) 0 [delete_world]
            hello_before hello_after)
  = Some (Some (hello_world alice_deletion))
  ∧ doc_of (Part000.appendTransaction Part000.map_through alice 0 [delete_world]
              hello_before hello_after)
    = Some (Some (hello_world alice_deletion)).
Proof. split; by vm_compute. Qed.

(** In part_000 a deletion step over content with an insertion mark changes
    nothing in the corrective transaction. *)
Lemma part000_lets_inserted_text_go insertionMark deletionMark transaction acc i from to oldDoc :
  tr_docs transaction !! i = Some oldDoc →
  in_range oldDoc from to = true →
  Part000.hasInsertionMark (slice oldDoc from to) = true →
  Part000.each_step true insertionMark deletionMark transaction acc i (ReplaceStep from to [])
  = Some acc.
Proof.
  intros Hdoc Hin Hins. unfold Part000.each_step. destruct acc as [tr0 modified].
  simpl. rewrite Hdoc. simpl. rewrite Hin. simpl. rewrite Hins. simpl.
  by destruct (bool_decide (from = to)).
Qed.


(** C7 fails in both variants.  After [compositionstart] and
    [compositionupdate] the status is [IME_STATUS_CONTINUE], and the
    interceptor still marks the partial input: nothing in [appendTransaction]
    reads the status.  The status [IME_STATUS_START] is never assigned. *)
Theorem composition_is_not_consulted :
  let g := compositionupdate (compositionstart initial_globals) in
  composingStatus g = IME_STATUS_CONTINUE
  ∧ doc_of (Index.handle (Some (editor_of alice n_state)) 0 g
            (AppendTransaction [typed_n] empty_state n_state)).2
    = Some (Some [mkInline "n" [alice_insertion]])
  ∧ (∀ selection_map,
       (Part000.handle selection_map alice 0 g
          (AppendTransaction [typed_n] empty_state n_state)).2 ≠ Some None)
  ∧ (∀ g' editor now transactions oldState newState,
       (Index.handle editor now g' (AppendTransaction transactions oldState newState)).2
       = Index.appendTransaction editor now transactions oldState newState)
  ∧ (∀ g' selection_map options now transactions oldState newState,
       (Part000.handle selection_map options now g'
          (AppendTransaction transactions oldState newState)).2
       = Part000.appendTransaction selection_map options now transactions oldState newState).
Proof.
  intros g. split_and!; [done | by vm_compute | | done..].
  intros selection_map. simpl. unfold Part000.appendTransaction.
  change (negb (Part000.hasRelevantChanges [typed_n])) with false.
  cbv iota.
  destruct (Part000.each_transaction _ _ _ _ _) as [[tr0 modified]|] eqn:E; [|done].
  vm_compute in E. injection E as <- <-. simpl.
  by destruct (selection_map _ _).
Qed.

(** ** The theorems at concrete inputs *)

(** 'accept' on the deletion range of "world" deletes it. *)
Lemma changeTrack_four_way_policy_witness :
  ∃ tr', changeTrack_each TRACK_COMMAND_ACCEPT (0, state_tr world_deleted)
                          (mkMarkRange alice_deletion 6 11) = Some (5, tr')
         ∧ tr_doc tr' = plain "hello ".
Proof.
  destruct (changeTrack_four_way_policy TRACK_COMMAND_ACCEPT
              (mkMarkRange alice_deletion 6 11) 0 (state_tr world_deleted))
    as (_ & H & _).
  - left. reflexivity.
  - reflexivity.
  - vm_compute. discriminate.
  - destruct (H eq_refl eq_refl) as (tr' & H1 & H2).
    + simpl. lia.
    + simpl. lia.
    + exists tr'. split; [exact H1 | rewrite H2; reflexivity].
Defined.

(** 'accept-all' on "abXYcdZe" with "XY" and "Z" deleted. *)
Lemma changeTrack_offset_correctness_witness :
  ∃ tr', changeTrack TRACK_COMMAND_ACCEPT_ALL (props_of two_stretches) = Some (true, tr')
         ∧ text_of (tr_doc tr') = list_ascii_of_string "abcde"
         ∧ doc_size (tr_doc tr') = 8 - 2 - 1.
Proof.
  destruct (changeTrack_offset_correctness (plain "ab") (marked [alice_deletion] "XY")
              (plain "cd") (marked [alice_deletion] "Z") (plain "e")
              (props_of two_stretches)) as ((tr' & H1 & _ & H3 & H4) & _).
  - repeat (apply wf_doc_app; split);
      first [apply wf_plain | apply wf_marked, wf_marks_singleton].
  - repeat constructor.
  - repeat constructor.
  - discriminate.
  - discriminate.
  - reflexivity.
  - reflexivity.
  - exists tr'. split; [exact H1 | split; [exact H3 | exact H4]].
Defined.

(** Nothing to do on "abc". *)
Lemma changeTrack_noop_witness :
  changeTrack TRACK_COMMAND_ACCEPT (props_of untracked) = Some (false, state_tr untracked)
  ∧ changeTrack TRACK_COMMAND_REJECT_ALL (props_of untracked)
    = Some (false, state_tr untracked).
Proof.
  split.
  - apply (proj1 (changeTrack_noop TRACK_COMMAND_ACCEPT (props_of untracked))). reflexivity.
  - apply (proj2 (changeTrack_noop TRACK_COMMAND_REJECT_ALL (props_of untracked))).
    repeat constructor.
Defined.


Lemma commands_return_false_witness :
  ∃ param', acceptAllChanges (props_of world_deleted) = Some (false, param').
Proof.
  destruct (commands_return_false true "u2" "Bob" acceptAllChanges (props_of world_deleted))
    as [_ H].
  - do 3 (apply elem_of_cons; right). apply elem_of_cons. left. reflexivity.
  - apply H. split; [|split].
    + eexists. reflexivity.
    + apply wf_doc_app. split; [apply wf_plain | apply wf_marked, wf_marks_singleton].
    + reflexivity.
Defined.

Lemma strip_removes_both_types_witness :
  ∃ tr', changeTrack_each TRACK_COMMAND_REJECT (0, state_tr world_deleted)
                          (mkMarkRange alice_deletion 6 11) = Some (0, tr')
         ∧ text_of (tr_doc tr') = list_ascii_of_string "hello world".
Proof.
  destruct (strip_removes_both_types TRACK_COMMAND_REJECT (mkMarkRange alice_deletion 6 11)
              0 (state_tr world_deleted)) as ((tr1 & tr' & _ & _ & H1 & H2 & _) & _).
  - reflexivity.
  - vm_compute. discriminate.
  - exists tr'. split; [exact H1 | rewrite H2; reflexivity].
Defined.

(** * Further properties *)

(** ** The host model: [addMark] and [insert] *)

Lemma elem_of_addToSet_go m set :
  m ∈ addToSet_go m set false.
Proof.
  induction set as [|other rest IH]; simpl; [by left|].
  destruct (bool_decide (mark_type m = mark_type other)); [done|].
  destruct (rank (mark_type m) <? rank (mark_type other))%nat; simpl; [by left | by right].
Qed.

Lemma elem_of_addToSet m set : m ∈ addToSet m set.
Proof.
  unfold addToSet, isInSet. case_bool_decide; [done | apply elem_of_addToSet_go].
Qed.

Lemma addToSet_idem m set : addToSet m (addToSet m set) = addToSet m set.
Proof.
  unfold addToSet at 1, isInSet. by rewrite bool_decide_eq_true_2 by apply elem_of_addToSet.
Qed.

(** The marks of the type of [m] play no part in the loop of [addToSet]. *)
Lemma addToSet_go_removeType m set placed :
  addToSet_go m (removeType (mark_type m) set) placed = addToSet_go m set placed.
Proof.
  revert placed. induction set as [|other rest IH]; intros placed; simpl; [done|].
  destruct (bool_decide (mark_type other = mark_type m)) eqn:E; simpl.
  - apply bool_decide_eq_true in E. rewrite bool_decide_eq_true_2 by done. apply IH.
  - apply bool_decide_eq_false in E. rewrite bool_decide_eq_false_2 by done.
    destruct (negb placed && _); by rewrite IH.
Qed.

(** What the loop of [addToSet] keeps of the set: the marks of other types. *)
Lemma elem_of_addToSet_go_old m set placed o :
  o ∈ set → (o ∈ addToSet_go m set placed ↔ mark_type o ≠ mark_type m ∨ (o = m ∧ placed = false)).
Proof.
  revert placed. induction set as [|other rest IH]; intros placed Ho; [by apply elem_of_nil in Ho|].
  assert (∀ placed', o ∈ addToSet_go m rest placed' →
                     mark_type o ≠ mark_type m ∨ (o = m ∧ placed' = false)) as Hrest.
  { intros placed'. clear IH Ho. revert placed'.
    induction rest as [|x rest IH]; intros placed'; simpl.
    - destruct placed'; [by intros ?%elem_of_nil|]. intros ->%list_elem_of_singleton. by right.
    - destruct (bool_decide (mark_type m = mark_type x)) eqn:E; [apply IH|].
      apply bool_decide_eq_false in E.
      destruct (negb placed' && _) eqn:E'.
      + apply andb_true_iff in E' as [E' _]. apply negb_true_iff in E'. subst placed'.
        intros [->|[->|H]%elem_of_cons]%elem_of_cons; [by right | left; congruence|].
        destruct (IH true H) as [?|[_ ?]]; [by left | done].
      + intros [->|H]%elem_of_cons; [left; congruence | by apply IH]. }
  simpl. destruct (bool_decide (mark_type m = mark_type other)) eqn:E.
  - apply bool_decide_eq_true in E.
    apply elem_of_cons in Ho as [->|Ho]; [|by apply IH].
    split; [apply Hrest|]. intros [H|[-> ->]]; [congruence|]. apply elem_of_addToSet_go.
  - apply bool_decide_eq_false in E.
    destruct (negb placed && _) eqn:E'.
    + apply andb_true_iff in E' as [E' _]. apply negb_true_iff in E'. subst placed.
      rewrite !elem_of_cons. split.
      * intros [->|[->|H]]; [by right | left; congruence|].
        destruct (Hrest true H) as [?|[_ ?]]; [by left | done].
      * intros [H|[-> _]]; [|by left].
        apply elem_of_cons in Ho as [->|Ho]; [tauto|].
        right. right. apply IH; [done | by left].
    + rewrite elem_of_cons. split.
      * intros [->|H]; [left; congruence | by apply Hrest].
      * intros H. apply elem_of_cons in Ho as [->|Ho]; [by left|].
        right. by apply IH.
Qed.

(** With the new mark absent, [addToSet] drops the marks of its type. *)
Lemma dropped_absent m set :
  m ∉ set → dropped m set = ofType (mark_type m) set.
Proof.
  intros Hm. unfold dropped, ofType.
  assert (addToSet m set = addToSet_go m set false) as Ha.
  { unfold addToSet, isInSet. by rewrite bool_decide_eq_false_2. }
  unfold isInSet at 1. rewrite bool_decide_eq_false_2 by done.
  apply filter_ext_elem. intros o Ho. unfold isInSet. rewrite Ha.
  destruct (bool_decide (mark_type o = mark_type m)) eqn:E.
  - apply bool_decide_eq_true in E. apply negb_true_iff, bool_decide_eq_false.
    rewrite (elem_of_addToSet_go_old m set false o Ho). intros [H|[-> _]]; done.
  - apply bool_decide_eq_false in E. apply negb_false_iff, bool_decide_eq_true.
    apply (elem_of_addToSet_go_old m set false o Ho). by left.
Qed.

Lemma tr_steps_all_None ss : foldl (λ acc s, tr' ← acc; tr_step tr' s) None ss = None.
Proof. induction ss as [|s ss IH]; simpl; done. Qed.

Lemma tr_steps_all_app tr ss1 ss2 :
  tr_steps_all tr (ss1 ++ ss2) = tr1 ← tr_steps_all tr ss1; tr_steps_all tr1 ss2.
Proof.
  unfold tr_steps_all. rewrite foldl_app.
  destruct (foldl _ (Some tr) ss1) as [tr1|]; simpl; [done | apply tr_steps_all_None].
Qed.

Lemma add_stretches_length M d : length (foldl add_stretch d M) = length d.
Proof.
  revert d. induction M as [|m M IH]; intros d; simpl; [done|].
  rewrite IH. apply map_range_length.
Qed.

(** The [AddMarkStep]s of a scan apply, one after the other. *)
Lemma tr_steps_all_add M tr :
  within 0 (doc_size (tr_doc tr)) M →
  ∃ tr', tr_steps_all tr (map (λ m, AddMarkStep (mr_from m) (mr_to m) (mr_mark m)) M)
         = Some tr'
         ∧ tr_doc tr' = foldl add_stretch (tr_doc tr) M
         ∧ continues tr tr'.
Proof.
  unfold tr_steps_all. revert tr. induction M as [|m M IH]; intros tr Hw; simpl.
  - exists tr. split; [done|]. split; [done | apply continues_refl].
  - apply Forall_cons in Hw as [Hm Hw].
    unfold tr_step at 2. simpl. unfold in_range.
    rewrite !bool_decide_eq_true_2 by lia. simpl.
    edestruct (IH (mkTr (add_stretch (tr_doc tr) m)
                        (tr_steps tr ++ [AddMarkStep (mr_from m) (mr_to m) (mr_mark m)])
                        (tr_docs tr ++ [tr_doc tr]) (tr_meta tr) (tr_selection tr)))
      as (tr' & H1 & H2 & H3).
    { simpl. unfold doc_size, add_stretch. by rewrite map_range_length. }
    exists tr'. split; [exact H1|]. split; [exact H2|].
    eapply continues_trans; [|exact H3]. repeat split. by eexists.
Qed.

Lemma add_stretches_lookup mark M d (i : nat) :
  Forall (λ m, mr_mark m = mark) M →
  foldl add_stretch d M !! i
  = set_marks (λ ms, if listed M mark (Z.of_nat i) then addToSet mark ms else ms) <$> d !! i.
Proof.
  intros Hall. revert d. induction Hall as [|m M Hm Hall IH]; intros d; simpl.
  - destruct (d !! i) as [[a ms]|]; done.
  - rewrite IH. unfold add_stretch. rewrite map_range_lookup.
    destruct (d !! i) as [[a ms]|]; simpl; [|done]. f_equal.
    unfold coversb. rewrite Hm, (bool_decide_eq_true_2 (mark = mark)) by done.
    rewrite andb_true_r.
    destruct (bool_decide (mr_from m ≤ Z.of_nat i) && bool_decide (Z.of_nat i < mr_to m));
      simpl; [|done].
    unfold set_marks. simpl. f_equal. destruct (listed M mark (Z.of_nat i)); [|done].
    apply addToSet_idem.
Qed.

(** The marks of the stretches of a scan are marks it picked. *)
Lemma stretches_marks pick from to d mark :
  (∀ ms o, o ∈ pick ms → o = mark) →
  Forall (λ m, mr_mark m = mark) (stretches pick from to d).
Proof.
  intros Hpick.
  destruct (stretches_from_spec pick from to 0 d 0 []) as [Hw Hc];
    [lia | by apply Forall_nil |].
  fold (stretches pick from to d) in Hw, Hc.
  apply Forall_forall. intros m Hm.
  assert (covered (stretches pick from to d) (mr_mark m) (mr_from m)) as Hcov.
  { exists m. split; [done|]. split; [done|].
    eapply Forall_forall in Hw; [|done]. lia. }
  apply Hc in Hcov as [H|(_ & _ & c & _ & Ho)]; [by apply covered_nil in H|].
  by eapply Hpick.
Qed.

(** What [addMark] does to the document: the mark is added to the mark set of
    every position of the range, and nothing else changes. *)
Lemma addMark_spec tr from to mark :
  to ≤ doc_size (tr_doc tr) →
  ∃ tr', addMark tr from to mark = Some tr'
         ∧ tr_doc tr' = map_range (set_marks (addToSet mark)) from to (tr_doc tr)
         ∧ continues tr tr'.
Proof.
  intros Hto. unfold addMark. rewrite bool_decide_eq_true_2 by done.
  set (d := tr_doc tr).
  set (pick_add := λ set : list Mark, if isInSet mark set then [] else [mark]).
  destruct (stretches_from_spec (dropped mark) from to 0 d 0 []) as [Hwr Hcr];
    [lia | by apply Forall_nil |].
  destruct (stretches_from_spec pick_add from to 0 d 0 []) as [Hwa Hca];
    [lia | by apply Forall_nil |].
  fold (stretches (dropped mark) from to d) in Hwr, Hcr.
  fold (stretches pick_add from to d) in Hwa, Hca.
  rewrite tr_steps_all_app, tr_steps_all_remove by done. simpl.
  edestruct (tr_steps_all_add (stretches pick_add from to d)) as (tr' & -> & Hd & Hc).
  { simpl. unfold doc_size. rewrite remove_stretches_length. exact Hwa. }
  exists tr'. split; [done|]. split.
  - rewrite Hd. simpl. fold d. apply list_eq. intros i.
    rewrite (add_stretches_lookup mark), remove_stretches_lookup, map_range_lookup.
    2:{ apply stretches_marks. intros ms o. unfold pick_add.
        destruct (isInSet mark ms); [by intros ?%elem_of_nil|].
        by intros ->%list_elem_of_singleton. }
    unfold Doc in *.
    destruct (d !! i) as [[a ms]|] eqn:Ei; simpl; [|done].
    f_equal. unfold set_marks. simpl.
    assert (∀ o, covered (stretches (dropped mark) from to d) o (Z.of_nat i)
                 ↔ (from ≤ Z.of_nat i < to ∧ o ∈ dropped mark ms)) as Hcr'.
    { intros o. rewrite Hcr. split.
      - intros [H|(Hi & _ & c & Hc' & Ho)]; [by apply covered_nil in H|].
        replace (Z.to_nat (Z.of_nat i - 0)) with i in Hc' by lia.
        assert (c = mkInline a ms) as -> by congruence. done.
      - intros [Hi Ho]. right. split_and!; [lia..|]. exists (mkInline a ms).
        replace (Z.to_nat (Z.of_nat i - 0)) with i by lia. done. }
    assert (∀ o, covered (stretches pick_add from to d) o (Z.of_nat i)
                 ↔ (from ≤ Z.of_nat i < to ∧ o ∈ pick_add ms)) as Hca'.
    { intros o. rewrite Hca. split.
      - intros [H|(Hi & _ & c & Hc' & Ho)]; [by apply covered_nil in H|].
        replace (Z.to_nat (Z.of_nat i - 0)) with i in Hc' by lia.
        assert (c = mkInline a ms) as -> by congruence. done.
      - intros [Hi Ho]. right. split_and!; [lia..|]. exists (mkInline a ms).
        replace (Z.to_nat (Z.of_nat i - 0)) with i by lia. done. }
    destruct (bool_decide (from ≤ Z.of_nat i) && bool_decide (Z.of_nat i < to)) eqn:E.
    + apply andb_true_iff in E as [E1 E2]. apply bool_decide_eq_true in E1, E2.
      f_equal. destruct (decide (mark ∈ ms)) as [Hin|Hnin].
      * assert (listed (stretches pick_add from to d) mark (Z.of_nat i) = false) as ->.
        { apply not_true_is_false. rewrite listed_covered, Hca'. unfold pick_add, isInSet.
          rewrite bool_decide_eq_true_2 by done. intros [_ H]. by apply elem_of_nil in H. }
        unfold addToSet, isInSet. rewrite bool_decide_eq_true_2 by done.
        apply filter_all. intros o Ho. apply negb_true_iff, not_true_is_false.
        rewrite listed_covered, Hcr'. unfold dropped, isInSet.
        rewrite bool_decide_eq_true_2 by done. intros [_ H]. by apply elem_of_nil in H.
      * assert (listed (stretches pick_add from to d) mark (Z.of_nat i) = true) as ->.
        { rewrite listed_covered, Hca'. unfold pick_add, isInSet.
          rewrite bool_decide_eq_false_2 by done. split; [lia | by left]. }
        assert (List.filter (λ o, negb (listed (stretches (dropped mark) from to d) o
                                               (Z.of_nat i))) ms
                = removeType (mark_type mark) ms) as ->.
        { unfold removeType. apply filter_ext_elem. intros o Ho. f_equal.
          apply eq_true_iff_eq.
          rewrite listed_covered, Hcr', (dropped_absent _ _ Hnin), elem_of_ofType,
            bool_decide_eq_true. split; [tauto | intros; split; [lia | done]]. }
        assert (mark ∉ removeType (mark_type mark) ms) as Hnin'.
        { unfold removeType. rewrite list_elem_of_In, filter_In, <- list_elem_of_In. tauto. }
        unfold addToSet, isInSet. rewrite !bool_decide_eq_false_2 by done.
        apply addToSet_go_removeType.
    + assert (listed (stretches pick_add from to d) mark (Z.of_nat i) = false) as ->.
      { apply not_true_is_false. rewrite listed_covered, Hca'. intros [Hi _].
        apply andb_false_iff in E as [E|E]; apply bool_decide_eq_false in E; lia. }
      f_equal. apply filter_all. intros o Ho. apply negb_true_iff, not_true_is_false.
      rewrite listed_covered, Hcr'. intros [Hi _].
      apply andb_false_iff in E as [E|E]; apply bool_decide_eq_false in E; lia.
  - eapply continues_trans; [|exact Hc]. repeat split. by eexists.
Qed.

(** What [insert] does to the document. *)
Lemma insert_spec tr pos content :
  0 ≤ pos → pos ≤ doc_size (tr_doc tr) →
  ∃ tr', insert tr pos content = Some tr'
         ∧ tr_doc tr' = take (Z.to_nat pos) (tr_doc tr) ++ content
                        ++ drop (Z.to_nat pos) (tr_doc tr)
         ∧ continues tr tr'.
Proof.
  intros H1 H2. unfold insert. destruct content as [|c content].
  - exists tr. split; [done|]. split; [simpl; by rewrite take_drop | apply continues_refl].
  - unfold tr_step. simpl. unfold in_range. rewrite !bool_decide_eq_true_2 by lia. simpl.
    eexists. split; [done|]. split; [done|]. repeat split. by eexists.
Qed.

(** ** [getMinuteTime] *)

(** X1.  The stamp never runs backwards: a later clock value gets the same
    stamp or a later one. *)
Theorem getMinuteTime_monotone (t1 t2 : Z) :
  t1 ≤ t2 → getMinuteTime t1 ≤ getMinuteTime t2.
Proof.
  intros H. rewrite !getMinuteTime_eq.
  apply Z.mul_le_mono_nonneg_r; [lia|]. apply Z.div_le_mono; lia.
Qed.

(** X2.  A stamp is its own stamp, and all the clock values of the minute
    around a stamp share it. *)
Theorem getMinuteTime_stable (t u : Z) :
  getMinuteTime (getMinuteTime t) = getMinuteTime t
  ∧ (getMinuteTime t - 30000 ≤ u < getMinuteTime t + 30000 →
     getMinuteTime u = getMinuteTime t).
Proof.
  rewrite !getMinuteTime_eq. set (k := (t + 30000) / 60000). split.
  - f_equal. replace (k * 60000 + 30000) with (30000 + k * 60000) by lia.
    rewrite Z.div_add by lia. reflexivity.
  - intros H. f_equal. symmetry. apply (Z.div_unique _ _ _ (u + 30000 - k * 60000)); lia.
Qed.

(** ** The composition handlers *)

Lemma run_app handle g evs1 evs2 :
  run handle g (evs1 ++ evs2) = run handle (run handle g evs1) evs2.
Proof. unfold run. apply foldl_app. Qed.

(** X3.  Of the four composition statuses only two are ever reached, in both
    variants: nothing assigns [IME_STATUS_START] or [IME_STATUS_FINISHED];
    and a selection update puts the two variables back to their first
    values, whatever came before. *)
Theorem composition_status_reachable editor selection_map options now events :
  let g1 := run (Index.handle editor now) initial_globals events in
  let g2 := run (Part000.handle selection_map options now) initial_globals events in
  (composingStatus g1 = IME_STATUS_NORMAL ∨ composingStatus g1 = IME_STATUS_CONTINUE)
  ∧ (composingStatus g2 = IME_STATUS_NORMAL ∨ composingStatus g2 = IME_STATUS_CONTINUE)
  ∧ run (Index.handle editor now) initial_globals (events ++ [SelectionUpdate])
    = initial_globals
  ∧ run (Part000.handle selection_map options now) initial_globals
        (events ++ [SelectionUpdate])
    = initial_globals.
Proof.
  assert (∀ handle,
            (∀ g ev, (composingStatus g = IME_STATUS_NORMAL
                      ∨ composingStatus g = IME_STATUS_CONTINUE) →
                     composingStatus (handle g ev).1 = IME_STATUS_NORMAL
                     ∨ composingStatus (handle g ev).1 = IME_STATUS_CONTINUE) →
            ∀ g, (composingStatus g = IME_STATUS_NORMAL
                  ∨ composingStatus g = IME_STATUS_CONTINUE) →
                 composingStatus (run handle g events) = IME_STATUS_NORMAL
                 ∨ composingStatus (run handle g events) = IME_STATUS_CONTINUE) as Hinv.
  { intros handle Hstep. unfold run.
    induction events as [|ev evs IH]; intros g Hg; simpl; [done|].
    apply IH. by apply Hstep. }
  split_and!.
  - apply Hinv; [|by left]. intros g [| | |] Hg; simpl; auto.
  - apply Hinv; [|by left]. intros g [| | |] Hg; simpl; auto.
  - by rewrite run_app.
  - by rewrite run_app.
Qed.

(** ** The commands on the options *)

Lemma find_self_split exts e :
  List.find is_self exts = Some e →
  ∃ pre post, exts = pre ++ e :: post
              ∧ Forall (λ x, is_self x = false) pre ∧ is_self e = true.
Proof.
  induction exts as [|x exts IH]; simpl; [done|].
  destruct (is_self x) eqn:E.
  - intros [= ->]. exists [], exts. split; [done|]. split; [apply Forall_nil_2 | done].
  - intros H. destruct (IH H) as (pre & post & -> & Hpre & He).
    exists (x :: pre), post. split; [done|]. split; [by apply Forall_cons | done].
Qed.

Lemma find_self_at pre e post :
  Forall (λ x, is_self x = false) pre → is_self e = true →
  List.find is_self (pre ++ e :: post) = Some e.
Proof.
  intros Hpre He. induction Hpre as [|x pre Hx Hpre IH]; simpl.
  - by rewrite He.
  - by rewrite Hx.
Qed.

Lemma update_self_at f pre e post :
  Forall (λ x, is_self x = false) pre → is_self e = true →
  update_self f (pre ++ e :: post)
  = Some (pre ++ mkExtension (ext_type e) (ext_name e) (f (ext_options e)) :: post).
Proof.
  intros Hpre He. induction Hpre as [|x pre Hx Hpre IH]; simpl.
  - by rewrite He.
  - by rewrite Hx, IH.
Qed.

Lemma is_self_options e o :
  is_self (mkExtension (ext_type e) (ext_name e) o) = is_self e.
Proof. done. Qed.

(** What an assignment to an option does to the editor: the entry that
    [getSelfExt] finds, before and after, is the only one that changes. *)
Lemma assign_option f ed e :
  getSelfExt ed = Some e →
  ∃ pre post,
    ed_extensions ed = pre ++ e :: post
    ∧ Forall (λ x, is_self x = false) pre ∧ is_self e = true
    ∧ update_self f (ed_extensions ed)
      = Some (pre ++ mkExtension (ext_type e) (ext_name e) (f (ext_options e)) :: post)
    ∧ ∀ state log,
        getSelfExt (mkEditor state
                      (pre ++ mkExtension (ext_type e) (ext_name e) (f (ext_options e)) :: post)
                      log)
        = Some (mkExtension (ext_type e) (ext_name e) (f (ext_options e))).
Proof.
  intros H. destruct (find_self_split _ _ H) as (pre & post & Hexts & Hpre & He).
  exists pre, post. split_and!; try done.
  - rewrite Hexts. by apply update_self_at.
  - intros state log. unfold getSelfExt. simpl. by apply find_self_at.
Qed.

(** X4.  With the extension registered, [setTrackChangeStatus] stores the
    value that [getTrackChangeStatus] then returns, [toggleTrackChangeStatus]
    stores the opposite of the current one, and a second toggle restores the
    extensions as they were.  Each of the two tells the callback, when there
    is one, the new status once, and leaves the transaction and the editor
    state alone. *)
Theorem status_round_trip flag param e :
  getSelfExt (editor param) = Some e →
  let told v := if onStatusChange (ext_options e)
                then ed_statusLog (editor param) ++ [v]
                else ed_statusLog (editor param) in
  (∃ param', setTrackChangeStatus flag param = Some (false, param')
             ∧ getTrackChangeStatus param' = Some (flag, param')
             ∧ tr param' = tr param
             ∧ ed_state (editor param') = ed_state (editor param)
             ∧ ed_statusLog (editor param') = told flag)
  ∧ (∃ param', toggleTrackChangeStatus param = Some (false, param')
               ∧ getTrackChangeStatus param' = Some (negb (enabled (ext_options e)), param')
               ∧ tr param' = tr param
               ∧ ed_state (editor param') = ed_state (editor param)
               ∧ ed_statusLog (editor param') = told (negb (enabled (ext_options e)))
               ∧ ∃ param'', toggleTrackChangeStatus param' = Some (false, param'')
                            ∧ ed_extensions (editor param'') = ed_extensions (editor param)).
Proof.
  intros He told. split.
  - destruct (assign_option (set_enabled (λ _, flag)) _ _ He)
      as (pre & post & Hexts & Hpre & Hself & Hup & Hget).
    unfold setTrackChangeStatus, notify. rewrite Hup. simpl. rewrite Hget. simpl.
    eexists. split; [done|]. unfold getTrackChangeStatus, told.
    destruct (onStatusChange (ext_options e)); simpl; rewrite Hget; done.
  - destruct (assign_option (set_enabled negb) _ _ He)
      as (pre & post & Hexts & Hpre & Hself & Hup & Hget).
    unfold toggleTrackChangeStatus at 1, notify. rewrite Hup. simpl. rewrite Hget. simpl.
    eexists. split; [done|]. unfold getTrackChangeStatus, told.
    pose proof (find_self_at pre
                  (mkExtension (ext_type e) (ext_name e)
                     (set_enabled negb (set_enabled negb (ext_options e)))) post Hpre Hself)
      as Hfind.
    destruct (onStatusChange (ext_options e)) eqn:Ecb; simpl; rewrite Hget;
      (split_and!; try done);
      unfold toggleTrackChangeStatus, notify; simpl;
      rewrite update_self_at by done; simpl;
      unfold getSelfExt; simpl; rewrite Hfind; simpl;
      (eexists; split; [done|]); rewrite Ecb; simpl; rewrite Hexts; do 2 f_equal;
      destruct e as [ty nm [en cb id nick]]; unfold set_enabled; simpl;
      by rewrite negb_involutive.
Qed.

Lemma update_self_None f exts :
  List.find is_self exts = None → update_self f exts = None.
Proof.
  induction exts as [|x exts IH]; simpl; [done|].
  destruct (is_self x); [done|]. intros H. by rewrite IH.
Qed.

(** X5.  Without the extension among those of the editor, [getSelfExt]
    gives [undefined] and reading its options throws: the four commands on
    the options do, and so does every call of the interceptor of index.ts. *)
Theorem unregistered_extension_throws flag opUserId opUserNickname param now
    transactions oldState newState :
  getSelfExt (editor param) = None →
  setTrackChangeStatus flag param = None
  ∧ toggleTrackChangeStatus param = None
  ∧ getTrackChangeStatus param = None
  ∧ updateOpUserOption opUserId opUserNickname param = None
  ∧ Index.appendTransaction (Some (editor param)) now transactions oldState newState = None.
Proof.
  intros H. unfold setTrackChangeStatus, toggleTrackChangeStatus, getTrackChangeStatus,
    updateOpUserOption, Index.appendTransaction.
  rewrite H, !update_self_None by done. done.
Qed.

(** One command on the options: the callback hears of the status exactly
    when it is assigned. *)
Lemma option_command_step c param this :
  getSelfExt (editor param) = Some this →
  onStatusChange (ext_options this) = true →
  ∃ param' this',
    option_command c param = Some (false, param')
    ∧ getSelfExt (editor param') = Some this'
    ∧ onStatusChange (ext_options this') = true
    ∧ tr param' = tr param
    ∧ ed_statusLog (editor param')
      = ed_statusLog (editor param)
        ++ (if tells c then [enabled (ext_options this')] else [])
    ∧ (tells c = false → enabled (ext_options this') = enabled (ext_options this)).
Proof.
  intros He Hcb. destruct c as [flag| |id nick]; simpl.
  - destruct (assign_option (set_enabled (λ _, flag)) _ _ He)
      as (pre & post & Hexts & Hpre & Hself & Hup & Hget).
    unfold setTrackChangeStatus, notify. rewrite Hup. simpl. rewrite Hget. simpl.
    rewrite Hcb. do 2 eexists. split; [done|]. simpl. rewrite Hget.
    split_and!; done.
  - destruct (assign_option (set_enabled negb) _ _ He)
      as (pre & post & Hexts & Hpre & Hself & Hup & Hget).
    unfold toggleTrackChangeStatus, notify. rewrite Hup. simpl. rewrite Hget. simpl.
    rewrite Hcb. do 2 eexists. split; [done|]. simpl. rewrite Hget.
    split_and!; done.
  - destruct (assign_option
                (λ o, mkOptions (enabled o) (onStatusChange o) (Some id) (Some nick)) _ _ He)
      as (pre & post & Hexts & Hpre & Hself & Hup & Hget).
    unfold updateOpUserOption. rewrite Hup. simpl.
    do 2 eexists. split; [done|]. simpl. rewrite Hget.
    split_and!; try done. by rewrite app_nil_r.
Qed.

(** X6.  With a callback installed, the callback always knows the status:
    after [onCreate] and any run of the commands on the options, the last
    value it was told is the status of the extension, and it was told once
    by [onCreate] and once by each command that sets or toggles the status.
    No command of the run throws or touches the transaction. *)
Theorem callback_knows_status cs this param :
  getSelfExt (editor param) = Some this →
  onStatusChange (ext_options this) = true →
  ∃ param' this',
    run_commands cs (mkCommandProps (onCreate this (editor param)) (tr param)) = Some param'
    ∧ getSelfExt (editor param') = Some this'
    ∧ last (ed_statusLog (editor param')) = Some (enabled (ext_options this'))
    ∧ length (ed_statusLog (editor param'))
      = (length (ed_statusLog (editor param)) + 1 + length (List.filter tells cs))%nat
    ∧ tr param' = tr param.
Proof.
  intros He Hcb.
  assert (∀ param0 this0,
            getSelfExt (editor param0) = Some this0 →
            onStatusChange (ext_options this0) = true →
            last (ed_statusLog (editor param0)) = Some (enabled (ext_options this0)) →
            ∃ param' this',
              run_commands cs param0 = Some param'
              ∧ getSelfExt (editor param') = Some this'
              ∧ last (ed_statusLog (editor param')) = Some (enabled (ext_options this'))
              ∧ length (ed_statusLog (editor param'))
                = (length (ed_statusLog (editor param0)) + length (List.filter tells cs))%nat
              ∧ tr param' = tr param0) as Hrun.
  { induction cs as [|c cs IH]; intros param0 this0 H0 Hcb0 Hlast; simpl.
    - exists param0, this0. split_and!; try done; lia.
    - destruct (option_command_step c _ _ H0 Hcb0)
        as (param1 & this1 & -> & H1 & Hcb1 & Htr & Hlog & Hsame).
      simpl. destruct (IH param1 this1 H1 Hcb1) as (param' & this' & Hr & H' & Hl' & Hn & Htr').
      { rewrite Hlog. destruct (tells c); [apply last_snoc|].
        rewrite app_nil_r, Hlast. f_equal. symmetry. by apply Hsame. }
      exists param', this'. split_and!; try done; [|congruence].
      rewrite Hn, Hlog, length_app. destruct (tells c); simpl; lia. }
  destruct (Hrun (mkCommandProps (onCreate this (editor param)) (tr param)) this)
    as (param' & this' & Hr & H' & Hl' & Hn & Htr').
  - unfold onCreate. by rewrite Hcb.
  - done.
  - unfold onCreate. rewrite Hcb. simpl. apply last_snoc.
  - exists param', this'. split_and!; try done.
    rewrite Hn. unfold onCreate. rewrite Hcb. simpl. rewrite length_app. simpl. lia.
Qed.

(** ** [changeTrack]: what it can do to a document *)

Lemma filter_sublist {A} (p : A → bool) (l : list A) : sublist (List.filter p l) l.
Proof.
  induction l as [|x l IH]; simpl; [constructor|].
  destruct (p x); by constructor.
Qed.

Lemma lighter_refl c : lighter c c.
Proof. done. Qed.

Lemma lighter_trans c1 c2 c3 : lighter c1 c2 → lighter c2 c3 → lighter c1 c3.
Proof.
  intros (H1 & H2 & H3) (H4 & H5 & H6). split_and!; [congruence | | congruence].
  by etrans.
Qed.

Lemma lighter_strip c : lighter (strip c) c.
Proof.
  unfold lighter, strip, strip_marks, removeType, set_marks. simpl. split_and!; [done| |].
  - etrans; apply filter_sublist.
  - rewrite !filter_filter. apply filter_ext_elem. intros m _. unfold is_track_mark.
    destruct (bool_decide (mark_type m = MARK_DELETION)),
      (bool_decide (mark_type m = MARK_INSERTION)); done.
Qed.

Lemma shrinks_refl d : shrinks d d.
Proof. induction d; constructor; [apply lighter_refl | done]. Qed.

Lemma shrinks_trans d1 d2 d3 : shrinks d1 d2 → shrinks d2 d3 → shrinks d1 d3.
Proof.
  intros H. revert d3. induction H as [|c d d' H IH|c c' d d' Hc H IH]; intros d3 H3.
  - done.
  - apply shrinks_drop. by apply IH.
  - inversion H3; subst.
    + apply shrinks_drop. by apply IH.
    + apply shrinks_keep; [by eapply lighter_trans | by apply IH].
Qed.

Lemma shrinks_app a a' b b' : shrinks a a' → shrinks b b' → shrinks (a ++ b) (a' ++ b').
Proof. intros Ha Hb. induction Ha; simpl; [done | by constructor..]. Qed.

Lemma shrinks_empty d : shrinks d [].
Proof. induction d; by constructor. Qed.

Lemma shrinks_map_range_from pos f from to d :
  (∀ c, lighter (f c) c) → shrinks d (map_range_from pos f from to d).
Proof.
  intros Hf. revert pos. induction d as [|c d IH]; intros pos; simpl; [constructor|].
  apply shrinks_keep; [|apply IH]. destruct (_ && _); [apply Hf | apply lighter_refl].
Qed.

Lemma shrinks_cut (a b : nat) d : (a ≤ b)%nat → shrinks d (take a d ++ drop b d).
Proof.
  intros Hab. rewrite <- (take_drop a d) at 1.
  apply shrinks_app; [apply shrinks_refl|].
  replace b with (a + (b - a))%nat by lia. rewrite <- drop_drop.
  generalize (drop a d) as l. generalize (b - a)%nat as n. clear.
  induction n as [|n IH]; intros [|c l]; simpl; try apply shrinks_refl.
  apply shrinks_drop, IH.
Qed.

Lemma shrinks_text d d' : shrinks d d' → sublist (text_of d') (text_of d).
Proof.
  induction 1 as [|c d d' H IH|c c' d d' [Hc _] H IH]; simpl.
  - constructor.
  - by constructor.
  - rewrite Hc. by constructor.
Qed.

Lemma changeTrack_each_shrinks opType offset currentTr markRange offset' tr' :
  changeTrack_each opType (offset, currentTr) markRange = Some (offset', tr') →
  shrinks (tr_doc currentTr) (tr_doc tr').
Proof.
  intros H. destruct (removes_mark opType markRange) eqn:E.
  - assert (mr_to markRange - offset ≤ doc_size (tr_doc currentTr)) as Hto.
    { destruct (decide (mr_to markRange - offset ≤ doc_size (tr_doc currentTr)))
        as [|Hn]; [done|].
      unfold changeTrack_each in H. rewrite E in H.
      assert (removeMark currentTr (mr_from markRange - offset) (mr_to markRange - offset)
                         MARK_INSERTION = None) as Hnone.
      { unfold removeMark. by rewrite bool_decide_eq_false_2. }
      rewrite Hnone in H. discriminate. }
    destruct (changeTrack_each_strip opType offset currentTr markRange E Hto)
      as (tr1 & H1 & Hd & _).
    rewrite H1 in H. injection H as _ <-. rewrite Hd.
    apply shrinks_map_range_from, lighter_strip.
  - unfold changeTrack_each in H. rewrite E in H. unfold deleteRange in H.
    destruct (in_doc _ _ && in_doc _ _ && _) eqn:Ein; [|discriminate].
    apply andb_true_iff in Ein as [[E1 E2]%andb_true_iff E3].
    unfold in_doc in E1, E2.
    apply andb_true_iff in E1 as [E1 _], E2 as [_ E2].
    apply bool_decide_eq_true in E1, E2, E3.
    destruct (bool_decide (_ = _)) eqn:Eeq.
    + simpl in H. injection H as _ <-. apply shrinks_refl.
    + apply bool_decide_eq_false in Eeq.
      unfold tr_step, step_apply, in_range in H.
      rewrite !bool_decide_eq_true_2 in H by done. simpl in H. injection H as _ <-.
      simpl. apply shrinks_cut. lia.
Qed.

Lemma changeTrack_loop_shrinks opType markRanges :
  ∀ acc acc', changeTrack_loop opType acc markRanges = Some acc' →
              shrinks (tr_doc acc.2) (tr_doc acc'.2).
Proof.
  induction markRanges as [|r rs IH]; intros [off t] acc' H;
    cbn [changeTrack_loop] in H.
  - injection H as <-. apply shrinks_refl.
  - destruct (changeTrack_each opType (off, t) r) as [[off1 t1]|] eqn:E;
      cbn [mbind option_bind] in H; [|discriminate].
    eapply shrinks_trans; [by eapply changeTrack_each_shrinks|].
    apply (IH _ _ H).
Qed.

(** X7.  Whatever the operation and the selection, [changeTrack] only takes
    away: the document it leaves is the one it found with some characters
    removed and some track marks taken off.  No text is added or reordered,
    and no mark other than the two track marks is touched.  When it returns
    [false] it has done nothing at all. *)
Theorem changeTrack_only_removes opType param b tr' :
  changeTrack opType param = Some (b, tr') →
  shrinks (tr_doc (tr param)) (tr_doc tr')
  ∧ sublist (text_of (tr_doc tr')) (text_of (tr_doc (tr param)))
  ∧ (b = false → tr' = tr param).
Proof.
  intros H.
  assert (shrinks (tr_doc (tr param)) (tr_doc tr') ∧ (b = false → tr' = tr param)) as [Hs Hb].
  { unfold changeTrack in H.
    destruct (gather opType (ed_state (editor param))) as [op markRanges].
    destruct (bool_decide (length (List.filter is_track markRanges) = 0%nat)).
    - injection H as <- <-. split; [apply shrinks_refl | done].
    - destruct (changeTrack_loop op (0, tr param) (List.filter is_track markRanges))
        as [[off currentTr]|] eqn:E; [|discriminate].
      simpl in H. injection H as <- <-. split; [|done].
      apply changeTrack_loop_shrinks in E. simpl in E.
      by destruct (bool_decide (length (tr_steps currentTr) = 0%nat)). }
  split; [done|]. split; [by apply shrinks_text | done].
Qed.

(** ** [changeTrack] on the whole document *)

Lemma strip_untracked c : untracked_char (strip c).
Proof.
  unfold untracked_char, strip, strip_marks, removeType, set_marks. simpl.
  rewrite !filter_filter. apply filter_none, Forall_forall. intros m _.
  unfold is_track_mark.
  destruct (bool_decide (mark_type m = MARK_DELETION)),
    (bool_decide (mark_type m = MARK_INSERTION)); done.
Qed.

Lemma resolve_untracked opType d : Forall untracked_char (resolve opType d).
Proof. unfold resolve. apply Forall_map, Forall_forall. intros c _. apply strip_untracked. Qed.

Lemma changeTrack_untracked opType param :
  Forall untracked_char (es_doc (ed_state (editor param))) →
  changeTrack opType param = Some (false, tr param).
Proof.
  intros Hfree. apply changeTrack_no_ranges.
  destruct (gather_shape opType (ed_state (editor param))) as [_ [q ->]].
  eapply no_track_no_ranges; [apply nodes_from_Segs | done].
Qed.

(** X8.  'accept-all' and 'reject-all' settle every change of a document of
    the host in one call, whatever the selection: the characters under a
    mark of the doomed kind (deletion for accept, insertion for reject) are
    gone, every other character is left with its track marks taken off, and
    nothing else has changed.  The call returns [false] exactly when the
    document held no track mark. *)
Theorem all_changes_resolved opType param :
  opType = TRACK_COMMAND_ACCEPT_ALL ∨ opType = TRACK_COMMAND_REJECT_ALL →
  wf_doc (es_doc (ed_state (editor param))) →
  tr_doc (tr param) = es_doc (ed_state (editor param)) →
  ∃ b tr', changeTrack opType param = Some (b, tr')
           ∧ tr_doc tr' = resolve opType (es_doc (ed_state (editor param)))
           ∧ Forall untracked_char (tr_doc tr')
           ∧ (b = false ↔ Forall untracked_char (es_doc (ed_state (editor param)))).
Proof.
  intros Hop Hwf Htr.
  destruct (changeTrack_all opType param Hop Hwf Htr) as (b & tr' & H & Hd & Hb).
  exists b, tr'. split_and!; [done | done | rewrite Hd; apply resolve_untracked |].
  split; [exact Hb|]. intros Hfree.
  rewrite (changeTrack_untracked opType param Hfree) in H. by injection H as <- _.
Qed.

(** X9.  Once 'accept-all' or 'reject-all' has run, nothing is left to do:
    on the document it produced every operation, with any selection, returns
    [false] and leaves its transaction as it is. *)
Theorem resolved_document_is_settled opType param b tr' opType' param' :
  opType = TRACK_COMMAND_ACCEPT_ALL ∨ opType = TRACK_COMMAND_REJECT_ALL →
  wf_doc (es_doc (ed_state (editor param))) →
  tr_doc (tr param) = es_doc (ed_state (editor param)) →
  changeTrack opType param = Some (b, tr') →
  es_doc (ed_state (editor param')) = tr_doc tr' →
  changeTrack opType' param' = Some (false, tr param').
Proof.
  intros Hop Hwf Htr H Hnext.
  destruct (changeTrack_all opType param Hop Hwf Htr) as (b0 & tr0 & H0 & Hd & _).
  rewrite H in H0. injection H0 as <- <-.
  apply changeTrack_untracked. rewrite Hnext, Hd. apply resolve_untracked.
Qed.

(** ** [changeTrack]: its own change is flagged *)

Lemma stretches_nonempty pick from to d (i : nat) c o :
  from ≤ Z.of_nat i < to → d !! i = Some c → o ∈ pick (marks c) →
  stretches pick from to d ≠ [].
Proof.
  intros Hi Hc Ho Hnil.
  destruct (stretches_from_spec pick from to 0 d 0 []) as [_ Hcov];
    [lia | by apply Forall_nil |].
  fold (stretches pick from to d) in Hcov. rewrite Hnil in Hcov.
  apply (covered_nil o (Z.of_nat i)). apply Hcov. right.
  split_and!; [lia..|]. exists c. split; [|done].
  by replace (Z.to_nat (Z.of_nat i - 0)) with i by lia.
Qed.

(** [removeMark] adds a step when a mark of the type is in the range. *)
Lemma removeMark_steps tr from to type (i : nat) c o :
  to ≤ doc_size (tr_doc tr) →
  from ≤ Z.of_nat i < to → tr_doc tr !! i = Some c → o ∈ marks c → mark_type o = type →
  ∃ tr', removeMark tr from to type = Some tr' ∧ tr_steps tr' ≠ [].
Proof.
  intros Hto Hi Hc Ho Htype. unfold removeMark. rewrite bool_decide_eq_true_2 by done.
  destruct (stretches_from_spec (ofType type) from to 0 (tr_doc tr) 0 []) as [Hw _];
    [lia | by apply Forall_nil |].
  rewrite tr_steps_all_remove by exact Hw.
  eexists. split; [done|]. simpl. intros [_ Hnil]%app_eq_nil.
  apply map_eq_nil in Hnil. revert Hnil.
  eapply stretches_nonempty; [done | done |]. by apply elem_of_ofType.
Qed.

Lemma continues_steps tr tr' : continues tr tr' → tr_steps tr ≠ [] → tr_steps tr' ≠ [].
Proof. intros (_ & _ & ss & ->) H [Hnil _]%app_eq_nil. done. Qed.

Lemma changeTrack_each_continues opType offset currentTr markRange offset' tr' :
  changeTrack_each opType (offset, currentTr) markRange = Some (offset', tr') →
  continues currentTr tr'.
Proof.
  intros H. destruct (removes_mark opType markRange) eqn:E.
  - assert (mr_to markRange - offset ≤ doc_size (tr_doc currentTr)) as Hto.
    { destruct (decide (mr_to markRange - offset ≤ doc_size (tr_doc currentTr)))
        as [|Hn]; [done|].
      unfold changeTrack_each in H. rewrite E in H.
      assert (removeMark currentTr (mr_from markRange - offset) (mr_to markRange - offset)
                         MARK_INSERTION = None) as Hnone.
      { unfold removeMark. by rewrite bool_decide_eq_false_2. }
      rewrite Hnone in H. discriminate. }
    destruct (changeTrack_each_strip opType offset currentTr markRange E Hto)
      as (tr1 & H1 & _ & Hc).
    rewrite H1 in H. by injection H as _ <-.
  - unfold changeTrack_each in H. rewrite E in H. unfold deleteRange in H.
    destruct (in_doc _ _ && in_doc _ _ && _) eqn:Ein; [|discriminate].
    apply andb_true_iff in Ein as [[E1 E2]%andb_true_iff E3].
    unfold in_doc in E1, E2.
    apply andb_true_iff in E1 as [E1 _], E2 as [_ E2].
    apply bool_decide_eq_true in E1, E2, E3.
    destruct (bool_decide (_ = _)) eqn:Eeq.
    + simpl in H. injection H as _ <-. apply continues_refl.
    + unfold tr_step, step_apply, in_range in H.
      rewrite !bool_decide_eq_true_2 in H by done. simpl in H. injection H as _ <-.
      repeat split. by eexists.
Qed.

Lemma changeTrack_loop_continues opType markRanges :
  ∀ acc acc', changeTrack_loop opType acc markRanges = Some acc' →
              continues acc.2 acc'.2.
Proof.
  induction markRanges as [|r rs IH]; intros [off t] acc' H;
    cbn [changeTrack_loop] in H.
  - injection H as <-. apply continues_refl.
  - destruct (changeTrack_each opType (off, t) r) as [[off1 t1]|] eqn:E;
      cbn [mbind option_bind] in H; [|discriminate].
    eapply continues_trans; [by eapply changeTrack_each_continues|].
    apply (IH _ _ H).
Qed.

(** The first range of the loop always costs a step. *)
Lemma first_range_steps opType tr n m offset' tr' :
  n ∈ nodes (tr_doc tr) → m ∈ n_marks n → is_track_mark m = true →
  changeTrack_each opType (0, tr) (mkMarkRange m (n_from n) (n_to n)) = Some (offset', tr') →
  tr_steps tr' ≠ [].
Proof.
  intros Hn Hm Htrack H.
  destruct (Segs_uniform 0 (tr_doc tr) (nodes (tr_doc tr)) n (nodes_from_Segs 0 _) Hn)
    as (Hlo & Hlen & Hhi & Huni).
  assert (∃ c, tr_doc tr !! Z.to_nat (n_from n) = Some c ∧ marks c = n_marks n)
    as (c & Hc & Hmarks).
  { destruct (lookup_lt_is_Some_2 (tr_doc tr) (Z.to_nat (n_from n))) as [c Hc]; [lia|].
    exists c. split; [done|]. apply (Huni (Z.to_nat (n_from n))); [lia | done]. }
  destruct (removes_mark opType (mkMarkRange m (n_from n) (n_to n))) eqn:E.
  - unfold changeTrack_each in H. rewrite E in H. simpl in H.
    rewrite !Z.sub_0_r in H.
    destruct (removeMark_spec tr (n_from n) (n_to n) MARK_INSERTION)
      as (tr1 & H1 & Hd1 & _ & _ & ss1 & Hs1); [unfold doc_size; lia|].
    destruct (removeMark_spec tr1 (n_from n) (n_to n) MARK_DELETION)
      as (tr2 & H2 & Hd2 & _ & _ & ss2 & Hs2).
    { rewrite Hd1. unfold doc_size. rewrite map_range_length. lia. }
    rewrite H1 in H. simpl in H. rewrite H2 in H. simpl in H. injection H as _ <-.
    unfold is_track_mark in Htrack. apply orb_true_iff in Htrack as [Ht|Ht];
      apply bool_decide_eq_true in Ht.
    + assert (∃ tr2', removeMark tr1 (n_from n) (n_to n) MARK_DELETION = Some tr2'
                      ∧ tr_steps tr2' ≠ []) as (tr2' & H2' & Hne).
      { apply (removeMark_steps tr1 (n_from n) (n_to n) MARK_DELETION
                 (Z.to_nat (n_from n)) (set_marks (removeType MARK_INSERTION) c) m).
        - rewrite Hd1. unfold doc_size. rewrite map_range_length. lia.
        - lia.
        - rewrite Hd1, map_range_lookup, Hc. simpl.
          by rewrite !bool_decide_eq_true_2 by lia.
        - simpl. unfold removeType. rewrite list_elem_of_In, filter_In, <- list_elem_of_In.
          split; [by rewrite Hmarks|]. apply negb_true_iff, bool_decide_eq_false.
          rewrite Ht. done.
        - done. }
      congruence.
    + assert (∃ tr1', removeMark tr (n_from n) (n_to n) MARK_INSERTION = Some tr1'
                      ∧ tr_steps tr1' ≠ []) as (tr1' & H1' & Hne).
      { apply (removeMark_steps tr (n_from n) (n_to n) MARK_INSERTION
                 (Z.to_nat (n_from n)) c m).
        - unfold doc_size. lia.
        - lia.
        - done.
        - by rewrite Hmarks.
        - done. }
      rewrite Hs2. intros [Hnil _]%app_eq_nil. congruence.
  - unfold changeTrack_each in H. rewrite E in H. simpl in H.
    rewrite !Z.sub_0_r in H.
    rewrite deleteRange_spec in H by (unfold doc_size; lia).
    simpl in H. injection H as _ <-. simpl. intros [_ Hnil]%app_eq_nil. done.
Qed.

(** X10.  A change made by [changeTrack] is never tracked itself: when the
    call returns [true] it has added a step and set 'trackManualChanged',
    so the interceptor of either variant answers [null] to that
    transaction. *)
Theorem changeTrack_change_is_not_tracked opType param tr' :
  tr_doc (tr param) = es_doc (ed_state (editor param)) →
  changeTrack opType param = Some (true, tr') →
  tr_steps tr' ≠ []
  ∧ getMeta tr' "trackManualChanged" = Some (MBool true)
  ∧ (∀ ed now oldState newState,
       is_Some (getSelfExt ed) →
       Index.appendTransaction (Some ed) now [tr'] oldState newState = Some None)
  ∧ (∀ selection_map options now oldState newState,
       Part000.appendTransaction selection_map options now [tr'] oldState newState
       = Some None).
Proof.
  intros Htr H.
  assert (tr_steps tr' ≠ [] ∧ getMeta tr' "trackManualChanged" = Some (MBool true))
    as [Hsteps Hmeta].
  { unfold changeTrack in H.
    destruct (gather_shape opType (ed_state (editor param))) as [_ [q Hq]].
    destruct (gather opType (ed_state (editor param))) as [op markRanges].
    simpl in Hq.
    destruct (List.filter is_track markRanges) as [|r rs] eqn:Er; [discriminate|].
    rewrite bool_decide_eq_false_2 in H by done.
    cbn [changeTrack_loop] in H.
    destruct (changeTrack_each op (0, tr param) r) as [[off1 tr1]|] eqn:E1;
      cbn [mbind option_bind] in H; [|discriminate].
    destruct (changeTrack_loop op (off1, tr1) rs) as [[off currentTr]|] eqn:E2;
      cbn [mbind option_bind] in H; [|discriminate].
    assert (r ∈ flat_map track_ranges
                  (List.filter q (nodes (es_doc (ed_state (editor param)))))) as Hr.
    { rewrite <- Hq. by left. }
    apply list_elem_of_In, in_flat_map in Hr as (n & Hn & Hr).
    apply filter_In in Hn as [Hn _]. apply list_elem_of_In in Hn.
    unfold track_ranges in Hr. apply in_map_iff in Hr as (m & <- & Hm).
    apply filter_In in Hm as [Hm Htrack]. apply list_elem_of_In in Hm.
    rewrite <- Htr in Hn.
    pose proof (first_range_steps op (tr param) n m off1 tr1 Hn Hm Htrack E1) as Hne.
    apply changeTrack_loop_continues in E2. simpl in E2.
    pose proof (continues_steps _ _ E2 Hne) as Hne'.
    rewrite bool_decide_eq_false_2 in H.
    2:{ intros Hl. by apply length_zero_iff_nil in Hl. }
    injection H as <-. split; [done|].
    unfold getMeta, setMeta. simpl. apply lookup_insert_eq. }
  assert (flagged tr' = true) as Hflag.
  { unfold flagged. by rewrite Hmeta. }
  split_and!; [done | done | |].
  - intros ed now oldState newState Hself.
    apply index_all_flagged_null; [done|]. by apply Forall_singleton.
  - intros selection_map options now oldState newState.
    apply part000_all_flagged_null. by apply Forall_singleton.
Qed.

(** ** The host model: steps in the middle of a document *)

Lemma addMark_middle tr (P M S : Doc) mark :
  tr_doc tr = P ++ M ++ S →
  ∃ tr', addMark tr (doc_size P) (doc_size P + doc_size M) mark = Some tr'
         ∧ tr_doc tr' = P ++ map (set_marks (addToSet mark)) M ++ S
         ∧ continues tr tr'.
Proof.
  intros Hd.
  destruct (addMark_spec tr (doc_size P) (doc_size P + doc_size M) mark)
    as (tr' & H & Hd' & Hc).
  { rewrite Hd. unfold doc_size. rewrite !length_app. lia. }
  exists tr'. split; [done|]. split; [|done].
  rewrite Hd', Hd. unfold doc_size. rewrite <- Nat2Z.inj_add. apply map_range_middle.
Qed.

Lemma removeMark_middle tr (P M S : Doc) type :
  tr_doc tr = P ++ M ++ S →
  ∃ tr', removeMark tr (doc_size P) (doc_size P + doc_size M) type = Some tr'
         ∧ tr_doc tr' = P ++ map (set_marks (removeType type)) M ++ S
         ∧ continues tr tr'.
Proof.
  intros Hd.
  destruct (removeMark_spec tr (doc_size P) (doc_size P + doc_size M) type)
    as (tr' & H & Hd' & Hc).
  { rewrite Hd. unfold doc_size. rewrite !length_app. lia. }
  exists tr'. split; [done|]. split; [|done].
  rewrite Hd', Hd. unfold doc_size. rewrite <- Nat2Z.inj_add. apply map_range_middle.
Qed.

Lemma insert_at tr (P S : Doc) content :
  tr_doc tr = P ++ S →
  ∃ tr', insert tr (doc_size P) content = Some tr'
         ∧ tr_doc tr' = P ++ content ++ S
         ∧ continues tr tr'.
Proof.
  intros Hd.
  destruct (insert_spec tr (doc_size P) content) as (tr' & H & Hd' & Hc).
  { unfold doc_size. lia. }
  { rewrite Hd. unfold doc_size. rewrite length_app. lia. }
  exists tr'. split; [done|]. split; [|done].
  rewrite Hd', Hd. unfold doc_size. rewrite Nat2Z.id.
  by rewrite take_app_length, drop_app_length.
Qed.

Lemma slice_middle (P M S : Doc) :
  slice (P ++ M ++ S) (doc_size P) (doc_size P + doc_size M) = M.
Proof.
  unfold slice, doc_size. rewrite Nat2Z.id, drop_app_length.
  replace (Z.to_nat (Z.of_nat (length P) + Z.of_nat (length M) - Z.of_nat (length P)))
    with (length M) by lia.
  apply take_app_length.
Qed.

Lemma in_range_middle (P M S : Doc) :
  in_range (P ++ M ++ S) (doc_size P) (doc_size P + doc_size M) = true.
Proof.
  unfold in_range, doc_size. rewrite !length_app.
  rewrite !bool_decide_eq_true_2 by lia. done.
Qed.

(** ** The interceptor of index.ts on one edit *)

Lemma doc_size_pos (d : Doc) : d ≠ [] → 0 < doc_size d.
Proof. destruct d; [done|]. unfold doc_size. simpl. lia. Qed.

Lemma doc_size_nil_iff (d : Doc) : doc_size d = 0 ↔ d = [].
Proof.
  unfold doc_size. split; [|by intros ->].
  intros H. apply length_zero_iff_nil. lia.
Qed.

(** The insertion half of the body of the loop, tracking on. *)
Lemma index_insertion_on options now tr0 (P sl S : Doc) :
  tr_doc tr0 = P ++ sl ++ S →
  ∃ tr1 tr2,
    addMark tr0 (doc_size P) (doc_size P + doc_size sl) (index_insertion options now)
    = Some tr1
    ∧ removeMark tr1 (doc_size P) (doc_size P + doc_size sl) MARK_DELETION = Some tr2
    ∧ tr_doc tr2
      = P ++ map (set_marks (λ ms, removeType MARK_DELETION
                                      (addToSet (index_insertion options now) ms))) sl ++ S
    ∧ continues tr0 tr2.
Proof.
  intros Hd.
  destruct (addMark_middle tr0 P sl S (index_insertion options now) Hd)
    as (tr1 & H1 & Hd1 & Hc1).
  destruct (removeMark_middle tr1 P _ S MARK_DELETION Hd1) as (tr2 & H2 & Hd2 & Hc2).
  unfold doc_size in *. rewrite length_map in H2.
  exists tr1, tr2. split; [exact H1|]. split; [exact H2|].
  split; [|by eapply continues_trans].
  rewrite Hd2, map_map. done.
Qed.

(** The insertion half, tracking off. *)
Lemma index_insertion_off tr0 (P sl S : Doc) :
  tr_doc tr0 = P ++ sl ++ S →
  ∃ tr1 tr2,
    removeMark tr0 (doc_size P) (doc_size P + doc_size sl) MARK_INSERTION = Some tr1
    ∧ removeMark tr1 (doc_size P) (doc_size P + doc_size sl) MARK_DELETION = Some tr2
    ∧ tr_doc tr2 = P ++ map strip sl ++ S
    ∧ continues tr0 tr2.
Proof.
  intros Hd.
  destruct (removeMark_middle tr0 P sl S MARK_INSERTION Hd) as (tr1 & H1 & Hd1 & Hc1).
  destruct (removeMark_middle tr1 P _ S MARK_DELETION Hd1) as (tr2 & H2 & Hd2 & Hc2).
  unfold doc_size in *. rewrite length_map in H2.
  exists tr1, tr2. split; [exact H1|]. split; [exact H2|].
  split; [|by eapply continues_trans].
  rewrite Hd2, map_map. done.
Qed.

(** The deletion half, tracking on. *)
Lemma reinsert_deleted tr0 (P Dl XS : Doc) mark :
  tr_doc tr0 = P ++ XS →
  ∃ tr1 tr2,
    insert tr0 (doc_size P) Dl = Some tr1
    ∧ addMark tr1 (doc_size P) (doc_size P + doc_size Dl) mark = Some tr2
    ∧ tr_doc tr2 = P ++ map (set_marks (addToSet mark)) Dl ++ XS
    ∧ continues tr0 tr2.
Proof.
  intros Hd.
  destruct (insert_at tr0 P XS Dl Hd) as (tr1 & H1 & Hd1 & Hc1).
  destruct (addMark_middle tr1 P Dl XS mark Hd1) as (tr2 & H2 & Hd2 & Hc2).
  exists tr1, tr2. split; [exact H1|]. split; [exact H2|].
  split; [done | by eapply continues_trans].
Qed.

(** The body of the loop on the step of an edit, tracking on: what was
    deleted is put back under a deletion mark, in front of what was
    inserted, which gets the insertion mark and loses its deletion marks. *)
Lemma index_each_step_on options now t (P Dl sl S : Doc) tr0 modified :
  enabled options = true →
  tr_docs t !! 0%nat = Some (P ++ Dl ++ S) →
  tr_doc tr0 = P ++ sl ++ S →
  ∃ tr1,
    Index.each_step options now t (tr0, modified) 0
      (ReplaceStep (doc_size P) (doc_size P + doc_size Dl) sl)
    = Some (tr1, modified || negb (bool_decide (sl = [])) || negb (bool_decide (Dl = [])))
    ∧ tr_doc tr1
      = P ++ map (set_marks (addToSet (index_deletion options now))) Dl
          ++ map (set_marks (λ ms, removeType MARK_DELETION
                                     (addToSet (index_insertion options now) ms))) sl
          ++ S
    ∧ continues tr0 tr1.
Proof.
  intros Hen Hold Hd. unfold Index.each_step. cbv zeta. rewrite Hen.
  fold (index_insertion options now) (index_deletion options now).
  change (mark_type (create MARK_DELETION None None None)) with MARK_DELETION.
  assert (∃ tr1, (if bool_decide (0 < doc_size sl)
                  then tr1 ← addMark tr0 (doc_size P) (doc_size P + doc_size sl)
                                     (index_insertion options now);
                       tr2 ← removeMark tr1 (doc_size P) (doc_size P + doc_size sl)
                                        MARK_DELETION;
                       Some (tr2, true)
                  else Some (tr0, modified))
                 = Some (tr1, modified || negb (bool_decide (sl = [])))
                 ∧ tr_doc tr1
                   = P ++ map (set_marks (λ ms, removeType MARK_DELETION
                                            (addToSet (index_insertion options now) ms))) sl
                       ++ S
                 ∧ continues tr0 tr1) as (tr1 & -> & Hd1 & Hc1).
  { destruct (decide (sl = [])) as [->|Hsl].
    - rewrite bool_decide_eq_false_2 by (unfold doc_size; simpl; lia).
      exists tr0. rewrite orb_false_r. split; [done|]. split; [done | apply continues_refl].
    - rewrite bool_decide_eq_true_2 by (by apply doc_size_pos).
      destruct (index_insertion_on options now tr0 P sl S Hd)
        as (tr1 & tr2 & -> & Hr & Hd2 & Hc2).
      cbn [mbind option_bind]. rewrite Hr. cbn [mbind option_bind].
      exists tr2. rewrite (bool_decide_eq_false_2 (sl = [])) by done.
      rewrite orb_true_r. done. }
  cbn [mbind option_bind]. rewrite andb_true_r.
  destruct (decide (Dl = [])) as [->|HDl].
  - rewrite (bool_decide_eq_true_2 (doc_size P = doc_size P + doc_size []))
      by (unfold doc_size; simpl; lia).
    simpl negb. cbn iota. exists tr1. rewrite orb_false_r. done.
  - rewrite (bool_decide_eq_false_2 (doc_size P = doc_size P + doc_size Dl)).
    2:{ pose proof (doc_size_pos Dl HDl). lia. }
    simpl negb. cbn iota.
    destruct (reinsert_deleted tr1 P Dl _ (index_deletion options now) Hd1)
      as (tr2 & tr3 & Hi & Hr & Hd3 & Hc3).
    exists tr3. unfold Doc in *. rewrite Hold. cbn [mbind option_bind].
    unfold invert. rewrite in_range_middle, slice_middle. cbn [mbind option_bind].
    rewrite bool_decide_eq_true_2 by (by apply doc_size_pos).
    rewrite Hi. cbn [mbind option_bind]. rewrite Hr. cbn [mbind option_bind].
    rewrite (bool_decide_eq_false_2 (Dl = [])) by done.
    rewrite orb_true_r. split; [done|]. split; [done | by eapply continues_trans].
Qed.

(** The body of the loop on the step of an edit, tracking off: what was
    inserted loses its track marks, what was deleted stays deleted. *)
Lemma index_each_step_off options now t (P Dl sl S : Doc) tr0 modified :
  enabled options = false →
  tr_doc tr0 = P ++ sl ++ S →
  ∃ tr1,
    Index.each_step options now t (tr0, modified) 0
      (ReplaceStep (doc_size P) (doc_size P + doc_size Dl) sl)
    = Some (tr1, modified || negb (bool_decide (sl = [])))
    ∧ tr_doc tr1 = P ++ map strip sl ++ S
    ∧ continues tr0 tr1.
Proof.
  intros Hen Hd. unfold Index.each_step. cbv zeta. rewrite Hen.
  change (mark_type (create MARK_DELETION None None None)) with MARK_DELETION.
  change (mark_type (create MARK_INSERTION (dataOpUserId options)
                       (dataOpUserNickname options) (Some (getMinuteTime now))))
    with MARK_INSERTION.
  rewrite andb_false_r.
  destruct (decide (sl = [])) as [->|Hsl].
  - rewrite bool_decide_eq_false_2 by (unfold doc_size; simpl; lia).
    cbn [mbind option_bind]. exists tr0. rewrite orb_false_r.
    split; [done|]. split; [done | apply continues_refl].
  - rewrite bool_decide_eq_true_2 by (by apply doc_size_pos).
    destruct (index_insertion_off tr0 P sl S Hd) as (tr1 & tr2 & -> & Hr & Hd2 & Hc2).
    cbn [mbind option_bind]. rewrite Hr. cbn [mbind option_bind].
    exists tr2. rewrite (bool_decide_eq_false_2 (sl = [])) by done.
    rewrite orb_true_r. done.
Qed.

Lemma edits_index_relevant t P Dl sl S : edits t P Dl sl S → Index.relevant t = true.
Proof.
  intros (Hsteps & _ & Hflag). unfold flagged in Hflag.
  apply orb_false_iff in Hflag as [[H1 H2]%orb_false_iff H3].
  unfold Index.relevant, docChanged. rewrite Hsteps, H1, H2, H3. simpl.
  by rewrite andb_false_r.
Qed.

Lemma map_set_marks_text f (d : Doc) : text_of (map (set_marks f) d) = text_of d.
Proof. unfold text_of. rewrite map_map. done. Qed.

(** The interceptor of index.ts on one edit, tracking on. *)
Lemma index_edit_on ed e now t (P Dl sl S : Doc) oldState newState :
  getSelfExt ed = Some e →
  enabled (ext_options e) = true →
  edits t P Dl sl S →
  es_doc newState = P ++ sl ++ S →
  Dl ≠ [] ∨ sl ≠ [] →
  ∃ tr', Index.appendTransaction (Some ed) now [t] oldState newState = Some (Some tr')
         ∧ tr_doc tr'
           = P ++ map (set_marks (addToSet (index_deletion (ext_options e) now))) Dl
               ++ map (set_marks (λ ms, removeType MARK_DELETION
                                    (addToSet (index_insertion (ext_options e) now) ms))) sl
               ++ S
         ∧ getMeta tr' "trackManualChanged" = Some (MBool true).
Proof.
  intros He Hen Hedit Hnew Hsome.
  unfold Index.appendTransaction. rewrite He. cbn [mbind option_bind].
  simpl List.filter. rewrite (edits_index_relevant _ _ _ _ _ Hedit).
  simpl length. rewrite bool_decide_eq_false_2 by done.
  destruct Hedit as (Hsteps & Hdocs & _).
  cbn [Index.each_transaction]. rewrite Hsteps. cbn [Index.each_steps].
  destruct (index_each_step_on (ext_options e) now t P Dl sl S (state_tr newState) false
              Hen) as (tr1 & -> & Hd & Hc).
  { by rewrite Hdocs. }
  { done. }
  cbn [mbind option_bind].
  assert (false || negb (bool_decide (sl = [])) || negb (bool_decide (Dl = [])) = true)
    as ->.
  { destruct Hsome as [H|H]; rewrite (bool_decide_eq_false_2 _ H); simpl;
      [apply orb_true_r | done]. }
  eexists. split; [done|]. simpl. split; [done|].
  unfold getMeta. simpl. apply lookup_insert_eq.
Qed.

(** X12.  The interceptor of index.ts on one edit, tracking on.  When a
    change replaces [Dl] by [sl] between [P] and [S], the corrective
    transaction leaves [P] and [S] as they are, puts [Dl] back under the
    deletion mark of the current author and minute, and gives [sl], behind
    it, the insertion mark while taking its deletion marks off.  No text of
    the old or of the new document is lost, and the transaction is flagged
    'trackManualChanged'. *)
Theorem index_tracks_an_edit ed e now t (P Dl sl S : Doc) oldState newState :
  getSelfExt ed = Some e →
  enabled (ext_options e) = true →
  edits t P Dl sl S →
  es_doc newState = P ++ sl ++ S →
  Dl ≠ [] ∨ sl ≠ [] →
  ∃ tr', Index.appendTransaction (Some ed) now [t] oldState newState = Some (Some tr')
         ∧ tr_doc tr'
           = P ++ map (set_marks (addToSet (index_deletion (ext_options e) now))) Dl
               ++ map (set_marks (λ ms, removeType MARK_DELETION
                                    (addToSet (index_insertion (ext_options e) now) ms))) sl
               ++ S
         ∧ text_of (tr_doc tr') = text_of P ++ text_of Dl ++ text_of sl ++ text_of S
         ∧ getMeta tr' "trackManualChanged" = Some (MBool true).
Proof.
  intros He Hen Hedit Hnew Hsome.
  destruct (index_edit_on ed e now t P Dl sl S oldState newState He Hen Hedit Hnew Hsome)
    as (tr' & H & Hd & Hmeta).
  exists tr'. split; [done|]. split; [done|]. split; [|done].
  rewrite Hd. unfold text_of. rewrite !map_app, !map_map. done.
Qed.

(** X13.  The interceptor of index.ts on one edit, tracking off: what was
    inserted is left in place with both track marks taken off, and what was
    deleted stays deleted; a change that only deletes gets the answer
    [null]. *)
Theorem index_untracked_edit ed e now t (P Dl sl S : Doc) oldState newState :
  getSelfExt ed = Some e →
  enabled (ext_options e) = false →
  edits t P Dl sl S →
  es_doc newState = P ++ sl ++ S →
  (sl ≠ [] →
   ∃ tr', Index.appendTransaction (Some ed) now [t] oldState newState = Some (Some tr')
          ∧ tr_doc tr' = P ++ map strip sl ++ S)
  ∧ (sl = [] →
     Index.appendTransaction (Some ed) now [t] oldState newState = Some None).
Proof.
  intros He Hen Hedit Hnew.
  unfold Index.appendTransaction. rewrite He. cbn [mbind option_bind].
  simpl List.filter. rewrite (edits_index_relevant _ _ _ _ _ Hedit).
  simpl length. rewrite bool_decide_eq_false_2 by done.
  destruct Hedit as (Hsteps & Hdocs & _).
  cbn [Index.each_transaction]. rewrite Hsteps. cbn [Index.each_steps].
  destruct (index_each_step_off (ext_options e) now t P Dl sl S (state_tr newState) false
              Hen) as (tr1 & -> & Hd & Hc); [done|].
  cbn [mbind option_bind]. split.
  - intros Hsl. rewrite (bool_decide_eq_false_2 _ Hsl). simpl. by eexists.
  - intros ->. done.
Qed.

(** ** Mark sets under [addToSet] *)

Lemma untracked_hasType ms type :
  List.filter is_track_mark ms = [] →
  type = MARK_INSERTION ∨ type = MARK_DELETION →
  hasType type ms = false.
Proof.
  intros Hfree Htype. apply not_true_is_false. unfold hasType.
  intros (o & Ho & Ht)%existsb_exists. apply bool_decide_eq_true in Ht.
  assert (In o (List.filter is_track_mark ms)) as Hin.
  { apply filter_In. split; [done|]. unfold is_track_mark. rewrite Ht.
    destruct Htype as [-> | ->]; reflexivity. }
  by rewrite Hfree in Hin.
Qed.

Lemma strip_marks_filter ms :
  strip_marks ms = List.filter (λ o, negb (is_track_mark o)) ms.
Proof.
  unfold strip_marks, removeType. rewrite filter_filter.
  apply filter_ext_elem. intros m _. unfold is_track_mark.
  destruct (bool_decide (mark_type m = MARK_DELETION)),
    (bool_decide (mark_type m = MARK_INSERTION)); done.
Qed.

(** Taking a mark out again, by a test that only it fails. *)
Lemma filter_addToSet_go (p : Mark → bool) m ms placed :
  p m = false →
  (∀ o, o ∈ ms → p o = true ∧ mark_type o ≠ mark_type m) →
  List.filter p (addToSet_go m ms placed) = ms.
Proof.
  intros Hm. revert placed. induction ms as [|o ms IH]; intros placed Hms; simpl.
  - destruct placed; simpl; [done | by rewrite Hm].
  - destruct (Hms o) as [Ho Hne]; [by left|].
    rewrite bool_decide_eq_false_2 by done.
    assert (∀ placed', List.filter p (addToSet_go m ms placed') = ms) as IH'.
    { intros placed'. apply IH. intros x Hx. apply Hms. by right. }
    destruct (negb placed && _); simpl; rewrite ?Hm, Ho, IH'; done.
Qed.

Lemma untracked_absent m ms :
  is_track_mark m = true → List.filter is_track_mark ms = [] → m ∉ ms.
Proof.
  intros Hm Hfree Hin.
  assert (In m (List.filter is_track_mark ms)) as Hin'.
  { apply filter_In. split; [by apply list_elem_of_In | done]. }
  by rewrite Hfree in Hin'.
Qed.

Lemma untracked_other_type m ms o :
  is_track_mark m = true → List.filter is_track_mark ms = [] → o ∈ ms →
  is_track_mark o = false ∧ mark_type o ≠ mark_type m.
Proof.
  intros Hm Hfree Ho.
  assert (is_track_mark o = false) as Hno.
  { apply not_true_is_false. intros Ht.
    assert (In o (List.filter is_track_mark ms)) as Hin'.
    { apply filter_In. split; [by apply list_elem_of_In | done]. }
    by rewrite Hfree in Hin'. }
  split; [done|]. intros Heq. unfold is_track_mark in *. rewrite Heq in Hno. congruence.
Qed.

(** A track mark added to a mark set without any comes off again. *)
Lemma strip_addToSet m ms :
  is_track_mark m = true → List.filter is_track_mark ms = [] →
  strip_marks (addToSet m ms) = ms.
Proof.
  intros Hm Hfree. rewrite strip_marks_filter. unfold addToSet, isInSet.
  rewrite bool_decide_eq_false_2 by (by apply untracked_absent).
  apply filter_addToSet_go; [by rewrite Hm|].
  intros o Ho. destruct (untracked_other_type m ms o Hm Hfree Ho) as [-> ?]. done.
Qed.

Lemma addToSet_go_perm m ms placed :
  addToSet_go m ms placed ≡ₚ (if placed then [] else [m]) ++ removeType (mark_type m) ms.
Proof.
  revert placed. induction ms as [|o ms IH]; intros placed; simpl.
  - by rewrite app_nil_r.
  - destruct (decide (mark_type m = mark_type o)) as [Heq|Hne].
    + rewrite bool_decide_eq_true_2 by done.
      rewrite (bool_decide_eq_true_2 (mark_type o = mark_type m)) by done. simpl. apply IH.
    + rewrite bool_decide_eq_false_2 by done.
      rewrite (bool_decide_eq_false_2 (mark_type o = mark_type m)) by done. simpl.
      destruct placed; simpl.
      * by rewrite IH.
      * destruct (rank (mark_type m) <? rank (mark_type o))%nat.
        -- by rewrite IH.
        -- rewrite IH. simpl. apply perm_swap.
Qed.

(** [addToSet] gives a mark set of the host. *)
Lemma addToSet_wf m ms : wf_marks ms → wf_marks (addToSet m ms).
Proof.
  intros Hwf. unfold addToSet. destruct (isInSet m ms); [done|].
  unfold wf_marks.
  assert (map mark_type (addToSet_go m ms false)
          ≡ₚ mark_type m :: map mark_type (removeType (mark_type m) ms)) as ->.
  { change (map mark_type (addToSet_go m ms false))
      with (mark_type <$> addToSet_go m ms false).
    rewrite addToSet_go_perm. done. }
  apply NoDup_cons. split; [|by apply NoDup_map_filter].
  intros Hin. apply list_elem_of_In, in_map_iff in Hin as (o & Ho & Hin).
  apply filter_In in Hin as [_ Hin]. apply negb_true_iff, bool_decide_eq_false in Hin. done.
Qed.


Lemma removeType_absent type ms : hasType type ms = false → removeType type ms = ms.
Proof.
  intros H. apply filter_all. intros o Ho. apply negb_true_iff, bool_decide_eq_false.
  intros Ht. by rewrite (hasType_elem type ms o Ho Ht) in H.
Qed.

Lemma elem_of_addToSet_inv m ms o : o ∈ addToSet m ms → o = m ∨ o ∈ ms.
Proof.
  unfold addToSet. destruct (isInSet m ms); [by right|].
  intros Ho. assert (o ∈ [m] ++ removeType (mark_type m) ms) as Ho'.
  { by rewrite <- (addToSet_go_perm m ms false). }
  apply elem_of_app in Ho' as [Ho'|Ho'].
  - left. by apply list_elem_of_singleton.
  - right. apply list_elem_of_In, filter_In in Ho' as [Ho' _]. by apply list_elem_of_In.
Qed.

Lemma hasType_addToSet_other type m ms :
  mark_type m ≠ type → hasType type ms = false → hasType type (addToSet m ms) = false.
Proof.
  intros Hne H. apply not_true_is_false. unfold hasType.
  intros (o & Ho & Ht)%existsb_exists. apply bool_decide_eq_true in Ht.
  apply list_elem_of_In, elem_of_addToSet_inv in Ho as [->|Ho]; [done|].
  by rewrite (hasType_elem type ms o Ho Ht) in H.
Qed.

Lemma hasType_addToSet m ms : hasType (mark_type m) (addToSet m ms) = true.
Proof. eapply hasType_elem; [apply elem_of_addToSet | done]. Qed.

(** ** Tracking an edit, then settling it *)

Lemma resolve_untracked_id opType d :
  Forall untracked_char d → resolve opType d = d.
Proof.
  intros Hfree. unfold resolve. rewrite filter_keep.
  - rewrite <- (map_id d) at 2. apply map_ext_Forall.
    eapply Forall_impl; [exact Hfree|]. intros c Hc. by apply strip_no_track.
  - eapply Forall_impl; [exact Hfree|]. intros c Hc. apply negb_true_iff.
    apply untracked_hasType; [done|]. destruct opType; auto.
Qed.

(** Content that got one track mark: gone if the mark is of the doomed kind,
    as it was before otherwise. *)
Lemma resolve_marked opType m d :
  is_track_mark m = true → Forall untracked_char d →
  resolve opType (map (set_marks (addToSet m)) d)
  = if bool_decide (mark_type m = doomed_type opType) then [] else d.
Proof.
  intros Hm Hfree. unfold resolve. case_bool_decide as Hdoom.
  - rewrite filter_none; [done|]. apply Forall_map, Forall_forall. intros c _. simpl.
    apply negb_false_iff. rewrite <- Hdoom. apply hasType_addToSet.
  - rewrite filter_keep.
    + rewrite map_map. rewrite <- (map_id d) at 2. apply map_ext_Forall.
      eapply Forall_impl; [exact Hfree|]. intros [a ms] Hc.
      unfold strip, set_marks. simpl. f_equal. by apply strip_addToSet.
    + apply Forall_map. eapply Forall_impl; [exact Hfree|]. intros c Hc. simpl.
      apply negb_true_iff. apply hasType_addToSet_other; [done|].
      apply untracked_hasType; [done|]. destruct opType; auto.
Qed.

Lemma wf_doc_set_marks f d :
  (∀ ms, wf_marks ms → wf_marks (f ms)) → wf_doc d → wf_doc (map (set_marks f) d).
Proof.
  intros Hf Hwf. apply Forall_map. eapply Forall_impl; [exact Hwf|].
  intros c Hc. simpl. by apply Hf.
Qed.

(** On content without track marks the two variants mark an insertion alike. *)
Lemma insertion_marks_agree m (sl : Doc) :
  mark_type m = MARK_INSERTION → Forall untracked_char sl →
  map (set_marks (λ ms, removeType MARK_DELETION (addToSet m ms))) sl
  = map (set_marks (addToSet m)) sl.
Proof.
  intros Hm Hfree. apply map_ext_Forall. eapply Forall_impl; [exact Hfree|].
  intros c Hc. unfold set_marks. f_equal. apply removeType_absent.
  apply hasType_addToSet_other; [by rewrite Hm|].
  apply untracked_hasType; [done | by right].
Qed.

(** The document of a tracked edit, settled: 'reject-all' gives back the old
    one, 'accept-all' the new one. *)
Lemma tracked_edit_settled ins del (P Dl sl S : Doc) param :
  mark_type ins = MARK_INSERTION → mark_type del = MARK_DELETION →
  Dl ≠ [] ∨ sl ≠ [] →
  wf_doc (P ++ Dl ++ S) → wf_doc sl →
  Forall untracked_char (P ++ Dl ++ S) → Forall untracked_char sl →
  es_doc (ed_state (editor param))
  = P ++ map (set_marks (addToSet del)) Dl ++ map (set_marks (addToSet ins)) sl ++ S →
  tr_doc (tr param) = es_doc (ed_state (editor param)) →
  (∃ tr', changeTrack TRACK_COMMAND_REJECT_ALL param = Some (true, tr')
          ∧ tr_doc tr' = P ++ Dl ++ S)
  ∧ (∃ tr', changeTrack TRACK_COMMAND_ACCEPT_ALL param = Some (true, tr')
            ∧ tr_doc tr' = P ++ sl ++ S).
Proof.
  intros Hins Hdel Hsome Hwf Hwfsl Hfree Hfreesl Hdoc Htr.
  apply wf_doc_app in Hwf as [HwfP [HwfD HwfS]%wf_doc_app].
  apply Forall_app in Hfree as [HfP [HfD HfS]%Forall_app].
  assert (is_track_mark ins = true) as Htins.
  { unfold is_track_mark. rewrite Hins. reflexivity. }
  assert (is_track_mark del = true) as Htdel.
  { unfold is_track_mark. rewrite Hdel. reflexivity. }
  assert (wf_doc (es_doc (ed_state (editor param)))) as Hwf.
  { rewrite Hdoc. apply wf_doc_app. split; [done|]. apply wf_doc_app. split.
    - apply wf_doc_set_marks; [apply addToSet_wf | done].
    - apply wf_doc_app. split; [|done].
      apply wf_doc_set_marks; [apply addToSet_wf | done]. }
  assert (¬ Forall untracked_char (es_doc (ed_state (editor param)))) as Htracked.
  { rewrite Hdoc. intros [_ [H1 [H2 _]%Forall_app]%Forall_app]%Forall_app.
    assert (∀ m (d : Doc), is_track_mark m = true → d ≠ [] →
                           ¬ Forall untracked_char (map (set_marks (addToSet m)) d)) as Hno.
    { intros m [|c d] Hm Hne Hall; [done|]. apply Forall_cons in Hall as [Hc _].
      unfold untracked_char in Hc. simpl in Hc.
      assert (In m (List.filter is_track_mark (addToSet m (marks c)))) as Hin.
      { apply filter_In. split; [apply list_elem_of_In, elem_of_addToSet | done]. }
      by rewrite Hc in Hin. }
    destruct Hsome as [Hne|Hne]; [by apply (Hno del Dl) | by apply (Hno ins sl)]. }
  split.
  - destruct (changeTrack_all TRACK_COMMAND_REJECT_ALL param) as (b & tr' & H & Hd & Hb);
      [by right | done | done |].
    destruct b; [|by destruct (Htracked (Hb eq_refl))].
    exists tr'. split; [done|]. rewrite Hd, Hdoc, !resolve_app.
    rewrite (resolve_untracked_id _ P), (resolve_untracked_id _ S) by done.
    rewrite !resolve_marked by done. simpl doomed_type.
    rewrite (bool_decide_eq_false_2 (mark_type del = MARK_INSERTION)) by (by rewrite Hdel).
    rewrite (bool_decide_eq_true_2 (mark_type ins = MARK_INSERTION)) by done.
    done.
  - destruct (changeTrack_all TRACK_COMMAND_ACCEPT_ALL param) as (b & tr' & H & Hd & Hb);
      [by left | done | done |].
    destruct b; [|by destruct (Htracked (Hb eq_refl))].
    exists tr'. split; [done|]. rewrite Hd, Hdoc, !resolve_app.
    rewrite (resolve_untracked_id _ P), (resolve_untracked_id _ S) by done.
    rewrite !resolve_marked by done. simpl doomed_type.
    rewrite (bool_decide_eq_true_2 (mark_type del = MARK_DELETION)) by done.
    rewrite (bool_decide_eq_false_2 (mark_type ins = MARK_DELETION)) by (by rewrite Hins).
    done.
Qed.

(** X14.  Tracking and settling are inverse to each other in index.ts.  On a
    document without track marks, let a change replace [Dl] by [sl], and let
    the interceptor, tracking on, append its corrective transaction.  On the
    document that results 'reject-all' gives back the old document, exactly,
    and 'accept-all' gives the new one. *)
Theorem index_tracked_edit_round_trip ed e now t (P Dl sl S : Doc) oldState newState :
  getSelfExt ed = Some e →
  enabled (ext_options e) = true →
  edits t P Dl sl S →
  es_doc newState = P ++ sl ++ S →
  Dl ≠ [] ∨ sl ≠ [] →
  wf_doc (P ++ Dl ++ S) → wf_doc sl →
  Forall untracked_char (P ++ Dl ++ S) → Forall untracked_char sl →
  ∃ tr', Index.appendTransaction (Some ed) now [t] oldState newState = Some (Some tr')
         ∧ ∀ param,
             es_doc (ed_state (editor param)) = tr_doc tr' →
             tr_doc (tr param) = tr_doc tr' →
             (∃ tr'', changeTrack TRACK_COMMAND_REJECT_ALL param = Some (true, tr'')
                      ∧ tr_doc tr'' = P ++ Dl ++ S)
             ∧ (∃ tr'', changeTrack TRACK_COMMAND_ACCEPT_ALL param = Some (true, tr'')
                        ∧ tr_doc tr'' = P ++ sl ++ S).
Proof.
  intros He Hen Hedit Hnew Hsome Hwf Hwfsl Hfree Hfreesl.
  destruct (index_edit_on ed e now t P Dl sl S oldState newState He Hen Hedit Hnew Hsome)
    as (tr' & H & Hd & _).
  exists tr'. split; [done|]. intros param Hdoc Htr.
  rewrite (insertion_marks_agree (index_insertion (ext_options e) now) sl) in Hd by done.
  eapply (tracked_edit_settled (index_insertion (ext_options e) now)
            (index_deletion (ext_options e) now)); try done; congruence.
Qed.

(** ** The interceptor of part_000 on one edit *)










(** ** Steps that neither insert nor delete *)

Lemma index_each_step_inert options now t acc i s :
  inert s = true → Index.each_step options now t acc i s = Some acc.
Proof.
  destruct acc as [tr0 modified]. destruct s as [from to sl| |]; simpl; try done.
  intros [Hft Hsl]%andb_true_iff. apply bool_decide_eq_true in Hft, Hsl.
  rewrite (bool_decide_eq_false_2 (0 < doc_size sl)) by lia.
  simpl. rewrite (bool_decide_eq_true_2 (from = to)) by done. done.
Qed.

Lemma part000_each_step_inert flag ins del t acc i s :
  inert s = true → Part000.each_step flag ins del t acc i s = Some acc.
Proof.
  destruct acc as [tr0 modified]. destruct s as [from to sl| |]; simpl; try done.
  intros [Hft Hsl]%andb_true_iff. apply bool_decide_eq_true in Hft, Hsl.
  rewrite (bool_decide_eq_false_2 (0 < doc_size sl)) by lia.
  simpl. rewrite (bool_decide_eq_true_2 (from = to)) by done. done.
Qed.

Lemma index_each_steps_inert options now t acc steps :
  Forall (λ s, inert s = true) steps →
  ∀ i, Index.each_steps options now t acc i steps = Some acc.
Proof.
  induction 1 as [|s steps Hs _ IH]; intros i; simpl; [done|].
  rewrite index_each_step_inert by done. simpl. apply IH.
Qed.

Lemma part000_each_steps_inert flag ins del t acc steps :
  Forall (λ s, inert s = true) steps →
  ∀ i, Part000.each_steps flag ins del t acc i steps = Some acc.
Proof.
  induction 1 as [|s steps Hs _ IH]; intros i; simpl; [done|].
  rewrite part000_each_step_inert by done. simpl. apply IH.
Qed.

(** X19.  Changes whose steps neither insert nor delete are left alone by
    both variants: when every step of every transaction is a mark step, or
    a replace step of nothing by nothing, the answer is [null]. *)
Theorem inert_steps_get_null ed selection_map options now transactions oldState newState :
  is_Some (getSelfExt ed) →
  Forall (λ t, Forall (λ s, inert s = true) (tr_steps t)) transactions →
  Index.appendTransaction (Some ed) now transactions oldState newState = Some None
  ∧ Part000.appendTransaction selection_map options now transactions oldState newState
    = Some None.
Proof.
  intros [e He] Hall. split.
  - unfold Index.appendTransaction. rewrite He. cbn [mbind option_bind].
    case_bool_decide; [done|].
    assert (∀ acc ts, Forall (λ t, Forall (λ s, inert s = true) (tr_steps t)) ts →
                      Index.each_transaction (ext_options e) now acc ts = Some acc) as Hrun.
    { intros acc ts Hts. induction Hts as [|t ts Ht _ IH]; simpl; [done|].
      rewrite index_each_steps_inert by done. simpl. apply IH. }
    rewrite Hrun; [done|].
    apply Forall_forall. intros t Ht. apply list_elem_of_In, filter_In in Ht as [Ht _].
    eapply Forall_forall in Hall; [done | by apply list_elem_of_In].
  - unfold Part000.appendTransaction. cbv zeta.
    destruct (Part000.hasRelevantChanges transactions); [|done]. simpl negb. cbn iota.
    assert (∀ flag ins del acc,
              Part000.each_transaction flag ins del acc transactions = Some acc) as Hrun.
    { intros flag ins del acc. induction Hall as [|t ts Ht _ IH]; simpl; [done|].
      destruct (_ || _); [apply IH|].
      rewrite part000_each_steps_inert by done. simpl. apply IH. }
    rewrite Hrun. done.
Qed.

(** ** The author of the marks *)

(** X20.  [updateOpUserOption] changes who the next edits are blamed on, and
    nothing else: the status, the callback log and the transaction stay, and
    the marks that the interceptor of index.ts then puts on an edit carry
    the new user id and nickname. *)
Theorem updateOpUserOption_sets_author opUserId opUserNickname param e now t
    (P Dl sl S : Doc) oldState newState :
  getSelfExt (editor param) = Some e →
  enabled (ext_options e) = true →
  edits t P Dl sl S →
  es_doc newState = P ++ sl ++ S →
  Dl ≠ [] ∨ sl ≠ [] →
  let ins := create MARK_INSERTION (Some opUserId) (Some opUserNickname)
                    (Some (getMinuteTime now)) in
  let del := create MARK_DELETION (Some opUserId) (Some opUserNickname)
                    (Some (getMinuteTime now)) in
  ∃ param' tr',
    updateOpUserOption opUserId opUserNickname param = Some (false, param')
    ∧ tr param' = tr param
    ∧ ed_statusLog (editor param') = ed_statusLog (editor param)
    ∧ getTrackChangeStatus param' = Some (true, param')
    ∧ Index.appendTransaction (Some (editor param')) now [t] oldState newState
      = Some (Some tr')
    ∧ tr_doc tr'
      = P ++ map (set_marks (addToSet del)) Dl
          ++ map (set_marks (λ ms, removeType MARK_DELETION (addToSet ins ms))) sl ++ S.
Proof.
  intros He Hen Hedit Hnew Hsome ins del.
  destruct (assign_option
              (λ o, mkOptions (enabled o) (onStatusChange o) (Some opUserId)
                              (Some opUserNickname)) _ _ He)
    as (pre & post & Hexts & Hpre & Hself & Hup & Hget).
  unfold updateOpUserOption. rewrite Hup. cbn [mbind option_bind].
  set (e' := mkExtension (ext_type e) (ext_name e)
               (mkOptions (enabled (ext_options e)) (onStatusChange (ext_options e))
                          (Some opUserId) (Some opUserNickname))) in *.
  set (ed' := mkEditor (ed_state (editor param)) (pre ++ e' :: post)
                       (ed_statusLog (editor param))).
  assert (getSelfExt ed' = Some e') as He' by apply Hget.
  destruct (index_edit_on ed' e' now t P Dl sl S oldState newState He' Hen Hedit Hnew Hsome)
    as (tr' & H & Hd & _).
  exists (mkCommandProps ed' (tr param)), tr'.
  split_and!; try done.
  unfold getTrackChangeStatus. simpl. rewrite He'. simpl. by rewrite Hen.
Qed.

(** ** The two variants side by side *)


(** X21.  Neither interceptor reacts to its own corrective transaction:
    handed the transaction it has just returned, each of them answers
    [null], so the round of appended transactions comes to an end. *)
Theorem interceptor_ignores_its_own_output :
  (∀ editor now transactions oldState newState tr' ed now' oldState' newState',
     Index.appendTransaction editor now transactions oldState newState = Some (Some tr') →
     is_Some (getSelfExt ed) →
     Index.appendTransaction (Some ed) now' [tr'] oldState' newState' = Some None)
  ∧ (∀ selection_map options now transactions oldState newState tr'
       selection_map' options' now' oldState' newState',
       Part000.appendTransaction selection_map options now transactions oldState newState
       = Some (Some tr') →
       Part000.appendTransaction selection_map' options' now' [tr'] oldState' newState'
       = Some None).
Proof.
  split.
  - intros editor now transactions oldState newState tr' ed now' oldState' newState' H He.
    apply index_all_flagged_null; [done|]. apply Forall_singleton.
    by eapply index_emitted_flagged.
  - intros selection_map options now transactions oldState newState tr'
      selection_map' options' now' oldState' newState' H.
    apply part000_all_flagged_null. apply Forall_singleton.
    by eapply part000_emitted_flagged.
Qed.


(** ** [changeTrack] on a selection *)

Lemma nodes_from_head p c d :
  ∃ n ns, nodes_from p (c :: d) = n :: ns ∧ n_from n = p ∧ n_marks n = marks c.
Proof.
  simpl. destruct (nodes_from (p + 1) d) as [|n ns]; [by do 2 eexists|].
  destruct (decide (marks c = n_marks n)); by do 2 eexists.
Qed.

(** Where the marks change, a text node ends and another one begins. *)
Lemma nodes_from_app p (A B : Doc) :
  (∀ a b, last A = Some a → head B = Some b → marks a ≠ marks b) →
  nodes_from p (A ++ B) = nodes_from p A ++ nodes_from (p + Z.of_nat (length A)) B.
Proof.
  revert p. induction A as [|a A IH]; intros p Hab.
  - simpl. by rewrite Z.add_0_r.
  - destruct A as [|a' A].
    + destruct B as [|b B]; [done|].
      change (([a] ++ b :: B)) with (a :: b :: B).
      change (nodes_from p (a :: b :: B)) with
        (match nodes_from (p + 1) (b :: B) with
         | n :: ns => if decide (marks a = n_marks n)
                      then mkNode p (n_to n) (marks a) :: ns
                      else mkNode p (p + 1) (marks a) :: n :: ns
         | [] => [mkNode p (p + 1) (marks a)]
         end).
      destruct (nodes_from_head (p + 1) b B) as (n & ns & Hn & _ & Hm).
      replace (p + Z.of_nat (length [a])) with (p + 1) by (simpl; lia).
      rewrite Hn. rewrite decide_False; [done|].
      rewrite Hm. by apply Hab.
    + change ((a :: a' :: A) ++ B) with (a :: ((a' :: A) ++ B)).
      change (nodes_from p (a :: (a' :: A) ++ B)) with
        (match nodes_from (p + 1) ((a' :: A) ++ B) with
         | n :: ns => if decide (marks a = n_marks n)
                      then mkNode p (n_to n) (marks a) :: ns
                      else mkNode p (p + 1) (marks a) :: n :: ns
         | [] => [mkNode p (p + 1) (marks a)]
         end).
      rewrite IH by (intros x y Hx; apply Hab; by rewrite last_cons, Hx).
      change (nodes_from p (a :: a' :: A)) with
        (match nodes_from (p + 1) (a' :: A) with
         | n :: ns => if decide (marks a = n_marks n)
                      then mkNode p (n_to n) (marks a) :: ns
                      else mkNode p (p + 1) (marks a) :: n :: ns
         | [] => [mkNode p (p + 1) (marks a)]
         end).
      destruct (nodes_from_head (p + 1) a' A) as (n & ns & Hn & _ & _).
      rewrite Hn. simpl.
      replace (p + 1 + Z.of_nat (S (length A)))
        with (p + Z.of_nat (S (S (length A)))) by lia.
      by destruct (decide (marks a = n_marks n)).
Qed.

(** A run of one mark set is one text node. *)
Lemma nodes_from_uniform p (D : Doc) ms :
  D ≠ [] → Forall (λ c, marks c = ms) D →
  nodes_from p D = [mkNode p (p + Z.of_nat (length D)) ms].
Proof.
  revert p. induction D as [|c D IH]; intros p Hne Hall; [done|].
  apply Forall_cons in Hall as [Hc Hall]. destruct D as [|c' D].
  - simpl. by rewrite Hc.
  - change (nodes_from p (c :: c' :: D)) with
      (match nodes_from (p + 1) (c' :: D) with
       | n :: ns => if decide (marks c = n_marks n)
                    then mkNode p (n_to n) (marks c) :: ns
                    else mkNode p (p + 1) (marks c) :: n :: ns
       | [] => [mkNode p (p + 1) (marks c)]
       end).
    rewrite IH by done. simpl. rewrite decide_True by done.
    rewrite Hc. do 2 f_equal. lia.
Qed.

(** The text nodes of a document around a run [D] of one mark set that the
    content on either side does not continue. *)
Lemma nodes_around (A D C : Doc) ms :
  D ≠ [] → Forall (λ c, marks c = ms) D →
  (∀ a, last A = Some a → marks a ≠ ms) →
  (∀ c, head C = Some c → marks c ≠ ms) →
  nodes (A ++ D ++ C)
  = nodes_from 0 A
    ++ mkNode (Z.of_nat (length A)) (Z.of_nat (length A) + Z.of_nat (length D)) ms
    :: nodes_from (Z.of_nat (length A) + Z.of_nat (length D)) C.
Proof.
  intros Hne Hall HA HC. unfold nodes.
  rewrite nodes_from_app.
  2:{ intros a b Ha Hb. destruct D as [|c D]; [done|]. simpl in Hb. injection Hb as <-.
      apply Forall_cons in Hall as [-> _]. by apply HA. }
  rewrite nodes_from_app.
  2:{ intros a b Ha Hb. apply last_Some_elem_of in Ha.
      eapply Forall_forall in Hall; [|done]. rewrite Hall.
      intros Heq. by apply (HC b). }
  by rewrite (nodes_from_uniform _ D ms).
Qed.

(** The track ranges that a range within the run [D] gathers: the one of the
    track mark of [D], with the extent of all of [D]. *)
Lemma run_ranges (A D C : Doc) ms m from to :
  D ≠ [] → Forall (λ c, marks c = ms) D →
  List.filter is_track_mark ms = [m] →
  (∀ a, last A = Some a → marks a ≠ ms) →
  (∀ c, head C = Some c → marks c ≠ ms) →
  doc_size A ≤ from → from < to → to ≤ doc_size A + doc_size D →
  List.filter is_track (getMarksBetween from to (A ++ D ++ C))
  = [mkMarkRange m (doc_size A) (doc_size A + doc_size D)].
Proof.
  intros Hne Hall Hm HA HC Hfrom Hsel Hto.
  rewrite getMarksBetween_nodes by lia.
  rewrite (nodes_around A D C ms) by done.
  rewrite List.filter_app. simpl.
  rewrite filter_none.
  2:{ pose proof (Segs_bounds 0 A _ (nodes_from_Segs 0 A)) as Hb.
      eapply Forall_impl; [exact Hb|]. intros n (_ & _ & Hn). simpl in Hn.
      apply andb_false_iff. right. apply bool_decide_eq_false.
      unfold doc_size in Hfrom. lia. }
  rewrite (filter_none _ (nodes_from _ C)).
  2:{ pose proof (Segs_bounds _ C _ (nodes_from_Segs
                                       (Z.of_nat (length A) + Z.of_nat (length D)) C)) as Hb.
      eapply Forall_impl; [exact Hb|]. intros n (Hn & _ & _). simpl in Hn.
      apply andb_false_iff. left. apply bool_decide_eq_false.
      unfold doc_size in Hto. lia. }
  assert (length D ≠ 0%nat) as Hlen by (by destruct D).
  unfold doc_size in *.
  rewrite !bool_decide_eq_true_2 by lia. simpl.
  unfold track_ranges. simpl. by rewrite Hm.
Qed.

(** [changeTrack] when the one range it gathers is that of the run [D]. *)
Lemma one_range_settled opType (A D C : Doc) m param markRanges :
  single opType → D ≠ [] → is_track_mark m = true →
  tr_doc (tr param) = A ++ D ++ C →
  gather opType (ed_state (editor param)) = (opType, markRanges) →
  List.filter is_track markRanges
  = [mkMarkRange m (doc_size A) (doc_size A + doc_size D)] →
  ∃ tr', changeTrack opType param = Some (true, tr')
         ∧ tr_doc tr' = if bool_decide (mark_type m = doomed_type opType)
                        then A ++ C
                        else A ++ map strip D ++ C.
Proof.
  intros Hop Hne Htrack Htr Hg Hr.
  set (r := mkMarkRange m (doc_size A) (doc_size A + doc_size D)) in *.
  unfold changeTrack. rewrite Hg, Hr. simpl length.
  rewrite bool_decide_eq_false_2 by done.
  cbn [changeTrack_loop].
  assert (length D ≠ 0%nat) as Hlen by (by destruct D).
  destruct (removes_mark opType r) eqn:E.
  - destruct (changeTrack_each_strip opType 0 (tr param) r E) as (tr1 & -> & Hd & _).
    { simpl. rewrite Htr. unfold doc_size. rewrite !length_app. lia. }
    cbn [mbind option_bind changeTrack_loop].
    eexists. split; [done|].
    rewrite (bool_decide_eq_false_2 (mark_type m = doomed_type opType)).
    2:{ apply (removes_mark_true opType m _ _ Hop) in E. done. }
    assert (tr_doc tr1 = A ++ map strip D ++ C) as <-.
    { rewrite Hd, Htr. simpl. rewrite !Z.sub_0_r. unfold doc_size.
      rewrite <- Nat2Z.inj_add. apply map_range_middle. }
    by destruct (bool_decide _).
  - destruct (changeTrack_each_delete opType 0 (tr param) r E) as (tr1 & -> & Hd & _).
    { simpl. unfold doc_size. lia. }
    { simpl. unfold doc_size. lia. }
    { simpl. rewrite Htr. unfold doc_size. rewrite !length_app. lia. }
    cbn [mbind option_bind changeTrack_loop].
    eexists. split; [done|].
    rewrite (bool_decide_eq_true_2 (mark_type m = doomed_type opType)).
    2:{ by apply (removes_mark_false opType m _ _ Hop Htrack) in E. }
    assert (tr_doc tr1 = A ++ C) as <-.
    { rewrite Hd, Htr. simpl. rewrite !Z.sub_0_r. unfold doc_size.
      rewrite Nat2Z.id, <- Nat2Z.inj_add, Nat2Z.id.
      rewrite take_app_length. rewrite app_assoc, drop_app_length'; [done|].
      by rewrite length_app. }
    by destruct (bool_decide _).
Qed.

Lemma only_track_mark ms m :
  List.filter is_track_mark ms = [m] → m ∈ ms ∧ is_track_mark m = true.
Proof.
  intros Hm. assert (In m (List.filter is_track_mark ms)) as Hin by (rewrite Hm; by left).
  apply filter_In in Hin as [Hin ?]. split; [by apply list_elem_of_In | done].
Qed.

(** X11.  A selection that covers only a part of a tracked run acts on the
    whole run: with a run [D] of one mark set, whose only track mark is [m],
    between [A] and [C], and a selection that is not empty and lies within
    the run, 'accept' and 'reject' delete all of [D] when [m] is of the
    doomed kind, and take the track mark off all of [D] otherwise. *)
Theorem partial_selection_takes_whole_run opType (A D C : Doc) ms m param :
  let state := ed_state (editor param) in
  single opType →
  D ≠ [] → Forall (λ c, marks c = ms) D →
  List.filter is_track_mark ms = [m] →
  (∀ a, last A = Some a → marks a ≠ ms) →
  (∀ c, head C = Some c → marks c ≠ ms) →
  es_doc state = A ++ D ++ C →
  tr_doc (tr param) = A ++ D ++ C →
  doc_size A ≤ sel_from (es_selection state) →
  sel_from (es_selection state) < sel_to (es_selection state) →
  sel_to (es_selection state) ≤ doc_size A + doc_size D →
  ∃ tr', changeTrack opType param = Some (true, tr')
         ∧ tr_doc tr' = if bool_decide (mark_type m = doomed_type opType)
                        then A ++ C
                        else A ++ map strip D ++ C.
Proof.
  intros state Hop Hne Hall Hm HA HC Hdoc Htr Hfrom Hsel Hto. fold state.
  set (from := sel_from (es_selection state)) in *.
  set (to := sel_to (es_selection state)) in *.
  destruct (only_track_mark ms m Hm) as [_ Htrack].
  apply (one_range_settled opType A D C m param (getMarksBetween from to (A ++ D ++ C)));
    try done.
  - unfold gather. fold state from to. rewrite <- Hdoc.
    rewrite (bool_decide_eq_false_2 (from = to)) by lia. rewrite andb_false_r.
    destruct Hop as [-> | ->]; done.
  - by apply (run_ranges A D C ms).
Qed.



(** ** Typing into deleted text *)





(** ** The status and the interceptor *)

(** X25.  [setTrackChangeStatus] is what the interceptor of index.ts goes
    by: after the command has switched tracking off, an insertion is no
    longer marked but rid of its track marks, and a deletion is answered
    with [null]. *)
Theorem status_off_stops_tracking param e now t (P Dl sl S : Doc) oldState newState :
  getSelfExt (editor param) = Some e →
  edits t P Dl sl S →
  es_doc newState = P ++ sl ++ S →
  ∃ param',
    setTrackChangeStatus false param = Some (false, param')
    ∧ (sl = [] →
       Index.appendTransaction (Some (editor param')) now [t] oldState newState
       = Some None)
    ∧ (sl ≠ [] →
       ∃ tr', Index.appendTransaction (Some (editor param')) now [t] oldState newState
              = Some (Some tr')
              ∧ tr_doc tr' = P ++ map strip sl ++ S).
Proof.
  intros He Hedit Hnew.
  destruct (assign_option (set_enabled (λ _, false)) _ _ He)
    as (pre & post & Hexts & Hpre & Hself & Hup & Hget).
  unfold setTrackChangeStatus, notify. rewrite Hup. cbn [mbind option_bind].
  rewrite Hget. cbn [mbind option_bind].
  set (e' := mkExtension (ext_type e) (ext_name e)
               (set_enabled (λ _, false) (ext_options e))) in *.
  eexists. split; [done|].
  assert (∀ log,
            Index.appendTransaction
              (Some (mkEditor (ed_state (editor param)) (pre ++ e' :: post) log))
              now [t] oldState newState
            = '(tr1, modified) ←
                Index.each_step (ext_options e') now t (state_tr newState, false) 0
                  (ReplaceStep (doc_size P) (doc_size P + doc_size Dl) sl);
              if (modified : bool)
              then Some (Some (setMeta tr1 "trackManualChanged" (MBool true)))
              else Some None) as Happ.
  { intros log. unfold Index.appendTransaction. rewrite Hget. cbn [mbind option_bind].
    simpl List.filter. rewrite (edits_index_relevant _ _ _ _ _ Hedit).
    simpl length. rewrite bool_decide_eq_false_2 by done.
    destruct Hedit as (Hsteps & _ & _).
    cbn [Index.each_transaction]. rewrite Hsteps. cbn [Index.each_steps].
    by destruct (Index.each_step _ _ _ _ _ _) as [[tr1 modified]|]. }
  destruct (index_each_step_off (ext_options e') now t P Dl sl S (state_tr newState) false)
    as (tr1 & Hstep & Hd & _); [done | done |].
  destruct (onStatusChange (ext_options e')); simpl editor; rewrite Happ, Hstep;
    cbn [mbind option_bind]; (split; [by intros -> |]);
    intros Hsl; rewrite (bool_decide_eq_false_2 _ Hsl); simpl; by eexists.
Qed.

(** * The properties at work *)

Lemma getMinuteTime_monotone_witness : getMinuteTime 0 ≤ getMinuteTime 90000.
Proof. apply getMinuteTime_monotone. lia. Defined.

Lemma getMinuteTime_stable_witness : getMinuteTime 100 = getMinuteTime 0.
Proof.
  apply (proj2 (getMinuteTime_stable 0 100)).
  assert (getMinuteTime 0 = 0) as -> by reflexivity. lia.
Defined.

Lemma status_round_trip_witness :
  ∃ param', setTrackChangeStatus false (props_of untracked) = Some (false, param')
            ∧ getTrackChangeStatus param' = Some (false, param').
Proof.
  destruct (status_round_trip false (props_of untracked)
              (mkExtension "extension" EXTENSION_NAME alice))
    as [(param' & H1 & H2 & _) _].
  - reflexivity.
  - exists param'. split; [exact H1 | exact H2].
Defined.

Lemma unregistered_extension_throws_witness : getTrackChangeStatus bare = None.
Proof.
  destruct (unregistered_extension_throws true "u2" "Bob" bare 0 [] untracked untracked)
    as (_ & _ & H & _).
  - reflexivity.
  - exact H.
Defined.

Lemma callback_knows_status_witness :
  ∃ param' this',
    run_commands [ToggleStatus; UpdateOpUser "u2" "Bob"; SetStatus true]
      (mkCommandProps
         (onCreate (mkExtension "extension" EXTENSION_NAME alice_told)
                   (editor_of alice_told untracked))
         (state_tr untracked)) = Some param'
    ∧ getSelfExt (editor param') = Some this'
    ∧ last (ed_statusLog (editor param')) = Some (enabled (ext_options this')).
Proof.
  destruct (callback_knows_status [ToggleStatus; UpdateOpUser "u2" "Bob"; SetStatus true]
              (mkExtension "extension" EXTENSION_NAME alice_told)
              (mkCommandProps (editor_of alice_told untracked) (state_tr untracked)))
    as (param' & this' & H1 & H2 & H3 & _).
  - reflexivity.
  - reflexivity.
  - exists param', this'. split; [exact H1|]. split; [exact H2 | exact H3].
Defined.

Lemma changeTrack_only_removes_witness :
  ∃ tr', changeTrack TRACK_COMMAND_ACCEPT_ALL (props_of world_deleted) = Some (true, tr')
         ∧ sublist (text_of (tr_doc tr')) (text_of (hello_world alice_deletion)).
Proof.
  assert (∃ tr', changeTrack TRACK_COMMAND_ACCEPT_ALL (props_of world_deleted)
                 = Some (true, tr')) as [tr' H].
  { eexists. reflexivity. }
  exists tr'. split; [exact H|].
  apply (changeTrack_only_removes _ _ _ _ H).
Defined.

Lemma all_changes_resolved_witness :
  ∃ b tr', changeTrack TRACK_COMMAND_REJECT_ALL (props_of world_deleted) = Some (b, tr')
           ∧ tr_doc tr' = resolve TRACK_COMMAND_REJECT_ALL (hello_world alice_deletion).
Proof.
  destruct (all_changes_resolved TRACK_COMMAND_REJECT_ALL (props_of world_deleted))
    as (b & tr' & H1 & H2 & _).
  - right. reflexivity.
  - apply wf_doc_app. split; [apply wf_plain | apply wf_marked, wf_marks_singleton].
  - reflexivity.
  - exists b, tr'. split; [exact H1 | exact H2].
Defined.

Lemma resolved_document_is_settled_witness :
  changeTrack TRACK_COMMAND_REJECT (props_of hello_after)
  = Some (false, state_tr hello_after).
Proof.
  assert (∃ tr', changeTrack TRACK_COMMAND_ACCEPT_ALL (props_of world_deleted)
                 = Some (true, tr') ∧ tr_doc tr' = es_doc hello_after) as (tr' & H & Hd).
  { eexists. split; reflexivity. }
  apply (resolved_document_is_settled TRACK_COMMAND_ACCEPT_ALL (props_of world_deleted)
           true tr' TRACK_COMMAND_REJECT (props_of hello_after)).
  - left. reflexivity.
  - apply wf_doc_app. split; [apply wf_plain | apply wf_marked, wf_marks_singleton].
  - reflexivity.
  - exact H.
  - symmetry. exact Hd.
Defined.

Lemma changeTrack_change_is_not_tracked_witness :
  ∃ tr', changeTrack TRACK_COMMAND_ACCEPT_ALL (props_of world_deleted) = Some (true, tr')
         ∧ Part000.appendTransaction Part000.map_through alice 0 [tr']
             world_deleted hello_after = Some None.
Proof.
  assert (∃ tr', changeTrack TRACK_COMMAND_ACCEPT_ALL (props_of world_deleted)
                 = Some (true, tr')) as [tr' H].
  { eexists. reflexivity. }
  exists tr'. split; [exact H|].
  destruct (changeTrack_change_is_not_tracked TRACK_COMMAND_ACCEPT_ALL
              (props_of world_deleted) tr') as (_ & _ & _ & H4).
  - reflexivity.
  - exact H.
  - apply H4.
Defined.

Lemma index_tracks_an_edit_witness :
  ∃ tr', Index.appendTransaction (Some (editor_of alice there_after)) 0 [world_to_there]
           hello_before there_after = Some (Some tr')
         ∧ text_of (tr_doc tr') = list_ascii_of_string "hello worldthere".
Proof.
  destruct (index_tracks_an_edit (editor_of alice there_after)
              (mkExtension "extension" EXTENSION_NAME alice) 0 world_to_there
              (plain "hello ") (plain "world") (plain "there") []
              hello_before there_after)
    as (tr' & H1 & _ & H2 & _).
  - reflexivity.
  - reflexivity.
  - split; [reflexivity|]. split; reflexivity.
  - reflexivity.
  - left. discriminate.
  - exists tr'. split; [exact H1|]. rewrite H2. reflexivity.
Defined.

Lemma index_untracked_edit_witness :
  ∃ tr', Index.appendTransaction (Some (editor_of alice_off there_after)) 0
           [world_to_there] hello_before there_after = Some (Some tr')
         ∧ tr_doc tr' = plain "hello there".
Proof.
  destruct (index_untracked_edit (editor_of alice_off there_after)
              (mkExtension "extension" EXTENSION_NAME alice_off) 0 world_to_there
              (plain "hello ") (plain "world") (plain "there") []
              hello_before there_after)
    as [H _].
  - reflexivity.
  - reflexivity.
  - split; [reflexivity|]. split; reflexivity.
  - reflexivity.
  - destruct H as (tr' & H1 & H2); [discriminate|].
    exists tr'. split; [exact H1|]. rewrite H2. reflexivity.
Defined.

Lemma index_tracked_edit_round_trip_witness :
  ∃ tr' tr'',
    Index.appendTransaction (Some (editor_of alice there_after)) 0 [world_to_there]
      hello_before there_after = Some (Some tr')
    ∧ changeTrack TRACK_COMMAND_REJECT_ALL
        (props_of (mkEditorState (tr_doc tr') (mkSelection 0 0) None)) = Some (true, tr'')
    ∧ tr_doc tr'' = plain "hello world".
Proof.
  destruct (index_tracked_edit_round_trip (editor_of alice there_after)
              (mkExtension "extension" EXTENSION_NAME alice) 0 world_to_there
              (plain "hello ") (plain "world") (plain "there") []
              hello_before there_after)
    as (tr' & H1 & H2).
  - reflexivity.
  - reflexivity.
  - split; [reflexivity|]. split; reflexivity.
  - reflexivity.
  - left. discriminate.
  - repeat constructor.
  - repeat constructor.
  - repeat constructor.
  - repeat constructor.
  - destruct (H2 (props_of (mkEditorState (tr_doc tr') (mkSelection 0 0) None)))
      as [(tr'' & H3 & H4) _].
    + reflexivity.
    + reflexivity.
    + exists tr', tr''. split; [exact H1|]. split; [exact H3 | exact H4].
Defined.






Lemma inert_steps_get_null_witness :
  Index.appendTransaction (Some (editor_of alice untracked)) 0 [bolded] untracked untracked
  = Some None.
Proof.
  destruct (inert_steps_get_null (editor_of alice untracked) Part000.map_through alice 0
              [bolded] untracked untracked) as [H _].
  - eexists. reflexivity.
  - repeat constructor.
  - exact H.
Defined.

Lemma updateOpUserOption_sets_author_witness :
  ∃ param' tr',
    updateOpUserOption "u2" "Bob" (props_of there_after) = Some (false, param')
    ∧ Index.appendTransaction (Some (editor param')) 0 [world_to_there]
        hello_before there_after = Some (Some tr')
    ∧ tr_doc tr'
      = plain "hello "
        ++ marked [create MARK_DELETION (Some "u2") (Some "Bob") (Some 0)] "world"
        ++ marked [create MARK_INSERTION (Some "u2") (Some "Bob") (Some 0)] "there".
Proof.
  destruct (updateOpUserOption_sets_author "u2" "Bob" (props_of there_after)
              (mkExtension "extension" EXTENSION_NAME alice) 0 world_to_there
              (plain "hello ") (plain "world") (plain "there") []
              hello_before there_after)
    as (param' & tr' & H1 & _ & _ & _ & H2 & H3).
  - reflexivity.
  - reflexivity.
  - split; [reflexivity|]. split; reflexivity.
  - reflexivity.
  - left. discriminate.
  - exists param', tr'. split; [exact H1|]. split; [exact H2|]. rewrite H3. reflexivity.
Defined.

Lemma interceptor_ignores_its_own_output_witness :
  ∃ tr', Index.appendTransaction (Some (editor_of alice hello_after)) 0 [delete_world]
           hello_before hello_after = Some (Some tr')
         ∧ Index.appendTransaction (Some (editor_of alice hello_after)) 0 [tr']
             hello_after world_deleted = Some None.
Proof.
  assert (∃ tr', Index.appendTransaction (Some (editor_of alice hello_after)) 0
                   [delete_world] hello_before hello_after = Some (Some tr')) as [tr' H].
  { eexists. reflexivity. }
  exists tr'. split; [exact H|].
  apply (proj1 interceptor_ignores_its_own_output _ _ _ _ _ _ _ _ _ _ H).
  eexists. reflexivity.
Defined.


Lemma partial_selection_takes_whole_run_witness :
  ∃ tr', changeTrack TRACK_COMMAND_ACCEPT (props_of or_selected) = Some (true, tr')
         ∧ tr_doc tr' = plain "hello ".
Proof.
  destruct (partial_selection_takes_whole_run TRACK_COMMAND_ACCEPT
              (plain "hello ") (marked [alice_deletion] "world") [] [alice_deletion]
              alice_deletion (props_of or_selected))
    as (tr' & H1 & H2).
  - left. reflexivity.
  - discriminate.
  - repeat constructor.
  - reflexivity.
  - intros a Ha. vm_compute in Ha. injection Ha as <-. discriminate.
  - intros c Hc. discriminate Hc.
  - reflexivity.
  - reflexivity.
  - vm_compute. discriminate.
  - reflexivity.
  - vm_compute. discriminate.
  - exists tr'. split; [exact H1|]. rewrite H2. reflexivity.
Defined.



Lemma status_off_stops_tracking_witness :
  ∃ param', setTrackChangeStatus false (props_of there_after) = Some (false, param')
            ∧ ∃ tr', Index.appendTransaction (Some (editor param')) 0 [world_to_there]
                       hello_before there_after = Some (Some tr')
                     ∧ tr_doc tr' = plain "hello there".
Proof.
  destruct (status_off_stops_tracking (props_of there_after)
              (mkExtension "extension" EXTENSION_NAME alice) 0 world_to_there
              (plain "hello ") (plain "world") (plain "there") []
              hello_before there_after)
    as (param' & H1 & _ & H2).
  - reflexivity.
  - split; [reflexivity|]. split; reflexivity.
  - reflexivity.
  - exists param'. split; [exact H1|].
    destruct H2 as (tr' & H3 & H4); [discriminate|].
    exists tr'. split; [exact H3|]. rewrite H4. reflexivity.
Defined.
